(** * Modal: a verification model of the modal popup library

    The development embeds the TypeScript sources of the library
    ([dom/makeElement], [dom/isNested], [modalRegion], [Modal], [ModalImage])
    and the loader script [modal.global] as Rocq functions over an explicit
    browser state: a DOM node store, the [window.modalRegion] slot, the heaps of [ModalRegion] and [Modal] objects,
    the promise heap, the timer list, the microtask queue, a clock and the
    trace of platform calls. *)

From Stdlib Require Import ZArith Lia.
From stdpp Require Import base option list gmap strings pretty relations.

Open Scope Z_scope.
Open Scope nat_scope.

(** ** The browser state *)

(** A DOM node.  Node identities are positions in the node store.
    [attributes] is what [setAttribute] writes, [properties] holds the string
    valued IDL properties the library assigns ([innerText], [textContent],
    [innerHTML], [src], [alt]), [style] the inline style declarations.
    [modal] is the expando back-reference of [ModalHtmlElement]; [onclick] is
    the click listener, which in this library is always the closure created
    by the constructor of the modal it names. *)
Record Node := mkNode {
  tagName : string;
  attributes : gmap string string;
  properties : gmap string string;
  style : gmap string string;
  parentNode : option nat;
  children : list nat;
  modal : option nat;
  onclick : option nat
}.

Definition blank (tag : string) : Node :=
  mkNode tag ∅ ∅ ∅ None [] None None.

Definition set_attributes (f : gmap string string → gmap string string) (n : Node) : Node :=
  mkNode (tagName n) (f (attributes n)) (properties n) (style n)
         (parentNode n) (children n) (modal n) (onclick n).
Definition set_properties (f : gmap string string → gmap string string) (n : Node) : Node :=
  mkNode (tagName n) (attributes n) (f (properties n)) (style n)
         (parentNode n) (children n) (modal n) (onclick n).
Definition set_style (f : gmap string string → gmap string string) (n : Node) : Node :=
  mkNode (tagName n) (attributes n) (properties n) (f (style n))
         (parentNode n) (children n) (modal n) (onclick n).
Definition set_parentNode (p : option nat) (n : Node) : Node :=
  mkNode (tagName n) (attributes n) (properties n) (style n)
         p (children n) (modal n) (onclick n).
Definition set_children (f : list nat → list nat) (n : Node) : Node :=
  mkNode (tagName n) (attributes n) (properties n) (style n)
         (parentNode n) (f (children n)) (modal n) (onclick n).
Definition set_modal (m : option nat) (n : Node) : Node :=
  mkNode (tagName n) (attributes n) (properties n) (style n)
         (parentNode n) (children n) m (onclick n).
Definition set_onclick (h : option nat) (n : Node) : Node :=
  mkNode (tagName n) (attributes n) (properties n) (style n)
         (parentNode n) (children n) (modal n) h.

(** [ModalRegion] objects have one field. *)
Record ModalRegion := mkModalRegion { element : nat }.

(** [Modal] objects.  [animationTime] is [None] while the field is still
    [undefined]. *)
Record Modal := mkModal {
  region : nat;
  cover : nat;
  content : nat;
  animationTime : option Z
}.

Definition set_animationTime (t : option Z) (m : Modal) : Modal :=
  mkModal (region m) (cover m) (content m) t.

(** The closures the library hands to the platform, one constructor per
    arrow function of the source, with the variables each one captures. *)
Inductive TimerCallback :=
  | AppearTick (this promise : nat)    (* appear: opacity = "1"; resolve() *)
  | DisappearDone (promise : nat).     (* disappear: resolve() *)

Inductive Reaction :=
  | RemoveCover (this : nat).          (* close: () => this.cover.remove() *)

(** A promise: fulfilled or pending, with the reactions registered by [then]
    and the promise each reaction settles. *)
Record Promise := mkPromise {
  fulfilled : bool;
  reactions : list (Reaction * nat)
}.

Inductive Method := MAppear | MDisappear | MClose.

(** Platform calls and method entries, in the order they happen. *)
Inductive Event :=
  | EvCreateElement (tag : string) (node : nat)
  | EvSetAttribute (node : nat) (name value : string)
  | EvInsertBefore (parent new : nat) (ref : option nat)
  | EvAppendChild (parent child : nat)
  | EvRemove (node : nat)
  | EvSetProperty (node : nat) (name value : string)
  | EvSetStyle (node : nat) (name value : string)
  | EvSetModal (node this : nat)
  | EvSetOnclick (node this : nat)
  | EvSetTimeout (cb : TimerCallback) (delay : Z)
  | EvCall (method : Method) (this : nat).

Record State := mkState {
  dom : list Node;
  window_modalRegion : option nat;
  region_heap : list ModalRegion;
  modal_heap : list Modal;
  promise_heap : list Promise;
  timers : list (Z * TimerCallback);
  microtasks : list (Reaction * nat);
  now : Z;
  trace : list Event
}.

Definition upd_dom (f : list Node → list Node) (s : State) : State :=
  mkState (f (dom s)) (window_modalRegion s) (region_heap s) (modal_heap s)
          (promise_heap s) (timers s) (microtasks s) (now s) (trace s).
Definition set_window_modalRegion (r : option nat) (s : State) : State :=
  mkState (dom s) r (region_heap s) (modal_heap s)
          (promise_heap s) (timers s) (microtasks s) (now s) (trace s).
Definition upd_region_heap (f : list ModalRegion → list ModalRegion) (s : State) : State :=
  mkState (dom s) (window_modalRegion s) (f (region_heap s)) (modal_heap s)
          (promise_heap s) (timers s) (microtasks s) (now s) (trace s).
Definition upd_modal_heap (f : list Modal → list Modal) (s : State) : State :=
  mkState (dom s) (window_modalRegion s) (region_heap s) (f (modal_heap s))
          (promise_heap s) (timers s) (microtasks s) (now s) (trace s).
Definition upd_promise_heap (f : list Promise → list Promise) (s : State) : State :=
  mkState (dom s) (window_modalRegion s) (region_heap s) (modal_heap s)
          (f (promise_heap s)) (timers s) (microtasks s) (now s) (trace s).
Definition upd_timers (f : list (Z * TimerCallback) → list (Z * TimerCallback)) (s : State) : State :=
  mkState (dom s) (window_modalRegion s) (region_heap s) (modal_heap s)
          (promise_heap s) (f (timers s)) (microtasks s) (now s) (trace s).
Definition upd_microtasks (f : list (Reaction * nat) → list (Reaction * nat)) (s : State) : State :=
  mkState (dom s) (window_modalRegion s) (region_heap s) (modal_heap s)
          (promise_heap s) (timers s) (f (microtasks s)) (now s) (trace s).
Definition set_now (t : Z) (s : State) : State :=
  mkState (dom s) (window_modalRegion s) (region_heap s) (modal_heap s)
          (promise_heap s) (timers s) (microtasks s) t (trace s).
Definition emit (e : Event) (s : State) : State :=
  mkState (dom s) (window_modalRegion s) (region_heap s) (modal_heap s)
          (promise_heap s) (timers s) (microtasks s) (now s) (trace s ++ [e]).

(** ** Computations *)

(** A JavaScript computation changes the state and either returns, throws
    (the state changes made so far stay), or runs out of the fuel that bounds
    a loop of the model. *)
Inductive Result (A : Type) :=
  | Ok (a : A)
  | Throw (msg : string)
  | Diverge.
Arguments Ok {A} a.
Arguments Throw {A} msg.
Arguments Diverge {A}.

Definition M (A : Type) : Type := State → State * Result A.

#[global] Instance M_ret : MRet M := λ A a s, (s, Ok a).
#[global] Instance M_bind : MBind M := λ A B f m s,
  match m s with
  | (s1, Ok a) => f a s1
  | (s1, Throw msg) => (s1, Throw msg)
  | (s1, Diverge) => (s1, Diverge)
  end.

Definition throw {A} (msg : string) : M A := λ s, (s, Throw msg).
Definition diverge {A} : M A := λ s, (s, Diverge).
Definition gets {A} (f : State → A) : M A := λ s, (s, Ok (f s)).
Definition modify (f : State → State) : M unit := λ s, (f s, Ok tt).
Definition when (b : bool) (m : M unit) : M unit := if b then m else mret tt.

(** A reference is dereferenced through its heap; a dangling one is a
    [TypeError], which the well-formedness invariant below rules out. *)
Definition deref {A} (heap : State → list A) (i : nat) : M A := λ s,
  match heap s !! i with
  | Some a => (s, Ok a)
  | None => (s, Throw "TypeError")
  end.

Fixpoint forM {A} (l : list A) (f : A → M unit) : M unit :=
  match l with
  | [] => mret tt
  | a :: l' => f a ;; forM l' f
  end.

(** ** The platform: DOM, timers, promises *)

(** [document.body] is the first node of the store. *)
Definition document_body : nat := 0.

Definition node_children (ns : list Node) (e : nat) : list nat :=
  default [] (children <$> ns !! e).
Definition node_parent (ns : list Node) (e : nat) : option nat :=
  ns !! e ≫= parentNode.
Definition firstChild (ns : list Node) (e : nat) : option nat :=
  head (node_children ns e).

(** Taking a node out of its parent, the first step of [remove],
    [appendChild] and [insertBefore]; nothing happens to a parentless node. *)
Definition detach (c : nat) (ns : list Node) : list Node :=
  match node_parent ns c with
  | Some p =>
      alter (set_parentNode None) c
        (alter (set_children (filter (λ k, k ≠ c))) p ns)
  | None => ns
  end.

Fixpoint insert_before (ref c : nat) (kids : list nat) : list nat :=
  match kids with
  | [] => [c]
  | k :: ks => if decide (k = ref) then c :: k :: ks
               else k :: insert_before ref c ks
  end.

(** [document.createElement] and [setAttribute], for the names the library
    passes: names that are valid and in lower case, which the platform takes
    as they are.  Its [InvalidCharacterError] for an invalid name and its
    lower-casing of other names are not part of the model. *)
Definition createElement (tag : string) : M nat := λ s,
  let id := length (dom s) in
  (emit (EvCreateElement tag id) (upd_dom (λ ns, ns ++ [blank tag]) s), Ok id).

Definition setAttribute (e : nat) (name value : string) : M unit :=
  modify (λ s, emit (EvSetAttribute e name value)
                 (upd_dom (alter (set_attributes (insert name value)) e) s)).

Definition setProperty (e : nat) (name value : string) : M unit :=
  modify (λ s, emit (EvSetProperty e name value)
                 (upd_dom (alter (set_properties (insert name value)) e) s)).

Definition setStyle (e : nat) (name value : string) : M unit :=
  modify (λ s, emit (EvSetStyle e name value)
                 (upd_dom (alter (set_style (insert name value)) e) s)).

Definition setModal (e this : nat) : M unit :=
  modify (λ s, emit (EvSetModal e this)
                 (upd_dom (alter (set_modal (Some this)) e) s)).

Definition setOnclick (e this : nat) : M unit :=
  modify (λ s, emit (EvSetOnclick e this)
                 (upd_dom (alter (set_onclick (Some this)) e) s)).

Definition attach_last (p c : nat) (ns : list Node) : list Node :=
  alter (set_children (λ ks, ks ++ [c])) p
    (alter (set_parentNode (Some p)) c (detach c ns)).

Definition appendChild (p c : nat) : M unit :=
  modify (λ s, emit (EvAppendChild p c) (upd_dom (attach_last p c) s)).

(** [insertBefore(new, ref)]: [ref = null] appends; a [ref] that is not a
    child of the parent is a [NotFoundError]. *)
Definition insertBefore (p c : nat) (ref : option nat) : M unit := λ s,
  match ref with
  | None => appendChild p c s
  | Some r =>
      if decide (r ∈ node_children (dom s) p) then
        (emit (EvInsertBefore p c ref)
           (upd_dom (λ ns, alter (set_children (insert_before r c)) p
                             (alter (set_parentNode (Some p)) c (detach c ns))) s),
         Ok tt)
      else (s, Throw "NotFoundError")
  end.

Definition remove (c : nat) : M unit :=
  modify (λ s, emit (EvRemove c) (upd_dom (detach c) s)).

(** Parsed markup: the elements of a fragment in document order, each with
    its tag and the position in the fragment of its parent element ([None]
    for a top-level element).  The store holds elements only; the attributes,
    the text and the inline event handlers that markup can carry are content
    of the page and are not represented, and [onclick] records only the
    listeners the library installs. *)
Definition Fragment : Type := list (string * option nat).

Definition clear_children (e : nat) (ns : list Node) : list Node :=
  foldr (λ k acc, alter (set_parentNode None) k acc)
        (alter (set_children (λ _, [])) e ns)
        (node_children ns e).

Fixpoint graft (root base : nat) (frag : Fragment) (ns : list Node) : list Node :=
  match frag with
  | [] => ns
  | (tag, up) :: rest =>
      let id := length ns in
      let p := match up with
               | Some j => if decide (base + j < id) then base + j else root
               | None => root
               end in
      graft root base rest
        (alter (set_children (λ ks, ks ++ [id])) p
           (ns ++ [set_parentNode (Some p) (blank tag)]))
  end.

(** Assigning [textContent], [innerText] or [innerHTML] replaces the element
    children of the node by those of the parsed value (none for text). *)
Definition replace_children (e : nat) (frag : Fragment) (ns : list Node) : list Node :=
  let ns' := clear_children e ns in
  graft e (length ns') frag ns'.

Definition setText (e : nat) (name value : string) : M unit :=
  modify (λ s, emit (EvSetProperty e name value)
                 (upd_dom (λ ns, replace_children e []
                             (alter (set_properties (insert name value)) e ns)) s)).

(** *** Numbers

    A JavaScript number with an integer value is represented by that value.
    Every integer up to 2^53 in magnitude is a number; a larger integer
    stands for the number nearest to it (ties to the even significand), as a
    numeric literal does, or for an infinity when it is out of range. *)
Definition round_to_double (t : Z) : Z :=
  let e := Z.log2 t in
  if (e <=? 52)%Z then t
  else
    let sh := (e - 52)%Z in
    let q := Z.shiftr t sh in
    let r := (t - Z.shiftl q sh)%Z in
    let half := Z.shiftl 1 (sh - 1) in
    let q' := if (r <? half)%Z then q
              else if (half <? r)%Z then (q + 1)%Z
              else if Z.even q then q else (q + 1)%Z in
    Z.shiftl q' sh.

Definition overflows (t : Z) : bool :=
  (2 ^ 1024 - 2 ^ 970 <=? Z.abs t)%Z.

(** The finite number an integer stands for, [None] for an infinity. *)
Definition to_number (t : Z) : option Z :=
  if overflows t then None
  else Some (Z.sgn t * round_to_double (Z.abs t))%Z.

(** [ToInt32], the conversion of a number to the IDL type [long]. *)
Definition to_int32 (t : Z) : Z :=
  match to_number t with
  | Some x =>
      let m := (x mod 2 ^ 32)%Z in
      if (m <? 2 ^ 31)%Z then m else (m - 2 ^ 32)%Z
  | None => 0%Z
  end.

(** The delay of a timer: [setTimeout] takes its timeout as a [long], and a
    negative one counts as 0. *)
Definition timer_delay (delay : Z) : Z := Z.max 0 (to_int32 delay).

(** [Number::toString] for an integer value: the shortest digits that
    denote the number (of two candidates the closer one), written out in
    full below 10^21 and with an exponent from there on. *)
Definition digit_count (x : Z) : Z := Z.of_nat (String.length (pretty x)).

Fixpoint shortest_digits (fuel : nat) (k x n : Z) : Z * Z * Z :=
  match fuel with
  | O => (x, n, n)
  | S fuel' =>
      let scale := (10 ^ (n - k))%Z in
      let s0 := (x / scale)%Z in
      let fits s := (round_to_double (s * scale) =? x)%Z in
      let result s :=
        if (s <? 10 ^ k)%Z then (s, k, n)
        else ((10 ^ (k - 1))%Z, k, (n + 1)%Z) in
      match fits s0, fits (s0 + 1)%Z with
      | true, true =>
          let below := (x - s0 * scale)%Z in
          let above := ((s0 + 1) * scale - x)%Z in
          if (below <? above)%Z then result s0
          else if (above <? below)%Z then result (s0 + 1)%Z
          else if Z.even s0 then result s0 else result (s0 + 1)%Z
      | true, false => result s0
      | false, true => result (s0 + 1)%Z
      | false, false => shortest_digits fuel' (k + 1)%Z x n
      end
  end.

Fixpoint zeros (n : nat) : string :=
  match n with O => "" | S n' => "0" +:+ zeros n' end.

Definition positive_number_string (x : Z) : string :=
  let '(s, k, n) := shortest_digits 17 1 x (digit_count x) in
  if (n <=? 21)%Z then pretty s +:+ zeros (Z.to_nat (n - k))
  else
    match pretty s with
    | String d rest =>
        String d (if (k =? 1)%Z then "" else "." +:+ rest)
        +:+ "e+" +:+ pretty (n - 1)%Z
    | EmptyString => ""
    end.

Definition Number_toString (t : Z) : string :=
  if (Z.abs t <=? 2 ^ 53)%Z then pretty t
  else
    match to_number t with
    | None => if (t <? 0)%Z then "-Infinity" else "Infinity"
    | Some x =>
        (if (x <? 0)%Z then "-" else "")
        +:+ positive_number_string (Z.abs x)
    end.

(** [setTimeout(callback, delay)]. *)
Definition setTimeout (cb : TimerCallback) (delay : Z) : M unit :=
  modify (λ s, emit (EvSetTimeout cb delay)
                 (upd_timers
                    (λ ts, ts ++ [((now s + timer_delay delay)%Z, cb)]) s)).

(** [new Promise(executor)] before the executor has resolved it. *)
Definition new_promise : M nat := λ s,
  (upd_promise_heap (λ ps, ps ++ [mkPromise false []]) s,
   Ok (length (promise_heap s))).

(** [Promise.resolve()]. *)
Definition Promise_resolve : M nat := λ s,
  (upd_promise_heap (λ ps, ps ++ [mkPromise true []]) s,
   Ok (length (promise_heap s))).

(** The [resolve] function of a promise: the first call fulfils it and
    queues its reactions as microtasks, later calls do nothing. *)
Definition resolve (p : nat) : M unit :=
  modify (λ s,
    match promise_heap s !! p with
    | Some pr =>
        if fulfilled pr then s
        else upd_microtasks (λ q, q ++ reactions pr)
               (upd_promise_heap (<[p := mkPromise true []]>) s)
    | None => s
    end).

(** [p.then(cb)]: a new promise, settled by the job that runs [cb]. *)
Definition Promise_then (p : nat) (cb : Reaction) : M nat :=
  pr ← deref promise_heap p;
  derived ← new_promise;
  (if fulfilled pr
   then modify (upd_microtasks (λ q, q ++ [(cb, derived)]))
   else modify (upd_promise_heap
                  (<[p := mkPromise false (reactions pr ++ [(cb, derived)])]>)));;
  mret derived.

(** ** dom/makeElement *)

Definition makeElement (tag : string) (attributes : list (string * string))
    (initializers : list (nat → M unit)) : M nat :=
  element ← createElement tag;
  forM attributes (λ a, setAttribute element a.1 a.2);;
  forM initializers (λ initializer, initializer element);;
  mret element.

(** ** dom/isNested *)

(** The [while (walk)] loop; [fuel] bounds the number of iterations. *)
Fixpoint isNested_loop (fuel : nat) (ns : list Node) (walk : option nat)
    (ancestor : nat) : option bool :=
  match walk with
  | None => Some false
  | Some w =>
      match fuel with
      | 0 => None
      | S fuel' =>
          let walk' := node_parent ns w in
          if decide (walk' = Some ancestor) then Some true
          else isNested_loop fuel' ns walk' ancestor
      end
  end.

Definition isNested (descendant ancestor : nat) : M bool := λ s,
  match isNested_loop (length (dom s)) (dom s) (Some descendant) ancestor with
  | Some b => (s, Ok b)
  | None => (s, Diverge)
  end.

(** ** modalRegion *)

(** [new ModalRegion()]: the field initialiser builds the container and
    inserts it before the body's first child; the constructor publishes the
    region on [window]. *)
Definition ModalRegion_new : M nat :=
  this ← gets (λ s, length (region_heap s));
  e ← makeElement "div" [("data-modal-region", "")]
        [λ e, first ← gets (λ s, firstChild (dom s) document_body);
              insertBefore document_body e first];
  modify (upd_region_heap (λ rs, rs ++ [mkModalRegion e]));;
  modify (set_window_modalRegion (Some this));;
  mret this.

(** The [modals] getter. *)
Definition ModalRegion_modals (s : State) (r : nat) : option (list (option nat)) :=
  rg ← region_heap s !! r;
  Some ((λ child, dom s !! child ≫= modal) <$> node_children (dom s) (element rg)).

(** ** Modal *)

(** The options object: the four declared optional fields ([None] when the
    field is [undefined]) and the names of any further own properties. *)
Record ModalOptions := mkModalOptions {
  opt_textContent : option string;
  opt_innerHTML : option string;
  opt_closeOnCoverClick : option bool;
  opt_animationTime : option Z;
  opt_other_keys : gset string
}.

(** [{}], the default of the constructor's parameter. *)
Definition no_options : ModalOptions := mkModalOptions None None None None ∅.

(** [ModalImageOptions extends ModalOptions]. *)
Record ModalImageOptions := mkModalImageOptions {
  opt_base : ModalOptions;
  opt_src : option string
}.

(** The classes that implement [createContent]. *)
Inductive ModalClass := ClassModal | ClassModalImage.

Definition configuration_error : string :=
  "Doesn't make sense to provide innerHTML and textContent at the same time – they override each other".

Section Library.

(** The platform's HTML fragment parser, used by the [innerHTML] setter. *)
Variable parseHTML : string → Fragment.

Definition setInnerHTML (e : nat) (value : string) : M unit :=
  modify (λ s, emit (EvSetProperty e "innerHTML" value)
                 (upd_dom (λ ns, replace_children e (parseHTML value)
                             (alter (set_properties (insert "innerHTML" value)) e ns)) s)).

Definition createContent (cls : ModalClass) : M nat :=
  match cls with
  | ClassModal => makeElement "div" [("class", "modal-content modal-plate")] []
  | ClassModalImage => makeElement "img" [("class", "modal-content modal-image")] []
  end.

(** The [region] field initialiser: [window.modalRegion || (window.modalRegion
    = new ModalRegion())]. *)
Definition acquire_region : M nat :=
  published ← gets window_modalRegion;
  match published with
  | Some r => mret r
  | None =>
      r ← ModalRegion_new;
      modify (set_window_modalRegion (Some r));;
      mret r
  end.

Definition appear (this : nat) : M nat :=
  modify (emit (EvCall MAppear this));;
  obj ← deref modal_heap this;
  match animationTime obj with
  | Some t =>
      if (0 <? t)%Z then
        setStyle (cover obj) "opacity" "0";;
        setStyle (cover obj) "transition"
          ("opacity " +:+ Number_toString t +:+ "ms ease");;
        p ← new_promise;
        setTimeout (AppearTick this p) 0;;
        mret p
      else Promise_resolve
  | None => Promise_resolve
  end.

Definition disappear (this : nat) : M nat :=
  modify (emit (EvCall MDisappear this));;
  obj ← deref modal_heap this;
  match animationTime obj with
  | Some t =>
      if (0 <? t)%Z then
        setStyle (cover obj) "opacity" "0";;
        p ← new_promise;
        setTimeout (DisappearDone p) t;;
        mret p
      else Promise_resolve
  | None => Promise_resolve
  end.

Definition close (this : nat) : M nat :=
  modify (emit (EvCall MClose this));;
  p ← disappear this;
  Promise_then p (RemoveCover this).

(** The click listener installed on the cover. *)
Definition cover_onclick (this target : nat) : M unit :=
  obj ← deref modal_heap this;
  if decide (target = content obj) then mret tt
  else
    nested ← isNested target (content obj);
    if nested : bool then mret tt
    else close this;; mret tt.

(** [new Modal(options)] for the class [cls]: the three field initialisers in
    declaration order, then the constructor body. *)
Definition Modal_new (cls : ModalClass) (options : option ModalOptions) : M nat :=
  let options := default no_options options in
  this ← gets (λ s, length (modal_heap s));
  region ← acquire_region;
  cover ← makeElement "div" [("class", "modal-cover")] [λ e, setModal e this];
  content ← createContent cls;
  modify (upd_modal_heap (λ ms, ms ++ [mkModal region cover content None]));;
  (if bool_decide (opt_innerHTML options ≠ None ∧ opt_textContent options ≠ None)
   then throw configuration_error else mret tt);;
  match opt_textContent options with
  | Some text =>
      setText content "innerText" text;;
      setText content "textContent" text
  | None => mret tt
  end;;
  match opt_innerHTML options with
  | Some html => when (bool_decide (html ≠ "")) (setInnerHTML content html)
  | None => mret tt
  end;;
  appendChild cover content;;
  when (default true (opt_closeOnCoverClick options)) (setOnclick cover this);;
  modify (upd_modal_heap (alter (set_animationTime
    (if bool_decide ("fadeTime" ∈ opt_other_keys options)
     then opt_animationTime options
     else Some 250%Z)) this));;
  appear this;;
  rg ← deref region_heap region;
  appendChild (element rg) cover;;
  mret this.

(** [new ModalImage(options)]. *)
Definition ModalImage_new (options : ModalImageOptions) : M nat :=
  this ← Modal_new ClassModalImage (Some (opt_base options));
  obj ← deref modal_heap this;
  setProperty (content obj) "src" (default "" (opt_src options));;
  setProperty (content obj) "alt" "";;
  mret this.

(** ** The event loop *)

Definition run_timer (cb : TimerCallback) : M unit :=
  match cb with
  | AppearTick this p =>
      obj ← deref modal_heap this;
      setStyle (cover obj) "opacity" "1";;
      resolve p
  | DisappearDone p => resolve p
  end.

Definition run_reaction (cb : Reaction) : M unit :=
  match cb with
  | RemoveCover this =>
      obj ← deref modal_heap this;
      remove (cover obj)
  end.

(** A promise job: run the reaction, then fulfil the derived promise. *)
Definition run_job (job : Reaction * nat) : M unit :=
  run_reaction job.1;;
  resolve job.2.

(** The nodes a click on [target] passes through while it bubbles up. *)
Fixpoint event_path (fuel : nat) (ns : list Node) (walk : option nat)
    : option (list nat) :=
  match walk with
  | None => Some []
  | Some w =>
      match fuel with
      | 0 => None
      | S fuel' => (w ::.) <$> event_path fuel' ns (node_parent ns w)
      end
  end.

(** A click: the listener of each node on the path is called in turn. *)
Definition click (target : nat) : M unit := λ s,
  match event_path (length (dom s)) (dom s) (Some target) with
  | Some path =>
      forM path (λ n,
        listener ← gets (λ s, dom s !! n ≫= onclick);
        match listener with
        | Some this => cover_onclick this target
        | None => mret tt
        end) s
  | None => (s, Diverge)
  end.

(** One step of the page: client code constructs a modal, closes one it
    holds, the user clicks a node, the clock advances, a due timer fires, or
    the next promise job runs. *)
Inductive step : State → State → Prop :=
  | step_Modal cls options s :
      step s (Modal_new cls options s).1
  | step_ModalImage options s :
      step s (ModalImage_new options s).1
  | step_close this s :
      this < length (modal_heap s) →
      step s (close this s).1
  | step_click target s :
      target < length (dom s) →
      step s (click target s).1
  | step_tick d s :
      (0 ≤ d)%Z →
      step s (set_now (now s + d)%Z s)
  | step_timer ts1 due cb ts2 s :
      microtasks s = [] →
      timers s = ts1 ++ (due, cb) :: ts2 →
      (due ≤ now s)%Z →
      step s (run_timer cb (upd_timers (λ _, ts1 ++ ts2) s)).1
  | step_job job rest s :
      microtasks s = job :: rest →
      step s (run_job job (upd_microtasks (λ _, rest) s)).1.

(** A freshly loaded page: the body with the given child nodes, nothing of
    the library yet. *)
Definition page (tags : list string) : State :=
  mkState
    (mkNode "body" ∅ ∅ ∅ None (seq 1 (length tags)) None None
       :: ((λ t, set_parentNode (Some document_body) (blank t)) <$> tags))
    None [] [] [] [] [] 0%Z [].

Definition reachable (s : State) : Prop :=
  ∃ tags, rtc step (page tags) s.

End Library.

(** ** Specification vocabulary *)

Definition node_modal (ns : list Node) (e : nat) : option nat := ns !! e ≫= modal.
Definition node_onclick (ns : list Node) (e : nat) : option nat := ns !! e ≫= onclick.

(** Parents come before their children in the store, so parent chains end. *)
Definition tree_ordered (ns : list Node) : Prop :=
  ∀ i p, node_parent ns i = Some p → p < i.

(** A modal's cover is attached when the region's container is its parent. *)
Definition attached (ns : list Node) (e : nat) (obj : Modal) : Prop :=
  node_parent ns (cover obj) = Some e.

#[global] Instance attached_dec ns e obj : Decision (attached ns e obj).
Proof. unfold attached. apply _. Defined.

Definition modal_ok (ns : list Node) (e m : nat) (obj : Modal) : Prop :=
  region obj = 0 ∧ e < cover obj ∧ cover obj < content obj ∧
  content obj < length ns ∧
  node_modal ns (cover obj) = Some m ∧
  node_modal ns (content obj) = None ∧
  (node_parent ns (cover obj) = None ∨ node_parent ns (cover obj) = Some e) ∧
  (node_parent ns (content obj) = None
   ∨ node_parent ns (content obj) = Some (cover obj)).

Definition region_ok (ns : list Node) (e : nat) (mh : list Modal) : Prop :=
  0 < e ∧ e < length ns ∧
  firstChild ns document_body = Some e ∧
  node_parent ns e = Some document_body ∧
  (∀ m obj, mh !! m = Some obj → modal_ok ns e m obj) ∧
  node_children ns e = cover <$> filter (attached ns e) mh.

(** The invariant of the page. *)
Definition wf_parts (ns : list Node) (w : option nat) (rh : list ModalRegion)
    (mh : list Modal) : Prop :=
  0 < length ns ∧
  node_parent ns document_body = None ∧
  tree_ordered ns ∧
  (∀ i m, node_onclick ns i = Some m →
          ∃ obj, mh !! m = Some obj ∧ cover obj = i) ∧
  match w with
  | None => rh = [] ∧ mh = []
  | Some r => r = 0 ∧ ∃ e, rh = [mkModalRegion e] ∧ region_ok ns e mh
  end.

Definition wf (s : State) : Prop :=
  wf_parts (dom s) (window_modalRegion s) (region_heap s) (modal_heap s).

(** The modals whose cover is attached to the container [e], oldest first. *)
Definition cover_parent (s : State) (m : nat) : option nat :=
  obj ← modal_heap s !! m; node_parent (dom s) (cover obj).

Definition attached_modals (s : State) (e : nat) : list nat :=
  filter (λ m, cover_parent s m = Some e) (seq 0 (length (modal_heap s))).

Definition is_fulfilled (s : State) (p : nat) : bool :=
  default false (fulfilled <$> promise_heap s !! p).

(** Hoare triples over [M]: from a state satisfying [P] the computation
    does not diverge; it returns in a state satisfying [Q] or throws in one
    satisfying [E]. *)
Definition hoare {A} (P : State → Prop) (m : M A) (Q : A → State → Prop)
    (E : string → State → Prop) : Prop :=
  ∀ s, P s →
    match m s with
    | (s', Ok a) => Q a s'
    | (s', Throw msg) => E msg s'
    | (s', Diverge) => False
    end.

(** Two stores with the same tree, back-references and listeners. *)
Definition same_tree (ns ns' : list Node) : Prop :=
  length ns' = length ns ∧
  ∀ i, node_parent ns' i = node_parent ns i ∧
       node_children ns' i = node_children ns i ∧
       node_modal ns' i = node_modal ns i ∧
       node_onclick ns' i = node_onclick ns i.

Definition cosmetic (f : Node → Node) : Prop :=
  ∀ n, parentNode (f n) = parentNode n ∧ children (f n) = children n ∧
       modal (f n) = modal n ∧ onclick (f n) = onclick n.

(** The nodes created below a content element: no back-reference, no
    listener, and a parent that is the content element or an earlier one of
    them.  [n] is the identity of the cover. *)
Definition sub_ok (n : nat) (sub : list Node) : Prop :=
  ∀ k nd, sub !! k = Some nd →
    modal nd = None ∧ onclick nd = None ∧
    ∃ p, parentNode nd = Some p ∧ S n ≤ p ∧ p < S (S n) + k.

(** The container element as [new ModalRegion()] leaves it. *)
Definition region_node : Node :=
  set_parentNode (Some document_body)
    (set_attributes (insert "data-modal-region" "") (blank "div")).

(** The state while a modal is under construction: relative to the state
    [s1] in which its cover was created, the store ends with the cover
    [cov], the content [con] and the nodes [sub] parsed into the content;
    the modal object is the last of the heap. *)
Definition building (s1 : State) (cov con : Node) (sub : list Node)
    (a : option Z) (ps : list Promise) (ts : list (Z * TimerCallback))
    (evs : list Event) : State :=
  mkState (dom s1 ++ cov :: con :: sub)
    (window_modalRegion s1) (region_heap s1)
    (modal_heap s1
       ++ [mkModal 0 (length (dom s1)) (S (length (dom s1))) a])
    (promise_heap s1 ++ ps) (timers s1 ++ ts) (microtasks s1) (now s1)
    (trace s1 ++ evs).

(** Two nodes that differ at most in their children. *)
Definition same_but_children (n n' : Node) : Prop :=
  tagName n' = tagName n ∧ attributes n' = attributes n ∧
  properties n' = properties n ∧ style n' = style n ∧
  parentNode n' = parentNode n ∧ modal n' = modal n ∧ onclick n' = onclick n.

(** The cover and the content as the field initialisers create them, and
    the platform calls of the initialisers on a page whose region is
    published. *)
Definition cover0 (this : nat) : Node :=
  set_modal (Some this)
    (set_attributes (insert "class" "modal-cover") (blank "div")).

Definition content0 (cls : ModalClass) : Node :=
  match cls with
  | ClassModal =>
      set_attributes (insert "class" "modal-content modal-plate") (blank "div")
  | ClassModalImage =>
      set_attributes (insert "class" "modal-content modal-image") (blank "img")
  end.

Definition field_events (cls : ModalClass) (this n : nat) : list Event :=
  [EvCreateElement "div" n; EvSetAttribute n "class" "modal-cover";
   EvSetModal n this;
   match cls with
   | ClassModal => EvCreateElement "div" (S n)
   | ClassModalImage => EvCreateElement "img" (S n)
   end;
   match cls with
   | ClassModal => EvSetAttribute (S n) "class" "modal-content modal-plate"
   | ClassModalImage => EvSetAttribute (S n) "class" "modal-content modal-image"
   end].

(** The usage error of the constructor: both content options are set. *)
Definition conflicting (o : ModalOptions) : Prop :=
  opt_innerHTML o ≠ None ∧ opt_textContent o ≠ None.

(** What the constructor body does to the content and the cover, and the
    platform calls it makes, as functions of the options. *)
Definition text_content (o : ModalOptions) (con : Node) : Node :=
  match opt_textContent o with
  | Some t =>
      set_children (λ _, []) (set_properties (insert "textContent" t)
        (set_children (λ _, []) (set_properties (insert "innerText" t) con)))
  | None => con
  end.

Definition text_events (o : ModalOptions) (n : nat) : list Event :=
  match opt_textContent o with
  | Some t => [EvSetProperty (S n) "innerText" t;
               EvSetProperty (S n) "textContent" t]
  | None => []
  end.

Definition has_markup (o : ModalOptions) : option string :=
  match opt_innerHTML o with
  | Some h => if bool_decide (h ≠ "") then Some h else None
  | None => None
  end.

Definition html_events (o : ModalOptions) (n : nat) : list Event :=
  match has_markup o with
  | Some h => [EvSetProperty (S n) "innerHTML" h]
  | None => []
  end.

Definition closes_on_click (o : ModalOptions) : bool :=
  default true (opt_closeOnCoverClick o).

Definition onclick_events (o : ModalOptions) (this n : nat) : list Event :=
  if closes_on_click o then [EvSetOnclick n this] else [].

Definition chosen_animationTime (o : ModalOptions) : option Z :=
  if bool_decide ("fadeTime" ∈ opt_other_keys o)
  then opt_animationTime o else Some 250%Z.

Definition animated (a : option Z) : bool :=
  match a with Some t => (0 <? t)%Z | None => false end.

Definition transition_of (a : option Z) : string :=
  "opacity " +:+ Number_toString (default 0%Z a) +:+ "ms ease".

Definition appear_cover (a : option Z) (cov : Node) : Node :=
  if animated a
  then set_style (insert "transition" (transition_of a))
         (set_style (insert "opacity" "0") cov)
  else cov.

Definition appear_events (a : option Z) (this n p : nat) : list Event :=
  EvCall MAppear this ::
  (if animated a
   then [EvSetStyle n "opacity" "0";
         EvSetStyle n "transition" (transition_of a);
         EvSetTimeout (AppearTick this p) 0]
   else []).

Definition appear_timers (a : option Z) (t : Z) (this p : nat)
    : list (Z * TimerCallback) :=
  if animated a then [((t + timer_delay 0)%Z, AppearTick this p)] else [].

Definition body_events (o : ModalOptions) (this n e p : nat) : list Event :=
  text_events o n ++ html_events o n ++ [EvAppendChild n (S n)]
  ++ onclick_events o this n
  ++ appear_events (chosen_animationTime o) this n p
  ++ [EvAppendChild e n].

(** What a step of the page leaves as it was: nodes keep their
    back-reference and listener and keep or lose their parent, objects stay
    in their heaps, the published region stays, the clock does not go back. *)
Definition ext (s s' : State) : Prop :=
  length (dom s) ≤ length (dom s') ∧
  (∀ i, i < length (dom s) →
     node_modal (dom s') i = node_modal (dom s) i ∧
     node_onclick (dom s') i = node_onclick (dom s) i ∧
     (node_parent (dom s') i = node_parent (dom s) i
      ∨ node_parent (dom s') i = None)) ∧
  (∀ m obj, modal_heap s !! m = Some obj → modal_heap s' !! m = Some obj) ∧
  (∀ r, window_modalRegion s = Some r →
        window_modalRegion s' = Some r ∧ region_heap s' = region_heap s) ∧
  (now s ≤ now s')%Z.

(** The state in which [new Modal] returns: [s1] is the state after the
    region has been acquired, [e] the container, [con] and [sub] the content
    and the nodes parsed into it. *)
Definition constructed (cls : ModalClass) (o : ModalOptions) (s1 : State)
    (e : nat) (con : Node) (sub : list Node) : State :=
  let this := length (modal_heap s1) in
  let n := length (dom s1) in
  let a := chosen_animationTime o in
  mkState
    (alter (set_children (λ ks, ks ++ [n])) e (dom s1)
       ++ set_parentNode (Some e)
            (appear_cover a
               (if closes_on_click o
                then set_onclick (Some this)
                       (set_children (λ ks, ks ++ [S n]) (cover0 this))
                else set_children (λ ks, ks ++ [S n]) (cover0 this)))
       :: set_parentNode (Some n) con :: sub)
    (Some 0) (region_heap s1)
    (modal_heap s1 ++ [mkModal 0 n (S n) a])
    (promise_heap s1 ++ [mkPromise (negb (animated a)) []])
    (timers s1 ++ appear_timers a (now s1) this (length (promise_heap s1)))
    (microtasks s1) (now s1)
    (trace s1 ++ field_events cls this n
       ++ body_events o this n e (length (promise_heap s1))).

(** What the options leave in the content element. *)
Definition content_filled (cls : ModalClass) (o : ModalOptions) (n : nat)
    (con : Node) (sub : list Node) : Prop :=
  match has_markup o with
  | Some h =>
      same_but_children
        (set_properties (insert "innerHTML" h) (text_content o (content0 cls)))
        con
  | None => con = text_content o (content0 cls) ∧ sub = []
  end ∧ sub_ok n sub.

(** The state in which [close()] returns, for the modal object [obj] at
    [this]: the promise of [disappear] is allocated first, the one [then]
    derives from it second. *)
Definition closed (this : nat) (obj : Modal) (s : State) : State :=
  let a := animationTime obj in
  let q := length (promise_heap s) in
  mkState
    (if animated a
     then alter (set_style (insert "opacity" "0")) (cover obj) (dom s)
     else dom s)
    (window_modalRegion s) (region_heap s) (modal_heap s)
    (promise_heap s
       ++ [if animated a then mkPromise false [(RemoveCover this, S q)]
           else mkPromise true [];
           mkPromise false []])
    (timers s
       ++ if animated a
          then [((now s + timer_delay (default 0%Z a))%Z, DisappearDone q)]
          else [])
    (microtasks s ++ if animated a then [] else [(RemoveCover this, S q)])
    (now s)
    (trace s ++ [EvCall MClose this; EvCall MDisappear this]
       ++ if animated a
          then [EvSetStyle (cover obj) "opacity" "0";
                EvSetTimeout (DisappearDone q) (default 0%Z a)]
          else []).

(** A computation keeps an invariant of the state, however it ends. *)
Definition preserves {A} (I : State → Prop) (m : M A) : Prop :=
  ∀ s, I s → I (m s).1.

(** The invariant together with the frame from a given earlier state. *)
Definition wf_from (s0 s : State) : Prop := wf s ∧ ext s0 s.

(** [a] is reached from [d] by following [parentNode] one or more times. *)
Inductive proper_ancestor (ns : list Node) (a : nat) : nat → Prop :=
  | ancestor_parent d :
      node_parent ns d = Some a → proper_ancestor ns a d
  | ancestor_up d p :
      node_parent ns d = Some p → proper_ancestor ns a p →
      proper_ancestor ns a d.

(** The promise a timer callback resolves. *)
Definition timer_target (cb : TimerCallback) : nat :=
  match cb with
  | AppearTick _ p => p
  | DisappearDone p => p
  end.

(** No timer, job or reaction refers to a promise that does not exist yet. *)
Definition async_ok (x : State) : Prop :=
  let n := length (promise_heap x) in
  Forall (λ t, timer_target t.2 < n) (timers x)
  ∧ Forall (λ j, j.2 < n) (microtasks x)
  ∧ ∀ i pr, promise_heap x !! i = Some pr → Forall (λ j, j.2 < n) (reactions pr).

(** A pending [close()] of the modal [this] with cover [c]: [q] is the
    promise of [disappear()], [p] the one [close()] returned, [T] the time at
    which the timer of [disappear()] is due.  Only that timer resolves [q],
    only the removal job of this call resolves [p], and the job exists only
    from time [T] on. *)
Definition pending_close (this c q p : nat) (T : Z) (x : State) : Prop :=
  (∃ obj, modal_heap x !! this = Some obj ∧ cover obj = c)
  ∧ q < length (promise_heap x) ∧ p < length (promise_heap x) ∧ q ≠ p
  ∧ Forall (λ t, timer_target t.2 ≠ p ∧ (timer_target t.2 = q → t.1 = T))
           (timers x)
  ∧ Forall (λ j, j.2 ≠ q
                 ∧ (j.2 = p → j.1 = RemoveCover this ∧ (T ≤ now x)%Z))
           (microtasks x)
  ∧ (∀ i pr, promise_heap x !! i = Some pr →
       Forall (λ j, j.2 ≠ q ∧ (j.2 = p → j.1 = RemoveCover this ∧ i = q))
              (reactions pr))
  ∧ (is_fulfilled x p = true →
       (T ≤ now x)%Z ∧ node_parent (dom x) c = None).

(** [x'] adds promises, timers and jobs to [x], all of them about promises
    that [x] does not have. *)
Definition extends (x x' : State) : Prop :=
  ∃ ps ts js,
    promise_heap x' = promise_heap x ++ ps
    ∧ timers x' = timers x ++ ts
    ∧ microtasks x' = microtasks x ++ js
    ∧ now x' = now x
    ∧ let n := length (promise_heap x) in
      Forall (λ t, n ≤ timer_target t.2 < n + length ps) ts
      ∧ Forall (λ j, n ≤ j.2 < n + length ps) js
      ∧ Forall (λ pr, Forall (λ j, n ≤ j.2 < n + length ps) (reactions pr)) ps.

(** The invariant used to follow one [close()] through the life of the
    page; with [on = false] it is the part every reachable state has. *)
Definition closing (on : bool) (this c q p : nat) (T : Z) (x : State) : Prop :=
  wf x ∧ async_ok x ∧ (on = true → pending_close this c q p T x).

(** A computation that only adds to the page. *)
Definition grows {A} (m : M A) : Prop :=
  ∀ x, wf x → wf_from x (m x).1 ∧ extends x (m x).1.

(** The time at which the promise of [close()] can be fulfilled: the due
    time of the timer of [disappear()] when there is one. *)
Definition close_due (obj : Modal) (s : State) : Z :=
  (now s + if animated (animationTime obj)
           then timer_delay (default 0%Z (animationTime obj)) else 0)%Z.






(** ** modal.global: the loader *)

(** The script of the page that loads the two modules and lets client code
    wait for them.  A handler is a client function, known here by an
    identity; of what it does, the loader only sees whether it returns or
    throws, and handlers are taken not to call the loader themselves.
    [window_Modal] is [false] while [window.Modal] is [null]; [calls] lists
    the calls of handlers made so far, each with whether the class was passed
    as argument. *)
Definition Handler : Type := nat.

Record Global := mkGlobal {
  window_Modal : bool;
  window_ModalImage : bool;
  handlers : list Handler;
  calls : list (Handler * bool)
}.

(** The state when the wrapping function has run: [window.Modal = null],
    [handlers = []], the [require] pending. *)
Definition loader_start : Global := mkGlobal false false [] [].

Section Loader.

(** Whether a handler throws when it is called. *)
Variable throws : Handler → bool.

(** A call of a handler; the boolean of the result is [true] when the call
    returns and [false] when it throws. *)
Definition call_handler (h : Handler) (with_class : bool) (g : Global)
    : Global * bool :=
  (mkGlobal (window_Modal g) (window_ModalImage g) (handlers g)
     (calls g ++ [(h, with_class)]),
   negb (throws h)).

(** [handlers.forEach(handler => handler(window.Modal))]. *)
Fixpoint forEach_handler (hs : list Handler) (g : Global) : Global * bool :=
  match hs with
  | [] => (g, true)
  | h :: rest =>
      let (g1, returned) := call_handler h true g in
      if returned then forEach_handler rest g1 else (g1, false)
  end.

(** The callback of [require], run when both modules are loaded. *)
Definition modules_loaded (g : Global) : Global * bool :=
  let g1 := mkGlobal true true (handlers g) (calls g) in
  let (g2, returned) := forEach_handler (handlers g1) g1 in
  if returned
  then (mkGlobal (window_Modal g2) (window_ModalImage g2) [] (calls g2), true)
  else (g2, false).

(** [window.onModalReady(handler)]. *)
Definition onModalReady (h : Handler) (g : Global) : Global * bool :=
  if window_Modal g then call_handler h false g
  else (mkGlobal (window_Modal g) (window_ModalImage g) (handlers g ++ [h])
          (calls g), true).

(** Client code calling [onModalReady] for each handler of a list in turn,
    going on after a call that throws. *)
Definition register_all (hs : list Handler) (g : Global) : Global :=
  foldl (λ g h, (onModalReady h g).1) g hs.

End Loader.

(** A parser for the examples: it knows one piece of markup, a [<b>]
    element holding an [<i>] element, and finds no element in anything
    else. *)
Definition parse_demo (markup : string) : Fragment :=
  if decide (markup = "<b><i>x</i></b>") then [("b", None); ("i", Some 0)]
  else [].

(** * Proofs *)

(** ** The Hoare rules *)

Section Rules.
Context {A B : Type}.
Implicit Types (P : State → Prop) (E : string → State → Prop).

Lemma hoare_bind P (m : M A) (f : A → M B) R Q E :
  hoare P m R E → (∀ a, hoare (R a) (f a) Q E) → hoare P (m ≫= f) Q E.
Proof.
  intros Hm Hf s HP. specialize (Hm s HP).
  unfold mbind, M_bind. destruct (m s) as [s1 [a|msg|]]; try done.
  by apply Hf.
Qed.

Lemma hoare_ret P (a : A) (Q : A → State → Prop) E :
  (∀ s, P s → Q a s) → hoare P (mret a) Q E.
Proof. intros H s HP. by apply H. Qed.

Lemma hoare_throw P msg (Q : A → State → Prop) E :
  (∀ s, P s → E msg s) → hoare P (throw msg) Q E.
Proof. intros H s HP. by apply H. Qed.

Lemma hoare_gets P (f : State → A) (Q : A → State → Prop) E :
  (∀ s, P s → Q (f s) s) → hoare P (gets f) Q E.
Proof. intros H s HP. by apply H. Qed.

Lemma hoare_conseq P P' (m : M A) (Q Q' : A → State → Prop) E E' :
  hoare P' m Q' E' →
  (∀ s, P s → P' s) → (∀ a s, Q' a s → Q a s) → (∀ msg s, E' msg s → E msg s) →
  hoare P m Q E.
Proof.
  intros Hm HP HQ HE s Hs. specialize (Hm s (HP s Hs)).
  destruct (m s) as [s1 [a|msg|]]; auto.
Qed.

Lemma hoare_deref P (heap : State → list A) i (Q : A → State → Prop) E :
  (∀ s, P s → ∃ a, heap s !! i = Some a ∧ Q a s) → hoare P (deref heap i) Q E.
Proof.
  intros H s HP. destruct (H s HP) as (a & Ha & HQ).
  unfold deref. by rewrite Ha.
Qed.

End Rules.

Lemma hoare_modify P (f : State → State) (Q : unit → State → Prop) E :
  (∀ s, P s → Q tt (f s)) → hoare P (modify f) Q E.
Proof. intros H s HP. by apply H. Qed.

Lemma hoare_when P (b : bool) (m : M unit) (Q : unit → State → Prop) E :
  (b = true → hoare P m Q E) → (b = false → ∀ s, P s → Q tt s) →
  hoare P (when b m) Q E.
Proof.
  intros Ht Hf. destruct b; [by apply Ht|]. intros s HP. by apply Hf.
Qed.

(** ** Lists and node stores *)

Lemma alter_at {A} (f : A → A) (l : list A) x l' :
  alter f (length l) (l ++ x :: l') = l ++ f x :: l'.
Proof. induction l; simpl; f_equal; auto. Qed.

Lemma alter_at_S {A} (f : A → A) (l : list A) x y l' :
  alter f (S (length l)) (l ++ x :: y :: l') = l ++ x :: f y :: l'.
Proof. induction l; simpl; f_equal; auto. Qed.

Lemma alter_below {A} (f : A → A) (l l' : list A) i :
  i < length l → alter f i (l ++ l') = alter f i l ++ l'.
Proof.
  revert i. induction l as [|x l IH]; intros [|i] H; simpl in *; try lia; auto.
  f_equal. apply IH. lia.
Qed.

Lemma alter_fixed {A} (f : A → A) (l : list A) i x :
  l !! i = Some x → f x = x → alter f i l = l.
Proof.
  revert i. induction l as [|y l IH]; intros [|i] H Hf; simpl in *; try done.
  - simplify_eq. by rewrite Hf.
  - f_equal. by apply IH.
Qed.

Lemma lookup_at {A} (l : list A) x l' : (l ++ x :: l') !! length l = Some x.
Proof. by rewrite list_lookup_middle. Qed.

Lemma lookup_at_S {A} (l : list A) x y l' :
  (l ++ x :: y :: l') !! S (length l) = Some y.
Proof.
  replace (l ++ x :: y :: l') with ((l ++ [x]) ++ y :: l') by by rewrite <- app_assoc.
  apply list_lookup_middle. rewrite length_app. simpl. lia.
Qed.

Lemma filter_fmap_comm {A B} (f : A → B) (P : B → Prop) `{∀ x, Decision (P x)}
    (l : list A) :
  filter P (f <$> l) = f <$> filter (λ x, P (f x)) l.
Proof.
  induction l as [|a l IH]; [done|].
  rewrite fmap_cons, !filter_cons.
  destruct (decide (P (f a))); [rewrite fmap_cons|]; by rewrite IH.
Qed.

Section Accessors.
Implicit Types (ns : list Node) (f : Node → Node).

Lemma node_parent_app ns l i :
  i < length ns → node_parent (ns ++ l) i = node_parent ns i.
Proof. intros. unfold node_parent. by rewrite lookup_app_l. Qed.

Lemma node_children_app ns l i :
  i < length ns → node_children (ns ++ l) i = node_children ns i.
Proof. intros. unfold node_children. by rewrite lookup_app_l. Qed.

Lemma node_modal_app ns l i :
  i < length ns → node_modal (ns ++ l) i = node_modal ns i.
Proof. intros. unfold node_modal. by rewrite lookup_app_l. Qed.

Lemma node_onclick_app ns l i :
  i < length ns → node_onclick (ns ++ l) i = node_onclick ns i.
Proof. intros. unfold node_onclick. by rewrite lookup_app_l. Qed.

Lemma node_parent_None ns i : length ns ≤ i → node_parent ns i = None.
Proof. intros. unfold node_parent. by rewrite lookup_ge_None_2. Qed.

Lemma node_parent_lt ns i p : node_parent ns i = Some p → i < length ns.
Proof.
  unfold node_parent. intros H. destruct (ns !! i) eqn:E; [|done].
  by apply lookup_lt_Some in E.
Qed.

Lemma node_onclick_lt ns i m : node_onclick ns i = Some m → i < length ns.
Proof.
  unfold node_onclick. intros H. destruct (ns !! i) eqn:E; [|done].
  by apply lookup_lt_Some in E.
Qed.

Lemma node_modal_lt ns i m : node_modal ns i = Some m → i < length ns.
Proof.
  unfold node_modal. intros H. destruct (ns !! i) eqn:E; [|done].
  by apply lookup_lt_Some in E.
Qed.

(** Reading a field of the store after one node was altered. *)
Lemma field_alter {X} (g : Node → X) f i ns j :
  (alter f i ns !! j) ≫= (λ n, Some (g n))
  = if decide (i = j) then (ns !! j) ≫= (λ n, Some (g (f n)))
    else (ns !! j) ≫= (λ n, Some (g n)).
Proof.
  case_decide as E.
  - subst. rewrite list_lookup_alter_eq. by destruct (ns !! j).
  - by rewrite list_lookup_alter_ne.
Qed.

Lemma node_parent_alter f i ns j :
  (∀ n, parentNode (f n) = parentNode n) →
  node_parent (alter f i ns) j = node_parent ns j.
Proof.
  intros Hf. unfold node_parent. destruct (decide (i = j)) as [->|].
  - rewrite list_lookup_alter_eq. destruct (ns !! j); simpl; auto.
  - by rewrite list_lookup_alter_ne.
Qed.

Lemma node_children_alter f i ns j :
  (∀ n, children (f n) = children n) →
  node_children (alter f i ns) j = node_children ns j.
Proof.
  intros Hf. unfold node_children. destruct (decide (i = j)) as [->|].
  - rewrite list_lookup_alter_eq. destruct (ns !! j); simpl; auto.
  - by rewrite list_lookup_alter_ne.
Qed.

Lemma node_modal_alter f i ns j :
  (∀ n, modal (f n) = modal n) →
  node_modal (alter f i ns) j = node_modal ns j.
Proof.
  intros Hf. unfold node_modal. destruct (decide (i = j)) as [->|].
  - rewrite list_lookup_alter_eq. destruct (ns !! j); simpl; auto.
  - by rewrite list_lookup_alter_ne.
Qed.

Lemma node_onclick_alter f i ns j :
  (∀ n, onclick (f n) = onclick n) →
  node_onclick (alter f i ns) j = node_onclick ns j.
Proof.
  intros Hf. unfold node_onclick. destruct (decide (i = j)) as [->|].
  - rewrite list_lookup_alter_eq. destruct (ns !! j); simpl; auto.
  - by rewrite list_lookup_alter_ne.
Qed.

Lemma node_parent_alter_ne f i ns j :
  i ≠ j → node_parent (alter f i ns) j = node_parent ns j.
Proof. intros. unfold node_parent. by rewrite list_lookup_alter_ne. Qed.

Lemma node_children_alter_ne f i ns j :
  i ≠ j → node_children (alter f i ns) j = node_children ns j.
Proof. intros. unfold node_children. by rewrite list_lookup_alter_ne. Qed.

Lemma node_children_alter_eq g i ns :
  i < length ns →
  node_children (alter (set_children g) i ns) i = g (node_children ns i).
Proof.
  intros Hi. unfold node_children. rewrite list_lookup_alter_eq.
  destruct (lookup_lt_is_Some_2 ns i Hi) as [n ->]. done.
Qed.

Lemma node_parent_set i ns p :
  i < length ns → node_parent (alter (set_parentNode p) i ns) i = p.
Proof.
  intros Hi. unfold node_parent. rewrite list_lookup_alter_eq.
  destruct (lookup_lt_is_Some_2 ns i Hi) as [n ->]. done.
Qed.

Lemma same_tree_refl ns : same_tree ns ns.
Proof. by split. Qed.


Lemma same_tree_alter f i ns : cosmetic f → same_tree ns (alter f i ns).
Proof.
  intros Hf. split; [by rewrite length_alter|]. intros j.
  rewrite node_parent_alter, node_children_alter, node_modal_alter,
    node_onclick_alter; [done|..]; intros n; by destruct (Hf n) as (?&?&?&?).
Qed.

Lemma cosmetic_attributes g : cosmetic (set_attributes g).
Proof. by intros n. Qed.
Lemma cosmetic_properties g : cosmetic (set_properties g).
Proof. by intros n. Qed.
Lemma cosmetic_style g : cosmetic (set_style g).
Proof. by intros n. Qed.

End Accessors.

Create HintDb modal.
#[global] Hint Resolve cosmetic_attributes cosmetic_properties cosmetic_style
  same_tree_refl same_tree_alter : modal.

(** ** The invariant is preserved *)

Lemma modal_ok_same_tree ns ns' e m obj :
  same_tree ns ns' → modal_ok ns e m obj → modal_ok ns' e m obj.
Proof.
  intros [L H] (?&?&?&?&?&?&?&?).
  pose proof (H (cover obj)) as (?&?&?&?).
  pose proof (H (content obj)) as (?&?&?&?).
  repeat split; try congruence; try lia.
Qed.

Lemma attached_same_tree ns ns' e (mh : list Modal) :
  same_tree ns ns' → filter (attached ns' e) mh = filter (attached ns e) mh.
Proof.
  intros [L H]. apply list_filter_iff. intros obj. unfold attached.
  by destruct (H (cover obj)) as (->&_).
Qed.

Lemma wf_parts_same_tree ns ns' w rh mh :
  same_tree ns ns' → wf_parts ns w rh mh → wf_parts ns' w rh mh.
Proof.
  intros Hs (Hlen & Hbody & Htree & Hclick & Hreg).
  pose proof Hs as [L H].
  split; [lia|]. split; [by destruct (H document_body) as (->&_)|].
  split; [intros i p; destruct (H i) as (->&_); apply Htree|].
  split; [intros i m; destruct (H i) as (_&_&_&->); apply Hclick|].
  destruct w as [r|]; [|done].
  destruct Hreg as (-> & e & -> & He0 & Hel & Hfirst & Hpar & Hmod & Hkids).
  split; [done|]. exists e. split; [done|].
  split; [done|]. split; [lia|].
  split; [unfold firstChild in *; by destruct (H document_body) as (_&->&_)|].
  split; [by destruct (H e) as (->&_)|].
  split; [intros m obj Hm; eapply modal_ok_same_tree; eauto|].
  rewrite (attached_same_tree ns ns') by done.
  by destruct (H e) as (_&->&_).
Qed.

Lemma wf_cosmetic f i s :
  cosmetic f → wf s → wf (upd_dom (alter f i) s).
Proof.
  intros Hf. apply wf_parts_same_tree. by apply same_tree_alter.
Qed.

Lemma filter_ext_in {A} (P Q : A → Prop) `{∀ x, Decision (P x)}
    `{∀ x, Decision (Q x)} (l : list A) :
  (∀ x, x ∈ l → (P x ↔ Q x)) → filter P l = filter Q l.
Proof.
  induction l as [|a l IH]; intros HPQ; [done|].
  rewrite !filter_cons.
  assert (P a ↔ Q a) by (apply HPQ; left).
  rewrite IH by (intros; apply HPQ; by right).
  destruct (decide (P a)), (decide (Q a)); tauto.
Qed.

Lemma lookup_tail3 {A} (l : list A) x y l' i :
  (l ++ x :: y :: l') !! i =
    if decide (i < length l) then l !! i
    else if decide (i = length l) then Some x
    else if decide (i = S (length l)) then Some y
    else l' !! (i - S (S (length l))).
Proof.
  repeat case_decide; subst.
  - by apply lookup_app_l.
  - apply lookup_at.
  - apply lookup_at_S.
  - rewrite lookup_app_r by lia.
    destruct (i - length l) as [|[|k]] eqn:E; try lia. simpl.
    f_equal. lia.
Qed.

(** A new modal: its cover [cov], its content [con] and the nodes [sub]
    below the content are the last nodes of the store; the cover is either
    still detached or the last child of the container. *)
Lemma wf_parts_add_modal ns e mh cov con sub a (att : bool) :
  wf_parts ns (Some 0) [mkModalRegion e] mh →
  modal cov = Some (length mh) →
  (onclick cov = None ∨ onclick cov = Some (length mh)) →
  parentNode cov = (if att then Some e else None) →
  modal con = None → onclick con = None →
  (parentNode con = None ∨ parentNode con = Some (length ns)) →
  sub_ok (length ns) sub →
  wf_parts
    ((if att then alter (set_children (λ ks, ks ++ [length ns])) e ns else ns)
       ++ cov :: con :: sub)
    (Some 0) [mkModalRegion e]
    (mh ++ [mkModal 0 (length ns) (S (length ns)) a]).
Proof.
  intros (Hlen & Hbody & Htree & Hclick & _ & e' & [= <-] &
          He0 & Hel & Hfirst & Hpar & Hmod & Hkids)
         Hcm Hco Hcp Hnm Hno Hnp Hsub.
  unfold document_body in *.
  set (N := length ns) in *.
  set (ns' := if att then alter (set_children (λ ks, ks ++ [N])) e ns else ns).
  assert (HN : length ns' = N) by (unfold ns'; destruct att; by rewrite ?length_alter).
  set (D := ns' ++ cov :: con :: sub).
  assert (F1 : ∀ i, i < N → node_parent D i = node_parent ns i
                     ∧ node_modal D i = node_modal ns i
                     ∧ node_onclick D i = node_onclick ns i).
  { intros i Hi. unfold D.
    rewrite node_parent_app, node_modal_app, node_onclick_app by lia.
    unfold ns'. destruct att; [|done].
    by rewrite node_parent_alter, node_modal_alter, node_onclick_alter. }
  assert (F2 : ∀ i, i < N → i ≠ e → node_children D i = node_children ns i).
  { intros i Hi Hie. unfold D. rewrite node_children_app by lia.
    unfold ns'. destruct att; [|done]. by rewrite node_children_alter_ne. }
  assert (F3 : node_children D e
               = if att then node_children ns e ++ [N] else node_children ns e).
  { unfold D. rewrite node_children_app by lia.
    unfold ns'. destruct att; [|done]. by rewrite node_children_alter_eq. }
  assert (F4 : ∀ i, D !! i =
     if decide (i < N) then ns' !! i
     else if decide (i = N) then Some cov
     else if decide (i = S N) then Some con
     else sub !! (i - S (S N))).
  { intros i. unfold D. rewrite lookup_tail3, HN. done. }
  assert (HD : length D = S (S N) + length sub).
  { unfold D. rewrite length_app, HN. simpl. lia. }
  assert (Hold : ∀ m obj, mh !! m = Some obj →
                 cover obj < N ∧ content obj < N).
  { intros m obj Hm. destruct (Hmod m obj Hm) as (?&?&?&?&_). lia. }
  unfold wf_parts, region_ok, document_body.
  split; [lia|]. split; [by destruct (F1 0 Hlen) as (->&_)|].
  split.
  { intros i p. destruct (decide (i < N)) as [Hi|Hi].
    { destruct (F1 i Hi) as (->&_). apply Htree. }
    unfold node_parent. rewrite F4. repeat case_decide; try lia; simpl.
    - rewrite Hcp. destruct att; [|done]. intros [= <-]. lia.
    - destruct Hnp as [->| ->]; [done|]. intros [= <-]. lia.
    - destruct (sub !! (i - S (S N))) as [nd|] eqn:E; [|done]. simpl.
      destruct (Hsub _ _ E) as (_&_&q&->&?&?). intros [= <-]. lia. }
  split.
  { intros i m. destruct (decide (i < N)) as [Hi|Hi].
    { destruct (F1 i Hi) as (_&_&->). intros H.
      destruct (Hclick i m H) as (obj & Hobj & ?).
      exists obj. split; [|done]. by apply lookup_app_l_Some. }
    unfold node_onclick. rewrite F4. repeat case_decide; try lia; simpl.
    - destruct Hco as [->| ->]; [done|]. intros [= <-].
      eexists. split; [apply lookup_at|]. simpl. lia.
    - by rewrite Hno.
    - destruct (sub !! (i - S (S N))) as [nd|] eqn:E; [|done]. simpl.
      by destruct (Hsub _ _ E) as (_&->&_). }
  split; [done|]. exists e. split; [done|].
  split; [done|]. split; [lia|].
  split; [unfold firstChild; rewrite F2 by lia; done|].
  split; [by destruct (F1 e Hel) as (->&_)|].
  split.
  { intros m obj Hm. unfold modal_ok.
    apply lookup_app_Some in Hm as [Hm|[Hge Hm]].
    - destruct (Hold m obj Hm) as [Hc1 Hc2].
      destruct (Hmod m obj Hm) as (?&?&?&?&?&?&?&?).
      destruct (F1 _ Hc1) as (->&->&_), (F1 _ Hc2) as (->&->&_).
      repeat split; try done; lia.
    - destruct (m - length mh) as [|k] eqn:E; [|by destruct k].
      simpl in Hm. injection Hm as <-. simpl.
      assert (m = length mh) as -> by lia.
      unfold node_modal, node_parent. rewrite !F4.
      repeat case_decide; try lia; simpl.
      repeat split; try done; try lia.
      rewrite Hcp. destruct att; auto. }
  rewrite filter_app, fmap_app, F3.
  rewrite (filter_ext_in (attached D e) (attached ns e) mh).
  2:{ intros obj Hin. apply list_elem_of_lookup in Hin as [m Hm].
      destruct (Hold m obj Hm) as [Hc1 _]. unfold attached.
      by destruct (F1 _ Hc1) as (->&_). }
  rewrite <- Hkids.
  rewrite filter_cons, filter_nil.
  case_decide as Ha; unfold attached, node_parent in Ha; simpl in Ha;
    rewrite (F4 N) in Ha; repeat case_decide; try lia; simpl in Ha;
    rewrite Hcp in Ha; destruct att; simplify_eq; simpl;
    by rewrite ?app_nil_r.
Qed.

Lemma detach_parentless c ns : node_parent ns c = None → detach c ns = ns.
Proof. intros H. unfold detach. by rewrite H. Qed.

(** Removing the cover of a modal. *)
Lemma wf_detach_cover s m obj :
  wf s → modal_heap s !! m = Some obj → wf (upd_dom (detach (cover obj)) s).
Proof.
  unfold wf. destruct s as [ns w rh mh ph tm mt nw tr]. simpl.
  intros Hwf Hm. pose proof Hwf as (Hlen & Hbody & Htree & Hclick & Hreg).
  destruct w as [r|]; [|destruct Hreg as [_ ->]; done].
  destruct Hreg as (-> & e & -> & He0 & Hel & Hfirst & Hpar & Hmod & Hkids).
  destruct (Hmod m obj Hm) as (_ & Hec & Hcc & Hcl & Hcm & _ & [Hp|Hp] & _).
  { by rewrite detach_parentless. }
  set (c := cover obj) in *.
  unfold detach. rewrite Hp.
  set (D := alter _ c _).
  assert (Hc : c < length ns) by lia.
  assert (G1 : ∀ i, node_modal D i = node_modal ns i
                  ∧ node_onclick D i = node_onclick ns i).
  { intros i. unfold D.
    by rewrite !node_modal_alter, !node_onclick_alter. }
  assert (G2 : ∀ i, i ≠ c → node_parent D i = node_parent ns i).
  { intros i Hi. unfold D.
    rewrite node_parent_alter_ne by done. by rewrite node_parent_alter. }
  assert (G3 : node_parent D c = None).
  { unfold D. rewrite node_parent_set; [done|]. by rewrite length_alter. }
  assert (G4 : ∀ i, i ≠ e → node_children D i = node_children ns i).
  { intros i Hi. unfold D.
    rewrite node_children_alter by done. by rewrite node_children_alter_ne. }
  assert (G5 : node_children D e = filter (λ k, k ≠ c) (node_children ns e)).
  { unfold D. rewrite node_children_alter by done.
    by rewrite node_children_alter_eq. }
  assert (HD : length D = length ns) by (unfold D; by rewrite !length_alter).
  unfold wf_parts, region_ok, document_body in *.
  split; [lia|]. split; [rewrite G2 by lia; done|].
  split.
  { intros i p. destruct (decide (i = c)) as [->|Hi]; [by rewrite G3|].
    rewrite G2 by done. apply Htree. }
  split; [intros i k; destruct (G1 i) as [_ ->]; apply Hclick|].
  split; [done|]. exists e. split; [done|].
  split; [done|]. split; [lia|].
  split; [unfold firstChild in *; rewrite G4 by lia; done|].
  split; [rewrite G2 by lia; done|].
  split.
  { intros k obj' Hk. destruct (Hmod k obj' Hk) as (?&?&?&?&Hkm&Hkn&Hkp&Hkq).
    assert (content obj' ≠ c) by (intros E; rewrite E in Hkn; congruence).
    unfold modal_ok.
    destruct (G1 (cover obj')) as [-> _], (G1 (content obj')) as [-> _].
    rewrite (G2 (content obj')) by done.
    repeat split; try done; try lia.
    destruct (decide (cover obj' = c)) as [->|]; [by left|].
    by rewrite G2. }
  rewrite G5, Hkids, filter_fmap_comm, list_filter_filter.
  f_equal. apply list_filter_iff. intros x. unfold attached.
  destruct (decide (cover x = c)) as [->|Hx].
  - rewrite G3. split; [tauto|done].
  - rewrite G2 by done. tauto.
Qed.

(** The state after the first region has been created. *)
Lemma wf_parts_new_region ns rn :
  wf_parts ns None [] [] →
  parentNode rn = Some document_body → onclick rn = None → children rn = [] →
  wf_parts (alter (set_children (cons (length ns))) document_body ns ++ [rn])
    (Some 0) [mkModalRegion (length ns)] [].
Proof.
  intros (Hlen & Hbody & Htree & Hclick & _) Hp Ho Hc.
  unfold document_body in *.
  set (N := length ns).
  set (D := _ ++ [rn]).
  assert (HD : length D = S N) by (unfold D; rewrite length_app, length_alter; simpl; lia).
  assert (F1 : ∀ i, i < N → node_parent D i = node_parent ns i
                     ∧ node_onclick D i = node_onclick ns i).
  { intros i Hi. unfold D.
    rewrite node_parent_app, node_onclick_app by (rewrite length_alter; lia).
    by rewrite node_parent_alter, node_onclick_alter. }
  assert (F2 : D !! N = Some rn).
  { unfold D. rewrite lookup_app_r by (rewrite length_alter; lia).
    rewrite length_alter. by replace (N - length ns) with 0 by lia. }
  unfold wf_parts, region_ok, document_body.
  split; [lia|]. split; [by destruct (F1 0 Hlen) as [-> _]|].
  split.
  { intros i p. destruct (decide (i < N)) as [Hi|Hi].
    { destruct (F1 i Hi) as [-> _]. apply Htree. }
    destruct (decide (i = N)) as [->|].
    - unfold node_parent. rewrite F2. simpl. rewrite Hp. intros [= <-]. lia.
    - rewrite node_parent_None by lia. done. }
  split.
  { intros i m. destruct (decide (i < N)) as [Hi|Hi].
    { destruct (F1 i Hi) as [_ ->]. intros H.
      destruct (Hclick i m H) as (obj & Hobj & _). done. }
    destruct (decide (i = N)) as [->|].
    - unfold node_onclick. rewrite F2. simpl. by rewrite Ho.
    - intros H%node_onclick_lt. lia. }
  split; [done|]. exists N. split; [done|].
  split; [lia|]. split; [lia|].
  split.
  { unfold firstChild, D. rewrite node_children_app by (rewrite length_alter; lia).
    by rewrite node_children_alter_eq. }
  split; [unfold node_parent; rewrite F2; simpl; done|].
  split; [intros m obj Hm; done|].
  unfold node_children. rewrite F2. simpl. by rewrite Hc.
Qed.

(** ** Acquiring the region *)

Ltac mrun :=
  cbv [mbind M_bind mret M_ret modify gets when forM throw makeElement
       createElement setAttribute setProperty setStyle setModal setOnclick
       appendChild remove setTimeout new_promise Promise_resolve
       createContent setText setInnerHTML building
       fst snd dom window_modalRegion region_heap modal_heap promise_heap
       timers microtasks now trace upd_dom set_window_modalRegion
       upd_region_heap upd_modal_heap upd_promise_heap upd_timers
       upd_microtasks set_now emit].

Lemma acquire_region_spec s :
  wf s →
  ∃ s1 e evs,
    acquire_region s = (s1, Ok 0) ∧ wf s1 ∧
    window_modalRegion s1 = Some 0 ∧ region_heap s1 = [mkModalRegion e] ∧
    modal_heap s1 = modal_heap s ∧ promise_heap s1 = promise_heap s ∧
    timers s1 = timers s ∧ microtasks s1 = microtasks s ∧ now s1 = now s ∧
    trace s1 = trace s ++ evs ∧
    ((window_modalRegion s = Some 0 ∧ s1 = s ∧ evs = [])
     ∨ (window_modalRegion s = None ∧ e = length (dom s) ∧
        dom s1 = alter (set_children (cons e)) document_body (dom s)
                   ++ [region_node] ∧
        ∃ ev, evs = [EvCreateElement "div" e;
                     EvSetAttribute e "data-modal-region" ""; ev] ∧
              (ev = EvAppendChild document_body e
               ∨ ∃ r, ev = EvInsertBefore document_body e (Some r)))).
Proof.
  intros Hwf. destruct s as [ns w rh mh ph tm mt nw tr].
  unfold acquire_region. mrun.
  destruct w as [r|].
  { pose proof Hwf as (_&_&_&_& -> & e & He & _). simpl in He.
    exists (mkState ns (Some 0) rh mh ph tm mt nw tr), e, [].
    rewrite app_nil_r. simpl. split_and!; auto. }
  pose proof Hwf as (Hlen & Hbody & _ & _ & Hrh & Hmh). simpl in *. subst.
  assert (HD : wf_parts (alter (set_children (cons (length ns))) document_body ns
                          ++ [region_node])
                 (Some 0) [mkModalRegion (length ns)] []).
  { by apply wf_parts_new_region. }
  unfold ModalRegion_new. mrun. unfold insertBefore, document_body in *.
  rewrite alter_at. unfold firstChild. rewrite !node_children_app by done.
  destruct (lookup_lt_is_Some_2 ns 0 Hlen) as [b Hb].
  assert (Hkids : node_children ns 0 = children b)
    by (unfold node_children; by rewrite Hb).
  rewrite Hkids.
  destruct (children b) as [|r ks] eqn:Hks; cbn [head]; mrun;
    rewrite ?node_children_app, ?Hkids, ?decide_True by (done || left);
    unfold attach_last;
    rewrite detach_parentless by (unfold node_parent; by rewrite lookup_at);
    rewrite alter_at, alter_below by done;
    rewrite (list_alter_ext _ (set_children (cons (length ns))) ns ns 0);
    [| intros x Hx; simplify_eq; unfold set_children; rewrite Hks; simpl;
       by rewrite ?decide_True | done
     | | intros x Hx; simplify_eq; unfold set_children; rewrite Hks; simpl;
       by rewrite ?decide_True | done ];
    (eexists _, (length ns), _; split; [reflexivity|]; unfold wf;
     cbn [dom window_modalRegion region_heap modal_heap promise_heap timers
          microtasks now trace length app];
     rewrite <- !app_assoc; simpl;
     split_and!; try done; right; split_and!; try done;
     eexists; split; [done|]).
  - by left.
  - right. by eexists.
Qed.

(** ** Constructing a modal *)

Lemma bind_ok {A B} (m : M A) (f : A → M B) s s1 a :
  m s = (s1, Ok a) → (m ≫= f) s = f a s1.
Proof. intros H. unfold mbind, M_bind. by rewrite H. Qed.

Lemma Modal_new_acquire parse cls options s s1 :
  acquire_region s = (s1, Ok 0) →
  window_modalRegion s1 = Some 0 →
  modal_heap s1 = modal_heap s →
  Modal_new parse cls options s = Modal_new parse cls options s1.
Proof.
  intros Ha Hw Hm. unfold Modal_new.
  cbv [mbind M_bind gets]. rewrite Ha, Hm.
  unfold acquire_region at 1. cbv [mbind M_bind gets mret M_ret]. by rewrite Hw.
Qed.

Ltac state_eq :=
  f_equal; f_equal;
  repeat (first [rewrite <- app_assoc | progress cbn [app]]);
  rewrite ?app_nil_r; try reflexivity.

Lemma alter_at_SS {A} (f : A → A) (l : list A) x y l' j :
  alter f (S (S (length l)) + j) (l ++ x :: y :: l') = l ++ x :: y :: alter f j l'.
Proof. induction l; simpl; f_equal; auto. Qed.

Lemma clear_children_leaf e ns :
  node_children ns e = [] →
  clear_children e ns = alter (set_children (λ _, [])) e ns.
Proof. intros H. unfold clear_children. by rewrite H. Qed.

Lemma sub_ok_nil n : sub_ok n [].
Proof. intros k nd H. done. Qed.

Lemma sub_ok_snoc n sub nd p :
  sub_ok n sub → modal nd = None → onclick nd = None →
  parentNode nd = Some p → S n ≤ p → p < S (S n) + length sub →
  sub_ok n (sub ++ [nd]).
Proof.
  intros Hsub Hm Ho Hp H1 H2 k x Hk.
  apply lookup_app_Some in Hk as [Hk|[Hge Hk]]; [by apply Hsub|].
  destruct (k - length sub) as [|k'] eqn:E; [|by destruct k'].
  simpl in Hk. injection Hk as <-. split_and!; try done.
  exists p. split_and!; try done. lia.
Qed.

Lemma sub_ok_alter n sub f j :
  sub_ok n sub →
  (∀ x, modal (f x) = modal x ∧ onclick (f x) = onclick x
        ∧ parentNode (f x) = parentNode x) →
  sub_ok n (alter f j sub).
Proof.
  intros Hsub Hf k x Hk.
  destruct (decide (j = k)) as [->|Hne].
  - rewrite list_lookup_alter_eq in Hk.
    destruct (sub !! k) as [y|] eqn:E; [|done]. simpl in Hk.
    injection Hk as <-. destruct (Hf y) as (->&->&->). by apply Hsub.
  - rewrite list_lookup_alter_ne in Hk by done. by apply Hsub.
Qed.

Lemma same_but_children_refl n : same_but_children n n.
Proof. by repeat split. Qed.

Lemma same_but_children_set g n n' :
  same_but_children n n' → same_but_children n (set_children g n').
Proof. intros (?&?&?&?&?&?&?). by repeat split. Qed.

Section Building.
Variables (ns : list Node) (w : option nat) (rh : list ModalRegion)
  (mh : list Modal) (ph : list Promise) (tm : list (Z * TimerCallback))
  (mt : list (Reaction * nat)) (nw : Z) (tr : list Event).
Abbreviation s1 := (mkState ns w rh mh ph tm mt nw tr).
Abbreviation N := (length ns).
Implicit Types (cov con : Node) (sub : list Node).

Lemma building_cover f ev cov con sub a ps ts evs :
  modify (λ s, emit ev (upd_dom (alter f N) s))
    (building s1 cov con sub a ps ts evs)
  = (building s1 (f cov) con sub a ps ts (evs ++ [ev]), Ok tt).
Proof. mrun. rewrite alter_at. state_eq. Qed.

Lemma building_content f ev cov con sub a ps ts evs :
  modify (λ s, emit ev (upd_dom (alter f (S N)) s))
    (building s1 cov con sub a ps ts evs)
  = (building s1 cov (f con) sub a ps ts (evs ++ [ev]), Ok tt).
Proof. mrun. rewrite alter_at_S. state_eq. Qed.

Lemma graft_building frag cov : ∀ con sub,
  sub_ok N sub →
  ∃ con' sub',
    graft (S N) (S (S N)) frag (ns ++ cov :: con :: sub)
      = ns ++ cov :: con' :: sub'
    ∧ same_but_children con con' ∧ sub_ok N sub'
    ∧ (frag = [] → con' = con ∧ sub' = sub).
Proof.
  induction frag as [|[tag up] rest IH]; intros con sub Hsub.
  { exists con, sub. split_and!; auto using same_but_children_refl. }
  cbn [graft].
  assert (Hlen : length (ns ++ cov :: con :: sub) = S (S N) + length sub).
  { rewrite length_app. simpl. lia. }
  rewrite Hlen.
  set (p := match up with
            | Some j => if decide (S (S N) + j < S (S N) + length sub)
                        then S (S N) + j else S N
            | None => S N
            end).
  set (nd := set_parentNode (Some p) (blank tag)).
  assert (Hcases : (p = S N) ∨ (∃ j, p = S (S N) + j ∧ j < length sub)).
  { unfold p. destruct up as [j|]; [|by left].
    case_decide; [right; exists j; split; [done|lia]|by left]. }
  replace ((ns ++ cov :: con :: sub) ++ [nd])
    with (ns ++ cov :: con :: (sub ++ [nd])) by by rewrite <- app_assoc.
  destruct Hcases as [Hp|(j & Hp & Hj)].
  - rewrite Hp, alter_at_S.
    destruct (IH (set_children (λ ks, ks ++ [S (S N) + length sub]) con)
                 (sub ++ [nd])) as (con' & sub' & -> & Hc & Hs & _).
    { eapply sub_ok_snoc; eauto; simpl; lia. }
    exists con', sub'. split_and!; try done.
  - rewrite Hp, alter_at_SS, alter_below by done.
    destruct (IH con (alter (set_children (λ ks, ks ++ [S (S N) + length sub])) j sub
                        ++ [nd])) as (con' & sub' & -> & Hc & Hs & _).
    { eapply sub_ok_snoc; eauto; simpl; rewrite ?length_alter; try lia.
      by apply sub_ok_alter. }
    exists con', sub'. by split_and!.
Qed.

Lemma building_setText name v cov con a ps ts evs :
  children con = [] →
  setText (S N) name v (building s1 cov con [] a ps ts evs)
  = (building s1 cov
       (set_children (λ _, []) (set_properties (insert name v) con)) []
       a ps ts (evs ++ [EvSetProperty (S N) name v]), Ok tt).
Proof.
  intros Hc. mrun. rewrite alter_at_S. unfold replace_children.
  rewrite clear_children_leaf
    by (unfold node_children; by rewrite lookup_at_S).
  rewrite alter_at_S. cbn [graft]. state_eq.
Qed.

Lemma building_setInnerHTML (parse : string → Fragment) html cov con a ps ts evs :
  children con = [] →
  ∃ con' sub',
    setInnerHTML parse (S N) html (building s1 cov con [] a ps ts evs)
    = (building s1 cov con' sub' a ps ts
         (evs ++ [EvSetProperty (S N) "innerHTML" html]), Ok tt)
    ∧ same_but_children (set_properties (insert "innerHTML" html) con) con'
    ∧ sub_ok N sub'.
Proof.
  intros Hc. mrun. rewrite alter_at_S. unfold replace_children.
  rewrite clear_children_leaf
    by (unfold node_children; by rewrite lookup_at_S).
  rewrite alter_at_S.
  assert (Hlen : ∀ x y, length (ns ++ [x; y]) = S (S N)).
  { intros. rewrite length_app. simpl. lia. }
  rewrite Hlen.
  destruct (graft_building (parse html) cov
              (set_children (λ _, []) (set_properties (insert "innerHTML" html) con))
              [] (sub_ok_nil _)) as (con' & sub' & -> & Hs & Hsub & _).
  exists con', sub'. split_and!; try done. state_eq.
Qed.

Lemma building_appendChild_content cov con sub a ps ts evs :
  parentNode con = None →
  appendChild N (S N) (building s1 cov con sub a ps ts evs)
  = (building s1 (set_children (λ ks, ks ++ [S N]) cov)
       (set_parentNode (Some N) con) sub a ps ts
       (evs ++ [EvAppendChild N (S N)]), Ok tt).
Proof.
  intros Hp. mrun. unfold attach_last.
  rewrite detach_parentless
    by (unfold node_parent; rewrite lookup_at_S; simpl; done).
  rewrite alter_at_S, alter_at. state_eq.
Qed.

Lemma building_animationTime t cov con sub a ps ts evs :
  modify (upd_modal_heap (alter (set_animationTime t) (length mh)))
    (building s1 cov con sub a ps ts evs)
  = (building s1 cov con sub t ps ts evs, Ok tt).
Proof. mrun. rewrite alter_at. state_eq. Qed.

Lemma building_deref_modal cov con sub a ps ts evs :
  deref modal_heap (length mh) (building s1 cov con sub a ps ts evs)
  = (building s1 cov con sub a ps ts evs,
     Ok (mkModal 0 N (S N) a)).
Proof. unfold deref. cbn [modal_heap building]. by rewrite lookup_at. Qed.

Lemma building_text o cov con a ps ts evs :
  children con = [] →
  match opt_textContent o with
  | Some text =>
      setText (S N) "innerText" text;;
      setText (S N) "textContent" text
  | None => mret tt
  end (building s1 cov con [] a ps ts evs)
  = (building s1 cov (text_content o con) [] a ps ts
       (evs ++ text_events o N), Ok tt).
Proof.
  intros Hc. unfold text_content, text_events.
  destruct (opt_textContent o) as [t|].
  - rewrite (bind_ok _ _ _ _ _ (building_setText _ _ _ _ _ _ _ _ Hc)).
    rewrite building_setText by done. state_eq.
  - mrun. state_eq.
Qed.

Lemma building_html (parse : string → Fragment) o cov con a ps ts evs :
  children con = [] →
  ∃ con' sub',
    match opt_innerHTML o with
    | Some html => when (bool_decide (html ≠ "")) (setInnerHTML parse (S N) html)
    | None => mret tt
    end (building s1 cov con [] a ps ts evs)
    = (building s1 cov con' sub' a ps ts (evs ++ html_events o N), Ok tt)
    ∧ match has_markup o with
      | Some h =>
          same_but_children (set_properties (insert "innerHTML" h) con) con'
      | None => con' = con ∧ sub' = []
      end
    ∧ sub_ok N sub'.
Proof.
  intros Hc. unfold html_events, has_markup.
  destruct (opt_innerHTML o) as [h|]; [case_bool_decide|].
  - destruct (building_setInnerHTML parse h cov con a ps ts evs Hc)
      as (con' & sub' & Heq & Hs & Hsub).
    exists con', sub'. by split_and!.
  - exists con, []. split_and!; auto using sub_ok_nil. mrun. state_eq.
  - exists con, []. split_and!; auto using sub_ok_nil. mrun. state_eq.
Qed.

Lemma building_onclick o cov con sub a ps ts evs :
  when (default true (opt_closeOnCoverClick o))
    (setOnclick N (length mh))
    (building s1 cov con sub a ps ts evs)
  = (building s1
       (if closes_on_click o
        then set_onclick (Some (length mh)) cov else cov)
       con sub a ps ts
       (evs ++ onclick_events o (length mh) N), Ok tt).
Proof.
  unfold onclick_events, closes_on_click.
  destruct (default true (opt_closeOnCoverClick o)).
  - apply building_cover.
  - mrun. state_eq.
Qed.

Lemma building_appear cov con sub a evs :
  appear (length mh) (building s1 cov con sub a [] [] evs)
  = (building s1 (appear_cover a cov) con sub a
       [mkPromise (negb (animated a)) []]
       (appear_timers a nw (length mh)
          (length ph))
       (evs ++ appear_events a (length mh) N
                 (length ph)),
     Ok (length ph)).
Proof.
  unfold appear, appear_cover, appear_events, appear_timers, transition_of.
  rewrite (bind_ok _ _ _
    (building s1 cov con sub a [] []
       (evs ++ [EvCall MAppear (length mh)])) tt)
    by (mrun; state_eq).
  rewrite (bind_ok _ _ _ _ _ (building_deref_modal _ _ _ _ _ _ _)).
  cbn [animationTime cover].
  destruct a as [t|]; cbn [animated];
    [change (default 0%Z (Some t)) with t;
     generalize (Number_toString t); intros pt; destruct (0 <? t)%Z|]; mrun;
    rewrite ?alter_at, ?app_nil_r; state_eq.
Qed.

Lemma building_attach e cov con sub a ps ts evs :
  e < N → parentNode cov = None →
  appendChild e N (building s1 cov con sub a ps ts evs)
  = (mkState
       (alter (set_children (λ ks, ks ++ [N])) e ns
          ++ set_parentNode (Some e) cov :: con :: sub)
       w rh
       (mh ++ [mkModal 0 N (S N) a])
       (ph ++ ps) (tm ++ ts) mt nw
       (tr ++ evs ++ [EvAppendChild e N]), Ok tt).
Proof.
  intros He Hp. mrun. unfold attach_last.
  rewrite detach_parentless
    by (unfold node_parent; rewrite lookup_at; simpl; done).
  rewrite alter_at, alter_below by done. state_eq.
Qed.

End Building.

Section Constructor.
Variable parse : string → Fragment.
Variables (cls : ModalClass) (options : option ModalOptions).
Variables (ns : list Node) (rh : list ModalRegion)
  (mh : list Modal) (ph : list Promise) (tm : list (Z * TimerCallback))
  (mt : list (Reaction * nat)) (nw : Z) (tr : list Event).
Abbreviation s1 := (mkState ns (Some 0) rh mh ph tm mt nw tr).
Hypothesis Hwf : wf s1.
Abbreviation o := (default no_options options).
Abbreviation this := (length mh).
Abbreviation N := (length ns).

Lemma fields_cover :
  makeElement "div" [("class", "modal-cover")] [λ e, setModal e this] s1
  = (mkState (ns ++ [cover0 this]) (Some 0)
       rh mh ph (tm)
       mt nw
       (tr ++ [EvCreateElement "div" N;
                     EvSetAttribute N "class" "modal-cover";
                     EvSetModal N this]), Ok N).
Proof. mrun. rewrite !alter_at. state_eq. Qed.

Lemma fields_content :
  createContent cls
    (mkState (ns ++ [cover0 this]) (Some 0)
       rh mh ph (tm)
       mt nw
       (tr ++ [EvCreateElement "div" N;
                     EvSetAttribute N "class" "modal-cover";
                     EvSetModal N this]))
  = (mkState (ns ++ [cover0 this; content0 cls]) (Some 0)
       rh mh ph (tm)
       mt nw
       (tr ++ field_events cls this N), Ok (S N)).
Proof.
  assert (Hl : ∀ x, length (ns ++ [x]) = S N)
    by (intros; rewrite length_app; simpl; lia).
  destruct cls; mrun; rewrite Hl, <- app_assoc; cbn [app];
    rewrite alter_at_S; state_eq.
Qed.

Lemma acquire_published : acquire_region s1 = (s1, Ok 0).
Proof.
  reflexivity.
Qed.

Lemma published_region :
  ∃ e, rh = [mkModalRegion e] ∧ region_ok ns e mh.
Proof.
  destruct Hwf as (_&_&_&_&_ & e & ? & ?). by exists e.
Qed.

Lemma Modal_new_throws :
  conflicting o →
  Modal_new parse cls options s1
  = (building s1 (cover0 this) (content0 cls) [] None [] []
       (field_events cls this N), Throw configuration_error).
Proof.
  intros Hc. unfold Modal_new.
  rewrite (bind_ok _ _ s1 s1 this) by reflexivity.
  rewrite (bind_ok _ _ _ _ _ acquire_published).
  rewrite (bind_ok _ _ _ _ _ fields_cover).
  rewrite (bind_ok _ _ _ _ _ fields_content).
  rewrite (bind_ok _ _ _
    (building s1 (cover0 this) (content0 cls) [] None [] []
       (field_events cls this N)) tt) by (mrun; state_eq).
  rewrite (bool_decide_eq_true_2 (conflicting o)) by exact Hc. reflexivity.
Qed.

Lemma Modal_new_returns :
  ¬ conflicting o →
  ∃ e con sub,
    rh = [mkModalRegion e] ∧
    Modal_new parse cls options s1
    = (mkState
         (alter (set_children (λ ks, ks ++ [N])) e ns
            ++ set_parentNode (Some e)
                 (appear_cover (chosen_animationTime o)
                    (if closes_on_click o
                     then set_onclick (Some this)
                            (set_children (λ ks, ks ++ [S N]) (cover0 this))
                     else set_children (λ ks, ks ++ [S N]) (cover0 this)))
            :: set_parentNode (Some N) con :: sub)
         (Some 0) rh
         (mh ++ [mkModal 0 N (S N) (chosen_animationTime o)])
         (ph ++ [mkPromise (negb (animated (chosen_animationTime o))) []])
         (tm ++ appear_timers (chosen_animationTime o) nw this (length ph))
         mt nw
         (tr ++ field_events cls this N
            ++ body_events o this N e (length ph)),
       Ok this)
    ∧ match has_markup o with
      | Some h =>
          same_but_children
            (set_properties (insert "innerHTML" h)
               (text_content o (content0 cls))) con
      | None => con = text_content o (content0 cls) ∧ sub = []
      end
    ∧ sub_ok N sub.
Proof.
  intros Hc. destruct published_region as (e & He & Hreg).
  assert (Hleaf : children (text_content o (content0 cls)) = []).
  { unfold text_content. by destruct (opt_textContent o), cls. }
  destruct (building_html ns (Some 0) rh mh ph tm mt nw tr parse o
              (cover0 this) (text_content o (content0 cls)) None [] []
              (field_events cls this N ++ text_events o N) Hleaf)
    as (con & sub & Hhtml & Hcon & Hsub).
  exists e, con, sub. split; [done|]. split; [|by split].
  unfold Modal_new.
  rewrite (bind_ok _ _ s1 s1 this) by reflexivity.
  rewrite (bind_ok _ _ _ _ _ acquire_published).
  rewrite (bind_ok _ _ _ _ _ fields_cover).
  rewrite (bind_ok _ _ _ _ _ fields_content).
  rewrite (bind_ok _ _ _
    (building s1 (cover0 this) (content0 cls) [] None [] []
       (field_events cls this N)) tt) by (mrun; state_eq).
  rewrite (bool_decide_eq_false_2 (conflicting o)) by exact Hc.
  rewrite (bind_ok _ _ _ _ tt eq_refl).
  assert (Hleaf0 : children (content0 cls) = []) by by destruct cls.
  rewrite (bind_ok _ _ _ _ _
    (building_text _ _ _ _ _ _ _ _ _ o _ (content0 cls) _ _ _ _ Hleaf0)).
  rewrite (bind_ok _ _ _ _ _ Hhtml).
  assert (Hpc : parentNode con = None).
  { destruct (has_markup o).
    - destruct Hcon as (_&_&_&_&->&_). unfold text_content.
      by destruct (opt_textContent o), cls.
    - destruct Hcon as [-> _]. unfold text_content.
      by destruct (opt_textContent o), cls. }
  rewrite (bind_ok _ _ _ _ _
    (building_appendChild_content _ _ _ _ _ _ _ _ _ _ _ _ _ _ _ _ Hpc)).
  rewrite (bind_ok _ _ _ _ _ (building_onclick _ _ _ _ _ _ _ _ _ o _ _ _ _ _ _ _)).
  rewrite (bind_ok _ _ _ _ _
    (building_animationTime _ _ _ _ _ _ _ _ _ (chosen_animationTime o) _ _ _ _ _ _ _)).
  rewrite (bind_ok _ _ _ _ _ (building_appear _ _ _ _ _ _ _ _ _ _ _ _ _ _)).
  rewrite (bind_ok _ _ _ _ (mkModalRegion e)) by (unfold deref; cbn; by rewrite He).
  destruct Hreg as (He0 & Hel & _).
  erewrite bind_ok;
    [|apply building_attach;
      [exact Hel
      |unfold appear_cover; by destruct (animated _), (closes_on_click o)]].
  cbv [mret M_ret]. unfold body_events, field_events. state_eq.
  all: cbn [element];
    repeat (first [rewrite <- app_assoc | progress cbn [app]]); reflexivity.
Qed.

End Constructor.

(** The constructor from any state of the page. *)
Lemma Modal_new_spec parse cls options s :
  wf s →
  let o := default no_options options in
  ∃ s1 e revs,
    acquire_region s = (s1, Ok 0) ∧ wf s1 ∧
    window_modalRegion s1 = Some 0 ∧ region_heap s1 = [mkModalRegion e] ∧
    modal_heap s1 = modal_heap s ∧ promise_heap s1 = promise_heap s ∧
    timers s1 = timers s ∧ microtasks s1 = microtasks s ∧ now s1 = now s ∧
    trace s1 = trace s ++ revs ∧
    ((window_modalRegion s = Some 0 ∧ s1 = s ∧ revs = [])
     ∨ (window_modalRegion s = None ∧ e = length (dom s) ∧
        dom s1 = alter (set_children (cons e)) document_body (dom s)
                   ++ [region_node] ∧
        ∃ ev, revs = [EvCreateElement "div" e;
                      EvSetAttribute e "data-modal-region" ""; ev] ∧
              (ev = EvAppendChild document_body e
               ∨ ∃ r, ev = EvInsertBefore document_body e (Some r)))) ∧
    if decide (conflicting o) then
      Modal_new parse cls options s
      = (building s1 (cover0 (length (modal_heap s1))) (content0 cls) []
           None [] [] (field_events cls (length (modal_heap s1))
                         (length (dom s1))),
         Throw configuration_error)
    else
      ∃ con sub,
        Modal_new parse cls options s
        = (constructed cls o s1 e con sub, Ok (length (modal_heap s1)))
        ∧ content_filled cls o (length (dom s1)) con sub.
Proof.
  intros Hwf o.
  destruct (acquire_region_spec s Hwf)
    as (s1 & e & revs & Ha & Hwf1 & Hw & Hr & Hm & Hp & Ht & Hmt & Hn & Htr & Hcase).
  exists s1, e, revs. split_and!; try done.
  rewrite (Modal_new_acquire parse cls options s s1) by done.
  destruct s1 as [ns w rh mh ph tm mt nw tr]. cbn in Hw, Hr. subst w rh.
  case_decide as Hc.
  - by apply Modal_new_throws.
  - destruct (Modal_new_returns parse cls options ns _ mh ph tm mt nw tr Hwf1 Hc)
      as (e' & con & sub & [= <-] & Heq & Hcon & Hsub).
    exists con, sub. split; [exact Heq|]. by split.
Qed.

(** ** Frames *)

Lemma ext_refl s : ext s s.
Proof. unfold ext. split_and!; auto; try lia. Qed.

Lemma ext_trans s1 s2 s3 : ext s1 s2 → ext s2 s3 → ext s1 s3.
Proof.
  intros (L1 & N1 & M1 & R1 & T1) (L2 & N2 & M2 & R2 & T2).
  split_and!; try lia; auto.
  - intros i Hi. destruct (N1 i Hi) as (?&?&?), (N2 i ltac:(lia)) as (?&?&?).
    split_and!; try congruence. intuition congruence.
  - intros r Hr. destruct (R1 r Hr) as [Hr2 ?].
    destruct (R2 r Hr2) as [? ?]. split; congruence.
Qed.

(** Stores that agree on the fields [ext] speaks about. *)
Lemma ext_dom s s' :
  length (dom s) ≤ length (dom s') →
  (∀ i, i < length (dom s) →
     node_modal (dom s') i = node_modal (dom s) i ∧
     node_onclick (dom s') i = node_onclick (dom s) i ∧
     (node_parent (dom s') i = node_parent (dom s) i
      ∨ node_parent (dom s') i = None)) →
  (∃ l, modal_heap s' = modal_heap s ++ l) →
  (∀ r, window_modalRegion s = Some r →
        window_modalRegion s' = Some r ∧ region_heap s' = region_heap s) →
  now s' = now s →
  ext s s'.
Proof.
  intros HL HN [l Hl] HR HT. split_and!; auto; try lia.
  intros m obj Hm. rewrite Hl. by apply lookup_app_l_Some.
Qed.

Lemma ext_cosmetic f i s : cosmetic f → ext s (upd_dom (alter f i) s).
Proof.
  intros Hf. apply ext_dom; cbn; auto.
  - by rewrite length_alter.
  - intros j Hj. destruct (same_tree_alter f i (dom s) Hf) as [_ H].
    destruct (H j) as (->&_&->&->). auto.
  - exists []. by rewrite app_nil_r.
Qed.

Lemma wf_building s1 e cls a ps ts evs :
  wf s1 → window_modalRegion s1 = Some 0 → region_heap s1 = [mkModalRegion e] →
  wf (building s1 (cover0 (length (modal_heap s1))) (content0 cls) []
        a ps ts evs).
Proof.
  intros Hwf Hw Hr. unfold wf, building. cbn. rewrite Hw, Hr.
  unfold wf in Hwf. rewrite Hw, Hr in Hwf.
  apply (wf_parts_add_modal _ _ _ _ _ _ _ false);
    auto using sub_ok_nil; try (by destruct cls); left; by destruct cls.
Qed.

Lemma wf_constructed cls o s1 e con sub :
  wf s1 → window_modalRegion s1 = Some 0 → region_heap s1 = [mkModalRegion e] →
  content_filled cls o (length (dom s1)) con sub →
  wf (constructed cls o s1 e con sub).
Proof.
  intros Hwf Hw Hr [Hcon Hsub]. unfold wf, constructed. cbn. rewrite Hr.
  unfold wf in Hwf. rewrite Hw, Hr in Hwf.
  assert (Hc : modal con = None ∧ onclick con = None).
  { destruct (has_markup o).
    - destruct Hcon as (_&_&_&_&_&->&->). unfold text_content.
      by destruct (opt_textContent o), cls.
    - destruct Hcon as [-> _]. unfold text_content.
      by destruct (opt_textContent o), cls. }
  apply (wf_parts_add_modal _ _ _ _ _ _ _ true); auto; try tauto.
  - unfold appear_cover. by destruct (animated _), (closes_on_click o).
  - unfold appear_cover. destruct (animated _), (closes_on_click o); auto.
Qed.

Lemma ext_building s1 cov con sub a ps ts evs :
  ext s1 (building s1 cov con sub a ps ts evs).
Proof.
  apply ext_dom; cbn; auto.
  - rewrite length_app. lia.
  - intros i Hi.
    rewrite node_modal_app, node_onclick_app, node_parent_app by done. auto.
  - by eexists.
Qed.

Lemma ext_constructed cls o s1 e con sub :
  window_modalRegion s1 = Some 0 →
  ext s1 (constructed cls o s1 e con sub).
Proof.
  intros Hw. apply ext_dom; cbn; auto.
  - rewrite length_app, length_alter. lia.
  - intros i Hi.
    rewrite node_modal_app, node_onclick_app, node_parent_app
      by (by rewrite length_alter).
    rewrite node_modal_alter, node_onclick_alter, node_parent_alter by done.
    auto.
  - by eexists.
  - intros r Hr. by rewrite Hw in Hr.
Qed.

Lemma ext_acquire s s1 e revs :
  wf s →
  modal_heap s1 = modal_heap s → now s1 = now s →
  window_modalRegion s1 = Some 0 → region_heap s1 = [mkModalRegion e] →
  ((window_modalRegion s = Some 0 ∧ s1 = s ∧ revs = [])
   ∨ (window_modalRegion s = None ∧ e = length (dom s) ∧
      dom s1 = alter (set_children (cons e)) document_body (dom s)
                 ++ [region_node] ∧
      ∃ ev, revs = [EvCreateElement "div" e;
                    EvSetAttribute e "data-modal-region" ""; ev] ∧
            (ev = EvAppendChild document_body e
             ∨ ∃ r, ev = EvInsertBefore document_body e (Some r)))) →
  ext s s1.
Proof.
  intros Hwf Hm Hn Hw Hr [(_ & -> & _)|(Hnone & -> & Hd & _)];
    [apply ext_refl|].
  apply ext_dom; auto.
  - rewrite Hd, length_app, length_alter. lia.
  - intros i Hi. rewrite Hd.
    rewrite node_modal_app, node_onclick_app, node_parent_app
      by (by rewrite length_alter).
    rewrite node_modal_alter, node_onclick_alter, node_parent_alter by done.
    auto.
  - exists []. by rewrite app_nil_r.
  - intros r Hr'. by rewrite Hnone in Hr'.
Qed.

Lemma Modal_new_wf parse cls options s :
  wf s → wf (Modal_new parse cls options s).1.
Proof.
  intros Hwf. destruct (Modal_new_spec parse cls options s Hwf)
    as (s1 & e & revs & _ & Hwf1 & Hw & Hr & _ & _ & _ & _ & _ & _ & _ & Hres).
  case_decide.
  - rewrite Hres. by eapply wf_building.
  - destruct Hres as (con & sub & -> & Hcon). by apply wf_constructed.
Qed.

Lemma Modal_new_ext parse cls options s :
  wf s → ext s (Modal_new parse cls options s).1.
Proof.
  intros Hwf. destruct (Modal_new_spec parse cls options s Hwf)
    as (s1 & e & revs & _ & Hwf1 & Hw & Hr & Hm & _ & _ & _ & Hn & _ & Hcase & Hres).
  eapply ext_trans; [by eapply ext_acquire|].
  case_decide.
  - rewrite Hres. apply ext_building.
  - destruct Hres as (con & sub & -> & Hcon). by apply ext_constructed.
Qed.

(** ** Closing *)

Lemma insert_at {A} (l : list A) x y l' :
  <[length l := y]> (l ++ x :: l') = l ++ y :: l'.
Proof. induction l; simpl; f_equal; auto. Qed.

Lemma close_spec this obj s :
  modal_heap s !! this = Some obj →
  close this s = (closed this obj s, Ok (S (length (promise_heap s)))).
Proof.
  intros Hobj. destruct s as [ns w rh mh ph tm mt nw tr]. cbn in Hobj.
  unfold close, disappear, Promise_then, closed, deref. mrun.
  rewrite Hobj.
  destruct obj as [r c ct [t|]]; cbn [animationTime animated cover default];
    [destruct (0 <? t)%Z|]; mrun; rewrite lookup_at; mrun;
    rewrite ?length_app; cbn [length];
    rewrite ?Nat.add_1_r;
    rewrite <- ?(app_assoc ph); cbn [app]; rewrite ?insert_at;
    state_eq; by rewrite insert_at.
Qed.

(** ** Every step keeps the invariant and the frame *)

Section Preserves.
Context {A B : Type} (I : State → Prop).

Lemma preserves_bind (m : M A) (f : A → M B) :
  preserves I m → (∀ a, preserves I (f a)) → preserves I (m ≫= f).
Proof.
  intros Hm Hf s Hs. specialize (Hm s Hs).
  unfold mbind, M_bind. destruct (m s) as [s1 [a|msg|]]; try done.
  by apply Hf.
Qed.

Lemma preserves_ret (a : A) : preserves I (mret a : M A).
Proof. by intros s Hs. Qed.

Lemma preserves_gets (f : State → A) : preserves I (gets f).
Proof. by intros s Hs. Qed.

Lemma preserves_deref (heap : State → list A) i : preserves I (deref heap i).
Proof. intros s Hs. unfold deref. by destruct (heap s !! i). Qed.

End Preserves.

Lemma preserves_forM {A} I (l : list A) (f : A → M unit) :
  (∀ a, preserves I (f a)) → preserves I (forM l f).
Proof.
  intros Hf. induction l as [|a l IH]; [by intros s Hs|].
  cbn [forM]. apply preserves_bind; auto.
Qed.

Lemma preserves_modify I (f : State → State) :
  (∀ s, I s → I (f s)) → preserves I (modify f).
Proof. intros H s Hs. by apply H. Qed.

Lemma preserves_isNested I d a : preserves I (isNested d a).
Proof. intros s Hs. unfold isNested. by destruct (isNested_loop _ _ _ _). Qed.

Lemma wf_from_refl s : wf s → wf_from s s.
Proof. split; [done|apply ext_refl]. Qed.

Lemma wf_from_step s0 s s' :
  wf_from s0 s → wf s' → ext s s' → wf_from s0 s'.
Proof. intros [_ He] Hwf He'. split; [done|]. by eapply ext_trans. Qed.

(** Only the store, the window slot, the two object heaps and the clock
    matter. *)
Lemma wf_from_parts s0 s s' :
  wf_from s0 s →
  dom s' = dom s → window_modalRegion s' = window_modalRegion s →
  region_heap s' = region_heap s → modal_heap s' = modal_heap s →
  now s' = now s →
  wf_from s0 s'.
Proof.
  unfold wf_from, wf, ext. intros H -> -> -> -> ->. exact H.
Qed.

Lemma wf_from_emit s0 ev : preserves (wf_from s0) (modify (emit ev)).
Proof.
  apply preserves_modify. intros s H. by apply (wf_from_parts s0 s).
Qed.

Lemma wf_from_resolve s0 p : preserves (wf_from s0) (resolve p).
Proof.
  apply preserves_modify. intros s H.
  destruct (promise_heap s !! p) as [pr|]; [|done].
  destruct (fulfilled pr); [done|]. by apply (wf_from_parts s0 s).
Qed.

Lemma wf_from_cosmetic s0 s f e :
  cosmetic f → wf_from s0 s → wf_from s0 (upd_dom (alter f e) s).
Proof.
  intros Hf H. eapply wf_from_step; [exact H|..].
  - destruct H. by apply wf_cosmetic.
  - by apply ext_cosmetic.
Qed.

Lemma wf_from_setStyle s0 e k v : preserves (wf_from s0) (setStyle e k v).
Proof.
  apply preserves_modify. intros s H.
  apply (wf_from_parts s0 (upd_dom (alter (set_style (insert k v)) e) s));
    try done.
  apply wf_from_cosmetic; [apply cosmetic_style|done].
Qed.

Lemma wf_from_setProperty s0 e k v : preserves (wf_from s0) (setProperty e k v).
Proof.
  apply preserves_modify. intros s H.
  apply (wf_from_parts s0 (upd_dom (alter (set_properties (insert k v)) e) s));
    try done.
  apply wf_from_cosmetic; [apply cosmetic_properties|done].
Qed.

Lemma wf_from_closed s0 this obj s :
  wf_from s0 s → wf_from s0 (closed this obj s).
Proof.
  intros H. unfold closed. destruct (animated (animationTime obj)).
  - apply (wf_from_parts s0
      (upd_dom (alter (set_style (insert "opacity" "0")) (cover obj)) s));
      try done.
    apply wf_from_cosmetic; [apply cosmetic_style|done].
  - by apply (wf_from_parts s0 s).
Qed.

Lemma wf_from_close s0 this : preserves (wf_from s0) (close this).
Proof.
  intros s H. destruct (modal_heap s !! this) as [obj|] eqn:Hobj.
  - rewrite (close_spec this obj s Hobj). by apply wf_from_closed.
  - unfold close, disappear, deref.
    cbv [mbind M_bind modify]. cbn [modal_heap emit]. rewrite Hobj.
    by apply (wf_from_parts s0 s).
Qed.

Lemma wf_from_cover_onclick s0 this target :
  preserves (wf_from s0) (cover_onclick this target).
Proof.
  unfold cover_onclick.
  apply preserves_bind; [apply preserves_deref|]. intros obj.
  case_decide; [apply preserves_ret|].
  apply preserves_bind; [apply preserves_isNested|]. intros [|].
  - apply preserves_ret.
  - apply preserves_bind; [apply wf_from_close|]. intros _. apply preserves_ret.
Qed.

Lemma wf_from_click s0 target : preserves (wf_from s0) (click target).
Proof.
  intros s H. unfold click.
  destruct (event_path _ _ _) as [path|]; [|done].
  apply preserves_forM; [|done]. intros n.
  apply preserves_bind; [apply preserves_gets|]. intros [this|].
  - apply wf_from_cover_onclick.
  - apply preserves_ret.
Qed.

Lemma wf_from_run_timer s0 cb : preserves (wf_from s0) (run_timer cb).
Proof.
  destruct cb as [this p|p]; cbn [run_timer].
  - apply preserves_bind; [apply preserves_deref|]. intros obj.
    apply preserves_bind; [apply wf_from_setStyle|]. intros _.
    apply wf_from_resolve.
  - apply wf_from_resolve.
Qed.

Lemma ext_detach c s : ext s (upd_dom (detach c) s).
Proof.
  apply ext_dom; cbn; auto.
  - unfold detach. destruct (node_parent (dom s) c); by rewrite ?length_alter.
  - intros i Hi. unfold detach.
    destruct (node_parent (dom s) c) as [p|] eqn:Hp; [|auto].
    rewrite !node_modal_alter, !node_onclick_alter by done.
    split_and!; try done.
    destruct (decide (i = c)) as [->|Hne].
    + right. apply node_parent_set. by rewrite length_alter.
    + left. rewrite node_parent_alter_ne by done.
      by rewrite node_parent_alter.
  - exists []. by rewrite app_nil_r.
Qed.

Lemma wf_from_remove_cover s0 this obj s :
  modal_heap s !! this = Some obj →
  wf_from s0 s → wf_from s0 (remove (cover obj) s).1.
Proof.
  intros Hobj H. cbn.
  apply (wf_from_parts s0 (upd_dom (detach (cover obj)) s)); try done.
  eapply wf_from_step; [exact H|..].
  - destruct H. by eapply wf_detach_cover.
  - apply ext_detach.
Qed.

Lemma wf_from_run_job s0 job : preserves (wf_from s0) (run_job job).
Proof.
  destruct job as [[this] p]. unfold run_job, run_reaction. cbn [fst snd].
  apply preserves_bind; [|intros _; apply wf_from_resolve].
  intros s H. unfold mbind, M_bind, deref.
  destruct (modal_heap s !! this) as [obj|] eqn:Hobj; [|done].
  by eapply wf_from_remove_cover.
Qed.

Lemma wf_from_Modal_new s0 parse cls options :
  preserves (wf_from s0) (Modal_new parse cls options).
Proof.
  intros s H. eapply wf_from_step; [exact H|..]; destruct H.
  - by apply Modal_new_wf.
  - by apply Modal_new_ext.
Qed.

Lemma wf_from_ModalImage_new s0 parse options :
  preserves (wf_from s0) (ModalImage_new parse options).
Proof.
  unfold ModalImage_new.
  apply preserves_bind; [apply wf_from_Modal_new|]. intros this.
  apply preserves_bind; [apply preserves_deref|]. intros obj.
  apply preserves_bind; [apply wf_from_setProperty|]. intros _.
  apply preserves_bind; [apply wf_from_setProperty|]. intros _.
  apply preserves_ret.
Qed.

Lemma step_wf_from parse s s' : step parse s s' → wf s → wf_from s s'.
Proof.
  intros Hstep Hwf. pose proof (wf_from_refl s Hwf) as H0.
  destruct Hstep.
  - by apply wf_from_Modal_new.
  - by apply wf_from_ModalImage_new.
  - by apply wf_from_close.
  - by apply wf_from_click.
  - split; [exact Hwf|]. unfold ext. cbn. split_and!; auto; lia.
  - apply wf_from_run_timer. by apply (wf_from_parts s s).
  - apply wf_from_run_job. by apply (wf_from_parts s s).
Qed.

Lemma steps_wf_from parse s s' : rtc (step parse) s s' → wf s → wf_from s s'.
Proof.
  induction 1 as [s|s s2 s3 Hstep _ IH]; intros Hwf.
  - by apply wf_from_refl.
  - destruct (step_wf_from parse s s2 Hstep Hwf) as [Hwf2 He2].
    destruct (IH Hwf2) as [Hwf3 He3].
    split; [done|]. by eapply ext_trans.
Qed.

Lemma wf_page tags : wf (page tags).
Proof.
  unfold wf, page, wf_parts, document_body.
  cbn [dom window_modalRegion region_heap modal_heap length].
  split; [lia|]. split; [done|]. split; [|split; [|done]].
  - intros [|i] p; [done|].
    change (node_parent (?x :: ?l) (S i)) with (node_parent l i).
    unfold node_parent. rewrite list_lookup_fmap.
    destruct (tags !! i); [|done]. cbn. intros [= <-]. lia.
  - intros [|i] m; [done|].
    change (node_onclick (?x :: ?l) (S i)) with (node_onclick l i).
    unfold node_onclick. rewrite list_lookup_fmap.
    by destruct (tags !! i).
Qed.

Lemma reachable_wf parse s : reachable parse s → wf s.
Proof.
  intros [tags Hsteps].
  by destruct (steps_wf_from parse _ _ Hsteps (wf_page tags)).
Qed.

(** * The claims *)

(** ** Content options *)

Lemma lookup_at_len {A} (l : list A) x l' n :
  length l = n → (l ++ x :: l') !! n = Some x.
Proof. intros <-. apply lookup_at. Qed.

Lemma lookup_at_S_len {A} (l : list A) x y l' n :
  length l = n → (l ++ x :: y :: l') !! S n = Some y.
Proof. intros <-. apply lookup_at_S. Qed.

Lemma constructed_content cls o s1 e con sub :
  dom (constructed cls o s1 e con sub) !! S (length (dom s1))
  = Some (set_parentNode (Some (length (dom s1))) con).
Proof.
  unfold constructed. cbn [dom]. apply lookup_at_S_len, length_alter.
Qed.

Lemma constructed_cover cls o s1 e con sub :
  dom (constructed cls o s1 e con sub) !! length (dom s1)
  = Some (set_parentNode (Some e)
            (appear_cover (chosen_animationTime o)
               (if closes_on_click o
                then set_onclick (Some (length (modal_heap s1)))
                       (set_children (λ ks, ks ++ [S (length (dom s1))])
                          (cover0 (length (modal_heap s1))))
                else set_children (λ ks, ks ++ [S (length (dom s1))])
                       (cover0 (length (modal_heap s1)))))).
Proof.
  unfold constructed. cbn [dom]. apply lookup_at_len, length_alter.
Qed.

Lemma constructed_modal cls o s1 e con sub :
  modal_heap (constructed cls o s1 e con sub) !! length (modal_heap s1)
  = Some (mkModal 0 (length (dom s1)) (S (length (dom s1)))
            (chosen_animationTime o)).
Proof. unfold constructed. cbn [modal_heap]. apply lookup_at. Qed.

(** C1. Construction with both the text and the markup option fails with
    the configuration error, whatever the two values are (non-empty or
    not); construction with neither of them succeeds and leaves the content
    element without children and without any assigned property. *)
Theorem content_options_checked parse cls options s :
  reachable parse s →
  let o := default no_options options in
  (opt_textContent o ≠ None → opt_innerHTML o ≠ None →
     (Modal_new parse cls options s).2 = Throw configuration_error)
  ∧ (opt_textContent o = None → opt_innerHTML o = None →
     ∃ this obj nd,
       (Modal_new parse cls options s).2 = Ok this
       ∧ modal_heap (Modal_new parse cls options s).1 !! this = Some obj
       ∧ dom (Modal_new parse cls options s).1 !! content obj = Some nd
       ∧ children nd = [] ∧ properties nd = ∅).
Proof.
  intros Hreach o. apply reachable_wf in Hreach.
  destruct (Modal_new_spec parse cls options s Hreach)
    as (s1 & e & revs & _ & _ & _ & _ & _ & _ & _ & _ & _ & _ & _ & Hres).
  fold o in Hres. split.
  - intros Ht Hh. rewrite decide_True in Hres by by split.
    by rewrite Hres.
  - intros Ht Hh. rewrite decide_False in Hres by (intros [? _]; done).
    destruct Hres as (con & sub & -> & [Hcon _]).
    unfold has_markup in Hcon. rewrite Hh in Hcon. destruct Hcon as [-> ->].
    eexists _, _, _. split; [done|].
    split; [apply constructed_modal|].
    split; [apply constructed_content|].
    unfold text_content. rewrite Ht. by destruct cls.
Qed.

Lemma content_options_checked_witness :
  reachable parse_demo (page ["p"])
  ∧ (Modal_new parse_demo ClassModal
       (Some (mkModalOptions (Some "Hello") (Some "<b><i>x</i></b>")
                None None ∅))
       (page ["p"])).2 = Throw configuration_error.
Proof.
  assert (Hr : reachable parse_demo (page ["p"])) by by exists ["p"].
  split; [exact Hr|].
  refine (proj1 (content_options_checked parse_demo ClassModal
                   (Some (mkModalOptions (Some "Hello")
                            (Some "<b><i>x</i></b>") None None ∅))
                   (page ["p"]) Hr) _ _); done.
Defined.

(** ** The animation duration *)

(** C2 (the code departs from the claim).  The constructor tests for the
    key [fadeTime], not for [animationTime]: an options object that gives
    [animationTime: 0] and nothing else yields a modal whose duration is 250,
    with the fade-in started. *)
Theorem animationTime_zero_ignored :
  let s := (Modal_new parse_demo ClassModal
              (Some (mkModalOptions (Some "Hello") None None (Some 0%Z) ∅))
              (page [])).1 in
  (animationTime <$> modal_heap s !! 0) = Some (Some 250%Z)
  ∧ (dom s !! 2 ≫= λ cov, style cov !! "opacity") = Some "0"
  ∧ timers s = [(0%Z, AppearTick 0 0)].
Proof. by vm_compute. Qed.

(** The general shape of the defect: without the key [fadeTime] the
    duration is 250 whatever [animationTime] says, and with it the duration
    is what [animationTime] says, [undefined] included. *)
Lemma animationTime_chosen parse cls options s :
  wf s →
  let o := default no_options options in
  ¬ conflicting o →
  ∃ this obj,
    (Modal_new parse cls options s).2 = Ok this
    ∧ modal_heap (Modal_new parse cls options s).1 !! this = Some obj
    ∧ animationTime obj
      = if bool_decide ("fadeTime" ∈ opt_other_keys o)
        then opt_animationTime o else Some 250%Z.
Proof.
  intros Hwf o Hc.
  destruct (Modal_new_spec parse cls options s Hwf)
    as (s1 & e & revs & _ & _ & _ & _ & _ & _ & _ & _ & _ & _ & _ & Hres).
  fold o in Hres. rewrite decide_False in Hres by done.
  destruct Hres as (con & sub & -> & _).
  eexists _, _. split; [done|]. split; [apply constructed_modal|done].
Qed.

(** ** The modals query *)

Lemma modals_query_list (ns : list Node) e (mh : list Modal) :
  (∀ m obj, mh !! m = Some obj → node_modal ns (cover obj) = Some m) →
  (λ child, node_modal ns child) <$> (cover <$> filter (attached ns e) mh)
  = Some <$> filter (λ m, (mh !! m ≫= λ obj, node_parent ns (cover obj)) = Some e)
               (seq 0 (length mh)).
Proof.
  induction mh as [|x mh IH] using rev_ind; intros Hback; [done|].
  rewrite length_app, seq_app, !filter_app, !fmap_app. cbn [length seq Nat.add].
  f_equal.
  - rewrite IH by (intros m obj Hm; apply Hback; by apply lookup_app_l_Some).
    f_equal. apply filter_ext_in. intros m Hm.
    apply elem_of_seq in Hm. by rewrite lookup_app_l by lia.
  - rewrite !filter_cons, !filter_nil.
    assert (Hx : (mh ++ [x]) !! length mh = Some x) by apply lookup_at.
    destruct (decide (attached ns e x)) as [Ha|Ha];
      [rewrite decide_True by (rewrite Hx; exact Ha)
      |rewrite decide_False by (rewrite Hx; exact Ha)]; [|done].
    cbn. by rewrite (Hback _ _ Hx).
Qed.

(** C4. In every reachable state the [modals] getter maps the container's
    children, in their current order, to their back-references, and that
    list is exactly the list of the modals whose cover is attached to the
    container, oldest first; so its length is the number of attached
    covers. *)
Theorem modals_query_live parse s r rg :
  reachable parse s →
  region_heap s !! r = Some rg →
  ModalRegion_modals s r
    = Some ((λ child, dom s !! child ≫= modal)
              <$> node_children (dom s) (element rg))
  ∧ ModalRegion_modals s r = Some (Some <$> attached_modals s (element rg))
  ∧ ∀ l, ModalRegion_modals s r = Some l →
         length l = length (attached_modals s (element rg))
         ∧ ∀ m, Some m ∈ l ↔ cover_parent s m = Some (element rg).
Proof.
  intros Hreach Hr. apply reachable_wf in Hreach.
  assert (H1 : ModalRegion_modals s r
    = Some ((λ child, dom s !! child ≫= modal)
              <$> node_children (dom s) (element rg))).
  { unfold ModalRegion_modals. by rewrite Hr. }
  assert (H2 : ModalRegion_modals s r
               = Some (Some <$> attached_modals s (element rg))).
  { rewrite H1. f_equal.
    destruct Hreach as (_ & _ & _ & _ & Hreg).
    destruct (window_modalRegion s) as [r0|].
    2:{ destruct Hreg as [Hnil _]. by rewrite Hnil in Hr. }
    destruct Hreg as (_ & e & He & _ & _ & _ & _ & Hmod & Hkids).
    rewrite He in Hr. destruct r as [|r]; [|by destruct r].
    injection Hr as <-. cbn [element]. rewrite Hkids.
    apply modals_query_list. intros m obj Hm.
    by destruct (Hmod m obj Hm) as (_&_&_&_&?&_). }
  split; [exact H1|]. split; [exact H2|].
  intros l Hl. rewrite H2 in Hl. injection Hl as <-.
  split; [by rewrite length_fmap|].
  intros m. rewrite list_elem_of_fmap. split.
  - intros (m' & [= <-] & Hm). unfold attached_modals in Hm.
    by apply list_elem_of_filter in Hm as [? _].
  - intros Hm. exists m. split; [done|]. unfold attached_modals.
    apply list_elem_of_filter. split; [done|]. apply elem_of_seq.
    unfold cover_parent in Hm.
    destruct (modal_heap s !! m) eqn:E; [|done].
    apply lookup_lt_Some in E. lia.
Qed.

Lemma modals_query_live_witness :
  let s := (Modal_new parse_demo ClassModal None (page ["p"])).1 in
  reachable parse_demo s ∧ region_heap s !! 0 = Some (mkModalRegion 2)
  ∧ ModalRegion_modals s 0 = Some (Some <$> attached_modals s 2).
Proof.
  intros s.
  assert (Hr : reachable parse_demo s).
  { exists ["p"]. apply rtc_once. apply step_Modal. }
  assert (Hg : region_heap s !! 0 = Some (mkModalRegion 2)) by by vm_compute.
  split; [exact Hr|]. split; [exact Hg|].
  exact (proj1 (proj2 (modals_query_live parse_demo s 0 (mkModalRegion 2)
                         Hr Hg))).
Defined.

(** ** One region per page *)

(** C5. In every reachable state all modals hold the same region, which is
    the only region ever created and the one published on [window], and its
    container is the first child of the body; before the first construction
    there is neither a region nor a modal, and any construction, failing
    ones included, leaves the region published. *)
Theorem region_shared parse s :
  reachable parse s →
  (window_modalRegion s = None → region_heap s = [] ∧ modal_heap s = [])
  ∧ (∀ m obj, modal_heap s !! m = Some obj →
       region obj = 0 ∧ window_modalRegion s = Some 0
       ∧ ∃ e, region_heap s = [mkModalRegion e]
              ∧ firstChild (dom s) document_body = Some e)
  ∧ (∀ cls options,
       let s' := (Modal_new parse cls options s).1 in
       window_modalRegion s' = Some 0
       ∧ (∃ e, region_heap s' = [mkModalRegion e]
               ∧ firstChild (dom s') document_body = Some e)
       ∧ (window_modalRegion s = Some 0 → region_heap s' = region_heap s)).
Proof.
  intros Hreach. pose proof (reachable_wf parse s Hreach) as Hwf.
  assert (Hpub : ∀ x, wf x → window_modalRegion x = Some 0 →
            ∃ e, region_heap x = [mkModalRegion e]
                 ∧ firstChild (dom x) document_body = Some e).
  { intros x (_&_&_&_&Hx) Hw. rewrite Hw in Hx.
    destruct Hx as (_ & e & ? & _ & _ & ? & _). by exists e. }
  split; [|split].
  - intros Hw. destruct Hwf as (_&_&_&_&Hx). by rewrite Hw in Hx.
  - intros m obj Hm. pose proof Hwf as (_&_&_&_&Hx).
    destruct (window_modalRegion s) as [r|] eqn:Hw.
    2:{ destruct Hx as [_ Hnil]. by rewrite Hnil in Hm. }
    destruct Hx as (-> & e & He & _ & _ & Hf & _ & Hmod & _).
    destruct (Hmod m obj Hm) as (? & _). split_and!; try done. by exists e.
  - intros cls options s'.
    pose proof (Modal_new_wf parse cls options s Hwf) as Hwf'.
    pose proof (Modal_new_ext parse cls options s Hwf) as (_&_&_&Hext&_).
    assert (Hw' : window_modalRegion s' = Some 0).
    { unfold s'. destruct (Modal_new_spec parse cls options s Hwf)
        as (s1 & e & revs & _ & _ & Hw1 & _ & _ & _ & _ & _ & _ & _ & _ & Hres).
      case_decide.
      - rewrite Hres. exact Hw1.
      - by destruct Hres as (con & sub & -> & _). }
    split; [exact Hw'|]. split; [by apply Hpub|].
    intros Hw. by destruct (Hext 0 Hw).
Qed.

Lemma region_shared_witness :
  let s := (Modal_new parse_demo ClassModal None
              (Modal_new parse_demo ClassModalImage None (page ["p"])).1).1 in
  reachable parse_demo s
  ∧ modal_heap s !! 1 = Some (mkModal 0 5 6 (Some 250%Z))
  ∧ window_modalRegion s = Some 0.
Proof.
  intros s.
  assert (Hr : reachable parse_demo s).
  { exists ["p"]. eapply rtc_l; [apply step_Modal|].
    apply rtc_once. apply step_Modal. }
  assert (Hm : modal_heap s !! 1 = Some (mkModal 0 5 6 (Some 250%Z)))
    by by vm_compute.
  split; [exact Hr|]. split; [exact Hm|].
  exact (proj1 (proj2 (proj1 (proj2 (region_shared parse_demo s Hr)) 1 _ Hm))).
Defined.

(** ** Appearing *)

Ltac not_in_events H :=
  repeat match type of H with
         | _ ∨ _ => destruct H as [H|H]
         | _ ∈ _ :: _ => apply elem_of_cons in H as [H|H]; [done|]
         | _ ∈ [] => by apply elem_of_nil in H
         end.

(** C8. For a modal whose animation duration is 0, [appear()] returns an
    already fulfilled promise, schedules nothing and writes no style: the
    node store is unchanged and the only event is the call itself.  A modal
    constructed with duration 0 therefore has a cover without any inline
    style, and its construction made no style write. *)
Theorem appear_instant parse s this obj :
  modal_heap s !! this = Some obj →
  animationTime obj = Some 0%Z →
  (∃ s' p,
     appear this s = (s', Ok p)
     ∧ dom s' = dom s ∧ timers s' = timers s ∧ microtasks s' = microtasks s
     ∧ is_fulfilled s' p = true
     ∧ trace s' = trace s ++ [EvCall MAppear this])
  ∧ ∀ cls options,
      wf s →
      let o := default no_options options in
      ¬ conflicting o → chosen_animationTime o = Some 0%Z →
      ∃ s' that obj' cov evs,
        Modal_new parse cls options s = (s', Ok that)
        ∧ modal_heap s' !! that = Some obj'
        ∧ animationTime obj' = Some 0%Z
        ∧ dom s' !! cover obj' = Some cov ∧ style cov = ∅
        ∧ timers s' = timers s
        ∧ trace s' = trace s ++ evs
        ∧ ∀ n k v, EvSetStyle n k v ∉ evs.
Proof.
  intros Hobj Hzero. split.
  - exists (mkState (dom s) (window_modalRegion s) (region_heap s)
              (modal_heap s) (promise_heap s ++ [mkPromise true []])
              (timers s) (microtasks s) (now s)
              (trace s ++ [EvCall MAppear this])),
           (length (promise_heap s)).
    split_and!; try done.
    + unfold appear. cbv [mbind M_bind modify deref]. cbn [modal_heap emit].
      rewrite Hobj, Hzero. by destruct s.
    + unfold is_fulfilled. cbn [promise_heap]. by rewrite lookup_at.
  - intros cls options Hwf o Hc Ha.
    destruct (Modal_new_spec parse cls options s Hwf)
      as (s1 & e & revs & _ & _ & _ & _ & _ & _ & Ht & _ & _ & Htr & Hcase & Hres).
    fold o in Hres. rewrite decide_False in Hres by done.
    destruct Hres as (con & sub & -> & _).
    eexists _, _, _, _, _. split; [done|].
    split; [apply constructed_modal|]. split; [exact Ha|].
    split; [apply constructed_cover|].
    rewrite Ha. unfold appear_cover. cbn [animated Z.ltb Z.compare].
    split; [by destruct (closes_on_click o)|].
    unfold constructed. cbn [timers trace]. rewrite Ha, Ht, Htr.
    unfold appear_timers. cbn [animated Z.ltb Z.compare].
    split; [by rewrite app_nil_r|].
    rewrite <- app_assoc. split; [reflexivity|].
    intros n k v Hin.
    unfold body_events, appear_events, field_events, text_events,
      html_events, onclick_events in Hin.
    rewrite Ha in Hin. cbn [animated Z.ltb Z.compare] in Hin.
    rewrite !elem_of_app in Hin.
    assert (Hrevs : EvSetStyle n k v ∉ revs).
    { destruct Hcase as [(_&_&->)|(_&_&_&ev&->&[->|[r ->]])];
        intros H; not_in_events H. }
    destruct (opt_textContent o), (has_markup o), (closes_on_click o), cls;
      not_in_events Hin; by apply Hrevs.
Qed.

Lemma appear_instant_witness :
  let s := (Modal_new parse_demo ClassModal
              (Some (mkModalOptions (Some "Hello") None None (Some 0%Z)
                       {["fadeTime"]}))
              (page [])).1 in
  modal_heap s !! 0 = Some (mkModal 0 2 3 (Some 0%Z))
  ∧ ∃ s' p, appear 0 s = (s', Ok p) ∧ dom s' = dom s
            ∧ is_fulfilled s' p = true.
Proof.
  intros s.
  assert (H : modal_heap s !! 0 = Some (mkModal 0 2 3 (Some 0%Z)))
    by by vm_compute.
  split; [exact H|].
  destruct (proj1 (appear_instant parse_demo s 0 _ H eq_refl))
    as (s' & p & ? & ? & _ & _ & ? & _).
  by exists s', p.
Defined.

Ltac not_appended H :=
  repeat match type of H with
         | _ ∨ _ => destruct H as [H|H]
         | _ ∈ _ :: _ =>
             apply elem_of_cons in H as [H|H];
             [try done; injection H; intros; lia|]
         | _ ∈ [] => by apply elem_of_nil in H
         end.

(** C9. Within a construction, [appear()] is called before the cover is
    appended to the container, which is the last platform call of the
    constructor and the only append of the cover; when the modal is
    animated, the promise of [appear()] is still pending and its timer still
    queued when the constructor returns with the cover attached. *)
Theorem appear_before_attach parse cls options s :
  reachable parse s →
  let o := default no_options options in
  ¬ conflicting o →
  ∃ s' this obj e pre post,
    Modal_new parse cls options s = (s', Ok this)
    ∧ modal_heap s' !! this = Some obj
    ∧ region_heap s' = [mkModalRegion e]
    ∧ trace s' = trace s ++ pre ++ [EvCall MAppear this] ++ post
                   ++ [EvAppendChild e (cover obj)]
    ∧ (∀ p, EvAppendChild p (cover obj) ∉ pre ++ post)
    ∧ node_parent (dom s') (cover obj) = Some e
    ∧ (animated (animationTime obj) = true →
       is_fulfilled s' (length (promise_heap s)) = false
       ∧ ((now s + 0)%Z, AppearTick this (length (promise_heap s)))
           ∈ timers s'
       ∧ (dom s' !! cover obj ≫= λ cov, style cov !! "opacity") = Some "0").
Proof.
  intros Hreach o Hc. apply reachable_wf in Hreach.
  destruct (Modal_new_spec parse cls options s Hreach)
    as (s1 & e & revs & _ & Hwf1 & Hw1 & Hr1 & Hm1 & Hp1 & Ht1 & _ & Hn1
        & Htr & Hcase & Hres).
  fold o in Hres. rewrite decide_False in Hres by done.
  destruct Hres as (con & sub & -> & _).
  assert (He : 0 < e ∧ e < length (dom s1)).
  { destruct Hwf1 as (_&_&_&_&Hx). rewrite Hw1, Hr1 in Hx.
    destruct Hx as (_ & e' & [= <-] & ? & ? & _). done. }
  set (n := length (dom s1)) in *. set (this := length (modal_heap s1)).
  set (a := chosen_animationTime o).
  exists (constructed cls o s1 e con sub), this,
         (mkModal 0 n (S n) a), e,
         (revs ++ field_events cls this n ++ text_events o n
            ++ html_events o n ++ [EvAppendChild n (S n)]
            ++ onclick_events o this n),
         (if animated a
          then [EvSetStyle n "opacity" "0";
                EvSetStyle n "transition" (transition_of a);
                EvSetTimeout (AppearTick this (length (promise_heap s1))) 0]
          else []).
  split; [done|]. split; [apply constructed_modal|]. split; [done|].
  cbn [cover animationTime].
  split.
  { unfold constructed. cbn [trace]. rewrite Htr.
    unfold body_events, appear_events. fold n this a.
    repeat (first [rewrite <- app_assoc | progress cbn [app]]). done. }
  split.
  { intros p Hin. rewrite !elem_of_app in Hin.
    unfold field_events, text_events, html_events, onclick_events in Hin.
    assert (Hrevs : EvAppendChild p n ∉ revs).
    { destruct Hcase as [(_&_&->)|(_&_&_&ev&->&[->|[r ->]])];
        intros H; unfold document_body in H; not_appended H. }
    destruct (opt_textContent o), (has_markup o), (closes_on_click o), cls,
      (animated a); not_appended Hin; by apply Hrevs. }
  split.
  { unfold node_parent, n. by rewrite constructed_cover. }
  intros Han. unfold constructed. cbn [promise_heap timers dom].
  fold n this a. rewrite Han. rewrite <- Hp1, <- Hn1. split_and!.
  - unfold is_fulfilled. cbn [promise_heap]. by rewrite lookup_at.
  - unfold appear_timers. rewrite Han. rewrite elem_of_app. right. by left.
  - rewrite lookup_at_len by apply length_alter. cbn.
    unfold appear_cover. fold a. rewrite Han. cbn.
    by rewrite lookup_insert_ne, lookup_insert_eq.
Qed.

Lemma appear_before_attach_witness :
  reachable parse_demo (page ["p"])
  ∧ ∃ s' pre post,
      Modal_new parse_demo ClassModal None (page ["p"]) = (s', Ok 0)
      ∧ trace s' = trace (page ["p"]) ++ pre ++ [EvCall MAppear 0] ++ post
                     ++ [EvAppendChild 2 3]
      ∧ is_fulfilled s' 0 = false.
Proof.
  assert (Hr : reachable parse_demo (page ["p"])) by by exists ["p"].
  split; [exact Hr|].
  destruct (appear_before_attach parse_demo ClassModal None (page ["p"]) Hr)
    as (s' & this & obj & e & pre & post & Heq & Hobj & Hreg & Htr & _ & _ & Hp).
  { intros [H _]. by apply H. }
  exists s', pre, post.
  assert (Hs : s' = (Modal_new parse_demo ClassModal None (page ["p"])).1)
    by by rewrite Heq.
  assert (Hv : (Modal_new parse_demo ClassModal None (page ["p"])).2 = Ok 0)
    by by vm_compute.
  rewrite Heq in Hv. injection Hv as ->.
  assert (Hobj' : modal_heap s' !! 0 = Some (mkModal 0 3 4 (Some 250%Z)))
    by (rewrite Hs; by vm_compute).
  rewrite Hobj in Hobj'. injection Hobj' as ->.
  assert (Hreg' : region_heap s' = [mkModalRegion 2])
    by (rewrite Hs; by vm_compute).
  rewrite Hreg in Hreg'. injection Hreg' as ->.
  split; [done|]. split; [exact Htr|]. by apply Hp.
Defined.

(** ** The configuration error *)

(** C3 as stated does not hold: on a fresh page the failing construction
    leaves three new nodes in the store, the container among them, inserted
    into the body. *)
Lemma construction_error_not_atomic :
  ¬ (∀ cls options s,
       reachable parse_demo s →
       conflicting (default no_options options) →
       dom (Modal_new parse_demo cls options s).1 = dom s).
Proof.
  intros H.
  specialize (H ClassModal
    (Some (mkModalOptions (Some "Hello") (Some "<b><i>x</i></b>") None None ∅))
    (page [])).
  assert (Hl : length (dom (Modal_new parse_demo ClassModal
    (Some (mkModalOptions (Some "Hello") (Some "<b><i>x</i></b>") None None ∅))
    (page [])).1) = 4) by by vm_compute.
  rewrite H in Hl; [done| by exists [] | by split].
Qed.

Lemma region_children_lt s e :
  wf s → window_modalRegion s = Some 0 → region_heap s = [mkModalRegion e] →
  ∀ c, c ∈ node_children (dom s) e → c < length (dom s).
Proof.
  intros (_&_&_&_&Hx) Hw Hr c Hc. rewrite Hw, Hr in Hx.
  destruct Hx as (_ & e' & [= <-] & _ & _ & _ & _ & Hmod & Hkids).
  rewrite Hkids in Hc. apply list_elem_of_fmap in Hc as (obj & -> & Hobj).
  apply list_elem_of_filter in Hobj as [_ Hobj].
  apply list_elem_of_lookup in Hobj as [m Hm].
  destruct (Hmod m obj Hm) as (_&_&?&?&_). lia.
Qed.

(** C3, amended.  The configuration error is raised after the three field
    initialisers have run and before the constructor body does anything:
    the region is acquired and published, its container is the first child
    of the body (when the page had no region the container is created and
    put in front of the children the body had, and nothing else of the body
    changes), the cover and the content exist but are detached, childless
    and without listener, style or text, the cover carrying only its
    back-reference; every earlier node other than the body is as it was,
    the container has the children it had, the region's [modals] query is
    unchanged (empty for a new region), and no promise, timer or microtask
    has been created. *)
Theorem configuration_error_after_initialisers parse cls options s :
  reachable parse s →
  conflicting (default no_options options) →
  ∃ s' e obj cov con,
    Modal_new parse cls options s = (s', Throw configuration_error)
    ∧ window_modalRegion s' = Some 0 ∧ region_heap s' = [mkModalRegion e]
    ∧ modal_heap s' = modal_heap s ++ [obj] ∧ animationTime obj = None
    ∧ dom s' !! cover obj = Some cov
    ∧ parentNode cov = None ∧ children cov = [] ∧ onclick cov = None
    ∧ style cov = ∅
    ∧ dom s' !! content obj = Some con
    ∧ parentNode con = None ∧ children con = [] ∧ properties con = ∅
    ∧ (∀ i, i < length (dom s) → i ≠ document_body →
            dom s' !! i = dom s !! i)
    ∧ (window_modalRegion s = Some 0 →
         dom s' !! document_body = dom s !! document_body
         ∧ ModalRegion_modals s' 0 = ModalRegion_modals s 0)
    ∧ (window_modalRegion s = None →
         e = length (dom s) ∧ ModalRegion_modals s' 0 = Some [])
    ∧ promise_heap s' = promise_heap s ∧ timers s' = timers s
    ∧ microtasks s' = microtasks s
    ∧ properties cov = ∅ ∧ modal cov = Some (length (modal_heap s))
    ∧ onclick con = None ∧ style con = ∅
    ∧ firstChild (dom s') document_body = Some e
    ∧ node_parent (dom s') e = Some document_body
    ∧ node_children (dom s') e = node_children (dom s) e
    ∧ (window_modalRegion s = None →
         dom s' !! e = Some region_node
         ∧ node_children (dom s') document_body
           = e :: node_children (dom s) document_body
         ∧ ∀ nd, dom s !! document_body = Some nd →
                 dom s' !! document_body
                 = Some (set_children (cons e) nd)).
Proof.
  intros Hreach Hc. apply reachable_wf in Hreach.
  assert (Hwf' : wf (Modal_new parse cls options s).1).
  { by apply Modal_new_wf. }
  destruct (Modal_new_spec parse cls options s Hreach)
    as (s1 & e & revs & _ & Hwf1 & Hw1 & Hr1 & Hm1 & Hp1 & Ht1 & Hmt1 & _
        & _ & Hcase & Hres).
  rewrite decide_True in Hres by done.
  eexists _, e, _, _, _. split; [exact Hres|].
  unfold building.
  cbn [window_modalRegion region_heap modal_heap dom promise_heap timers
       microtasks cover content animationTime].
  rewrite Hm1, Hp1, Ht1, Hmt1, !app_nil_r.
  split; [done|]. split; [done|]. split; [done|]. split; [done|].
  split; [apply lookup_at|]. split; [done|]. split; [done|].
  split; [done|]. split; [done|].
  split; [apply lookup_at_S|]. split; [by destruct cls|].
  split; [by destruct cls|]. split; [by destruct cls|].
  split; [|split; [|split; [|split_and!; try done; try (by destruct cls)]]].
  - intros i Hi Hb.
    destruct Hcase as [(_ & -> & _)|(_ & _ & Hd & _)].
    + by rewrite lookup_app_l.
    + rewrite Hd. rewrite <- app_assoc.
      rewrite lookup_app_l by (by rewrite length_alter).
      by rewrite list_lookup_alter_ne.
  - intros Hw.
    assert (He : e < length (dom s1)).
    { destruct Hwf1 as (_&_&_&_&Hx). rewrite Hw1, Hr1 in Hx.
      destruct Hx as (_ & e' & [= <-] & _ & ? & _). done. }
    destruct Hcase as [(_ & -> & _)|(Hn & _)];
      [|by rewrite Hw in Hn].
    destruct Hreach as (Hlen & _).
    split; [by rewrite lookup_app_l|].
    unfold ModalRegion_modals. cbn [region_heap dom]. rewrite Hr1. cbn.
    f_equal.
    rewrite node_children_app by done.
    apply list_fmap_ext. intros k c Hk.
    rewrite lookup_app_l; [done|].
    eapply region_children_lt; eauto. by eapply list_elem_of_lookup_2.
  - intros Hn. destruct Hcase as [(Hw & _)|(_ & -> & Hd & _)];
      [by rewrite Hw in Hn|].
    split; [done|].
    unfold ModalRegion_modals. cbn [region_heap dom]. rewrite Hr1. cbn.
    f_equal. rewrite Hd.
    unfold node_children. rewrite <- app_assoc. cbn [app].
    rewrite lookup_at_len by apply length_alter. done.
  - pose proof Hwf1 as (Hlen1&_&_&_&Hx). rewrite Hw1, Hr1 in Hx.
    destruct Hx as (_ & e' & [= <-] & _ & _ & Hfirst & _).
    unfold firstChild in *. by rewrite node_children_app.
  - destruct Hwf1 as (_&_&_&_&Hx). rewrite Hw1, Hr1 in Hx.
    destruct Hx as (_ & e' & [= <-] & _ & ? & _ & ? & _).
    by rewrite node_parent_app.
  - assert (He : e < length (dom s1)).
    { destruct Hwf1 as (_&_&_&_&Hx). rewrite Hw1, Hr1 in Hx.
      destruct Hx as (_ & e' & [= <-] & _ & ? & _). done. }
    rewrite node_children_app by done.
    destruct Hcase as [(_ & -> & _)|(_ & -> & Hd & _)]; [done|].
    rewrite Hd. unfold node_children.
    rewrite lookup_at_len by apply length_alter.
    by rewrite lookup_ge_None_2.
  - intros Hn. destruct Hcase as [(Hw & _)|(_ & -> & Hd & _)];
      [by rewrite Hw in Hn|].
    destruct Hreach as (Hlen & _).
    rewrite Hd, <- !app_assoc. cbn [app]. split_and!.
    + apply lookup_at_len, length_alter.
    + rewrite node_children_app by by rewrite length_alter.
      unfold document_body. by rewrite node_children_alter_eq.
    + intros nd Hnd. rewrite lookup_app_l by by rewrite length_alter.
      by rewrite list_lookup_alter_eq, Hnd.
Qed.

Lemma configuration_error_after_initialisers_witness :
  reachable parse_demo (page ["p"])
  ∧ conflicting (mkModalOptions (Some "Hello") (Some "<b><i>x</i></b>")
                   None None ∅)
  ∧ ∃ s', Modal_new parse_demo ClassModal
            (Some (mkModalOptions (Some "Hello") (Some "<b><i>x</i></b>")
                     None None ∅)) (page ["p"])
          = (s', Throw configuration_error)
          ∧ ModalRegion_modals s' 0 = Some [].
Proof.
  assert (Hr : reachable parse_demo (page ["p"])) by by exists ["p"].
  assert (Hc : conflicting (mkModalOptions (Some "Hello")
                 (Some "<b><i>x</i></b>") None None ∅)) by by split.
  split; [exact Hr|]. split; [exact Hc|].
  destruct (configuration_error_after_initialisers parse_demo ClassModal
              (Some (mkModalOptions (Some "Hello") (Some "<b><i>x</i></b>")
                       None None ∅)) (page ["p"]) Hr Hc)
    as (s' & e & obj & cov & con & Heq & H).
  exists s'. split; [exact Heq|].
  destruct H as (_&_&_&_&_&_&_&_&_&_&_&_&_&_&_&Hnew&_).
  by destruct (Hnew eq_refl).
Defined.

(** ** Ancestors, isNested and the path of a click *)

Lemma proper_ancestor_lt ns a d :
  tree_ordered ns → proper_ancestor ns a d → a < d.
Proof.
  intros Ht. induction 1 as [d Hp|d p Hp _ IH].
  - by apply Ht.
  - apply Ht in Hp. lia.
Qed.

Lemma proper_ancestor_inv ns a d :
  proper_ancestor ns a d →
  ∃ p, node_parent ns d = Some p ∧ (p = a ∨ proper_ancestor ns a p).
Proof. destruct 1 as [d Hp|d p Hp H]; eauto. Qed.


(** The loop of [isNested] decides [proper_ancestor] for any fuel above the
    identity of the node it starts from. *)
Lemma isNested_loop_spec ns a :
  tree_ordered ns →
  ∀ fuel d, d < fuel →
    ∃ b, isNested_loop fuel ns (Some d) a = Some b
         ∧ (b = true ↔ proper_ancestor ns a d).
Proof.
  intros Ht. induction fuel as [|fuel IH]; intros d Hd; [lia|].
  cbn [isNested_loop]. case_decide as Hw.
  - exists true. split; [done|]. split; [|done]. intros _. by constructor.
  - destruct (node_parent ns d) as [p|] eqn:Hp.
    + assert (p < fuel) by (apply Ht in Hp; lia).
      destruct (IH p ltac:(done)) as (b & -> & Hb).
      exists b. split; [done|]. rewrite Hb. split.
      * intros H'. by eapply ancestor_up.
      * intros H'. apply proper_ancestor_inv in H' as (p' & Hp' & [->|H']);
          rewrite Hp in Hp'; injection Hp' as <-; done.
    + exists false. split; [by destruct fuel|]. split; [done|].
      intros H'. apply proper_ancestor_inv in H' as (p' & Hp' & _).
      by rewrite Hp in Hp'.
Qed.

Lemma isNested_spec s d a :
  wf s → d < length (dom s) →
  ∃ b, isNested d a s = (s, Ok b)
       ∧ (b = true ↔ proper_ancestor (dom s) a d).
Proof.
  intros (_&_&Ht&_) Hd.
  destruct (isNested_loop_spec (dom s) a Ht (length (dom s)) d Hd)
    as (b & Hb & Hspec).
  exists b. split; [|done]. unfold isNested. by rewrite Hb.
Qed.

Lemma event_path_spec ns :
  tree_ordered ns →
  ∀ fuel w, w < fuel →
    ∃ l, event_path fuel ns (Some w) = Some (w :: l)
         ∧ ∀ n, n ∈ l ↔ proper_ancestor ns n w.
Proof.
  intros Ht. induction fuel as [|fuel IH]; intros w Hw; [lia|].
  cbn [event_path]. destruct (node_parent ns w) as [p|] eqn:Hp.
  - assert (p < fuel) by (apply Ht in Hp; lia).
    destruct (IH p ltac:(done)) as (l & -> & Hl).
    exists (p :: l). split; [done|]. intros n. rewrite elem_of_cons, Hl. split.
    + intros [->|H']; [by constructor|by eapply ancestor_up].
    + intros H'. apply proper_ancestor_inv in H' as (p' & Hp' & H').
      rewrite Hp in Hp'. injection Hp' as <-. destruct H' as [->|?]; auto.
  - exists []. split; [by destruct fuel|]. intros n. split.
    + by intros ?%elem_of_nil.
    + intros H'. apply proper_ancestor_inv in H' as (p' & Hp' & _).
      by rewrite Hp in Hp'.
Qed.

Lemma forM_noop {A} (l : list A) (f : A → M unit) s :
  (∀ a, a ∈ l → f a s = (s, Ok tt)) → forM l f s = (s, Ok tt).
Proof.
  induction l as [|a l IH]; intros H; [done|].
  cbn [forM]. rewrite (bind_ok _ _ _ _ _ (H a ltac:(left))).
  apply IH. intros b Hb. apply H. by right.
Qed.

(** ** Clicks *)

Section Clicks.
Variables (s : State) (m : nat) (obj : Modal).
Hypothesis Hwf : wf s.
Hypothesis Hobj : modal_heap s !! m = Some obj.

Lemma modal_region :
  ∃ e, region_heap s = [mkModalRegion e] ∧ 0 < e
       ∧ node_parent (dom s) e = Some 0 ∧ node_parent (dom s) 0 = None
       ∧ (∀ k x, modal_heap s !! k = Some x → modal_ok (dom s) e k x).
Proof.
  destruct Hwf as (_ & Hb & _ & _ & Hx).
  destruct (window_modalRegion s).
  - destruct Hx as (_ & e & ? & ? & _ & _ & ? & ? & _). by exists e.
  - destruct Hx as [_ Hnil]. by rewrite Hnil in Hobj.
Qed.







End Clicks.


Lemma listener_step (f : State → option nat) (k : nat → M unit) s :
  (listener ← gets f;
   match listener with
   | Some this => k this
   | None => mret tt
   end) s
  = match f s with Some this => k this s | None => (s, Ok tt) end.
Proof. unfold mbind, M_bind, gets. by destruct (f s). Qed.



(** ** Promises, timers and jobs *)

Lemma extends_same x x' :
  promise_heap x' = promise_heap x → timers x' = timers x →
  microtasks x' = microtasks x → now x' = now x → extends x x'.
Proof.
  intros Hp Ht Hm Hn. exists [], [], [].
  rewrite Hp, Ht, Hm, Hn, !app_nil_r. split_and!; try done; constructor.
Qed.

Lemma async_ok_extends x x' : async_ok x → extends x x' → async_ok x'.
Proof.
  intros (Ht & Hj & Hr) (ps & ts & js & Hp' & Ht' & Hj' & _ & Hts & Hjs & Hps).
  unfold async_ok. rewrite Hp', Ht', Hj', length_app.
  split_and!.
  - apply Forall_app. split.
    + eapply Forall_impl; [exact Ht|]. cbn. intros; lia.
    + eapply Forall_impl; [exact Hts|]. cbn. intros; lia.
  - apply Forall_app. split.
    + eapply Forall_impl; [exact Hj|]. cbn. intros; lia.
    + eapply Forall_impl; [exact Hjs|]. cbn. intros; lia.
  - intros i pr Hi. apply lookup_app_Some in Hi as [Hi|[_ Hi]].
    + eapply Forall_impl; [exact (Hr i pr Hi)|]. cbn. intros; lia.
    + apply list_elem_of_lookup_2 in Hi.
      rewrite Forall_forall in Hps. specialize (Hps pr Hi).
      eapply Forall_impl; [exact Hps|]. cbn. intros; lia.
Qed.

Lemma is_fulfilled_app x ph p ps :
  promise_heap x = ph ++ ps → p < length ph →
  is_fulfilled x p = default false (fulfilled <$> ph !! p).
Proof. intros Hx Hp. unfold is_fulfilled. by rewrite Hx, lookup_app_l. Qed.

Lemma pending_close_extends this c q p T x x' :
  pending_close this c q p T x → extends x x' →
  (∀ m obj, modal_heap x !! m = Some obj → modal_heap x' !! m = Some obj) →
  (node_parent (dom x) c = None → node_parent (dom x') c = None) →
  pending_close this c q p T x'.
Proof.
  intros ((obj & Hobj & Hc) & Hq & Hp & Hqp & Ht & Hj & Hr & Hd)
         (ps & ts & js & Hp' & Ht' & Hj' & Hn' & Hts & Hjs & Hps) Hheap Hpar.
  unfold pending_close. rewrite Hp', Ht', Hj', Hn', length_app.
  split_and!; try lia.
  - exists obj. split; [by apply Hheap|done].
  - apply Forall_app. split; [done|].
    eapply Forall_impl; [exact Hts|]. cbn. intros; lia.
  - apply Forall_app. split; [done|].
    eapply Forall_impl; [exact Hjs|]. cbn. intros; lia.
  - intros i pr Hi. apply lookup_app_Some in Hi as [Hi|[_ Hi]].
    + by apply (Hr i pr).
    + apply list_elem_of_lookup_2 in Hi.
      rewrite Forall_forall in Hps. specialize (Hps pr Hi).
      eapply Forall_impl; [exact Hps|]. cbn. intros; lia.
  - rewrite (is_fulfilled_app x' _ p ps Hp' Hp). intros Hf.
    destruct (Hd Hf) as [? ?]. split; [done|by apply Hpar].
Qed.

Lemma cover_in_store x this obj :
  wf x → modal_heap x !! this = Some obj → cover obj < length (dom x).
Proof.
  intros Hwf Hobj. destruct (modal_region x this obj Hwf Hobj)
    as (e & _ & _ & _ & _ & Hmod).
  destruct (Hmod _ _ Hobj) as (_&_&?&?&_). lia.
Qed.

Lemma closing_extends on this c q p T x x' :
  closing on this c q p T x → wf_from x x' → extends x x' →
  closing on this c q p T x'.
Proof.
  intros (Hwf & Ha & Hp) [Hwf' (_ & Hnodes & Hheap & _)] Hext.
  split; [done|]. split; [by eapply async_ok_extends|].
  intros Hon. specialize (Hp Hon).
  eapply pending_close_extends; eauto.
  destruct Hp as ((obj & Hobj & <-) & _).
  pose proof (cover_in_store x this obj Hwf Hobj) as Hlt.
  destruct (Hnodes _ Hlt) as (_ & _ & [-> | ->]); done.
Qed.

Lemma closing_grows {A} on this c q p T (m : M A) :
  grows m → preserves (closing on this c q p T) m.
Proof.
  intros Hm x Hx. destruct (Hm x) as [? ?]; [by destruct Hx|].
  by eapply closing_extends.
Qed.

Lemma Modal_new_extends parse cls options x :
  wf x → extends x (Modal_new parse cls options x).1.
Proof.
  intros Hwf. destruct (Modal_new_spec parse cls options x Hwf)
    as (s1 & e & revs & _ & _ & _ & _ & _ & Hph & Htm & Hmt & Hnow & _ & _ & Hres).
  case_decide.
  - rewrite Hres. apply extends_same; cbn; by rewrite ?app_nil_r.
  - destruct Hres as (con & sub & -> & _).
    exists [mkPromise (negb (animated (chosen_animationTime (default no_options options)))) []],
      (appear_timers (chosen_animationTime (default no_options options)) (now s1)
         (length (modal_heap s1)) (length (promise_heap s1))), [].
    cbn. rewrite Hph, Htm, Hmt, Hnow, app_nil_r. split_and!; try done.
    + unfold appear_timers. destruct (animated _); constructor; [|constructor].
      cbn. lia.
    + constructor; [constructor|constructor].
Qed.

Lemma grows_Modal_new parse cls options : grows (Modal_new parse cls options).
Proof.
  intros x Hwf. split; [|by apply Modal_new_extends].
  apply wf_from_Modal_new. by apply wf_from_refl.
Qed.

Lemma close_extends this x : extends x (close this x).1.
Proof.
  destruct (modal_heap x !! this) as [obj|] eqn:Hobj.
  - rewrite (close_spec this obj x Hobj). cbn.
    eexists _, _, _. split_and!; try reflexivity. cbn.
    destruct (animated _); split_and!; repeat constructor; cbn; lia.
  - unfold close, disappear, deref.
    cbv [mbind M_bind modify]. cbn [modal_heap emit]. rewrite Hobj.
    by apply extends_same.
Qed.

Lemma grows_close this : grows (close this).
Proof.
  intros x Hwf. split; [|apply close_extends].
  apply wf_from_close. by apply wf_from_refl.
Qed.

Lemma grows_setStyle e k v : grows (setStyle e k v).
Proof.
  intros x Hwf. split; [|by apply extends_same].
  apply wf_from_setStyle. by apply wf_from_refl.
Qed.

Lemma grows_setProperty e k v : grows (setProperty e k v).
Proof.
  intros x Hwf. split; [|by apply extends_same].
  apply wf_from_setProperty. by apply wf_from_refl.
Qed.

Section Closing.
Variables (on : bool) (this c q p : nat) (T : Z).
Local Abbreviation K := (closing on this c q p T).

Lemma closing_cover_onclick m target : preserves K (cover_onclick m target).
Proof.
  unfold cover_onclick.
  apply preserves_bind; [apply preserves_deref|]. intros obj.
  case_decide; [apply preserves_ret|].
  apply preserves_bind; [apply preserves_isNested|]. intros [|].
  - apply preserves_ret.
  - apply preserves_bind; [apply closing_grows, grows_close|].
    intros _. apply preserves_ret.
Qed.

Lemma closing_click target : preserves K (click target).
Proof.
  intros s H. unfold click.
  destruct (event_path _ _ _) as [path|]; [|done].
  apply preserves_forM; [|done]. intros n.
  apply preserves_bind; [apply preserves_gets|]. intros [m|].
  - apply closing_cover_onclick.
  - apply preserves_ret.
Qed.

Lemma closing_ModalImage_new parse options :
  preserves K (ModalImage_new parse options).
Proof.
  unfold ModalImage_new.
  apply preserves_bind; [apply closing_grows, grows_Modal_new|]. intros m.
  apply preserves_bind; [apply preserves_deref|]. intros obj.
  apply preserves_bind; [apply closing_grows, grows_setProperty|]. intros _.
  apply preserves_bind; [apply closing_grows, grows_setProperty|]. intros _.
  apply preserves_ret.
Qed.

(** Fulfilling the promise [d]. *)
Lemma closing_resolve d x :
  K x →
  (on = true →
     (d = q → (T ≤ now x)%Z)
     ∧ (d = p → (T ≤ now x)%Z ∧ node_parent (dom x) c = None)) →
  K (resolve d x).1.
Proof.
  intros (Hwf & (Hat & Haj & Har) & Hp) Hd. unfold resolve, modify. cbn [fst].
  destruct (promise_heap x !! d) as [pr|] eqn:Hpr; [|done].
  destruct (fulfilled pr) eqn:Hful; [done|].
  pose proof (lookup_lt_Some _ _ _ Hpr) as Hlt.
  split; [exact Hwf|]. split.
  - unfold async_ok. cbn. rewrite length_insert. split_and!; [done|..].
    + apply Forall_app. split; [done|]. by apply (Har d pr).
    + intros i pr' Hi. destruct (decide (i = d)) as [->|Hne].
      * rewrite list_lookup_insert_eq in Hi by done. injection Hi as <-.
        constructor.
      * rewrite list_lookup_insert_ne in Hi by done. by apply (Har i pr').
  - intros Hon. specialize (Hp Hon). destruct (Hd Hon) as [Hdq Hdp].
    destruct Hp as (Hobj & Hq & Hpp & Hqp & Ht & Hj & Hr & Hf).
    unfold pending_close. cbn. rewrite length_insert.
    split_and!; try done.
    + apply Forall_app. split; [done|].
      eapply Forall_impl; [exact (Hr d pr Hpr)|]. cbn.
      intros j [Hjq Hjp]. split; [done|]. intros Hj2.
      destruct (Hjp Hj2) as [? ?]. split; [done|]. by apply Hdq.
    + intros i pr' Hi. destruct (decide (i = d)) as [->|Hne].
      * rewrite list_lookup_insert_eq in Hi by done. injection Hi as <-.
        constructor.
      * rewrite list_lookup_insert_ne in Hi by done. by apply (Hr i pr').
    + unfold is_fulfilled. cbn. destruct (decide (p = d)) as [<-|Hne].
      * intros _. by apply Hdp.
      * rewrite list_lookup_insert_ne by done. exact Hf.
Qed.

Lemma closing_tick d x : (0 ≤ d)%Z → K x → K (set_now (now x + d)%Z x).
Proof.
  intros Hd (Hwf & Ha & Hp). split; [exact Hwf|]. split; [exact Ha|].
  intros Hon. destruct (Hp Hon) as (Hobj & Hq & Hpp & Hqp & Ht & Hj & Hr & Hf).
  unfold pending_close. cbn. split_and!; try done.
  - eapply Forall_impl; [exact Hj|]. cbn. intros j [? Hjp]. split; [done|].
    intros Hj2. destruct (Hjp Hj2). split; [done|lia].
  - intros Hful. destruct (Hf Hful). split; [lia|done].
Qed.

Lemma closing_timer ts1 due cb ts2 x :
  timers x = ts1 ++ (due, cb) :: ts2 → (due ≤ now x)%Z → K x →
  K (run_timer cb (upd_timers (λ _, ts1 ++ ts2) x)).1.
Proof.
  intros Hts Hdue (Hwf & (Hat & Haj & Har) & Hp).
  set (x0 := upd_timers (λ _, ts1 ++ ts2) x).
  rewrite Hts in Hat. apply Forall_app in Hat as [Hat1 Hat2].
  apply Forall_cons in Hat2 as [_ Hat2].
  assert (Hcb : on = true →
            timer_target cb ≠ p ∧ (timer_target cb = q → (T ≤ now x)%Z)).
  { intros Hon. destruct (Hp Hon) as (_ & _ & _ & _ & Ht & _).
    rewrite Hts in Ht. apply Forall_app in Ht as [_ Ht].
    apply Forall_cons in Ht as [[Hne Heq] _]. cbn in Hne, Heq.
    split; [done|]. intros Hq. rewrite <- (Heq Hq). exact Hdue. }
  assert (H0 : K x0).
  { split; [exact Hwf|]. split.
    - split_and!; [|done..]. cbn. apply Forall_app. by split.
    - intros Hon.
      destruct (Hp Hon) as (Hobj & Hq & Hpp & Hqp & Ht & Hj & Hr & Hf).
      unfold pending_close. cbn. split_and!; try done.
      rewrite Hts in Ht. apply Forall_app in Ht as [Ht1 Ht2].
      apply Forall_cons in Ht2 as [_ Ht2]. apply Forall_app. by split. }
  destruct cb as [m d|d]; cbn [run_timer timer_target] in *.
  - unfold mbind, M_bind, deref.
    destruct (modal_heap x0 !! m) as [obj|]; [|exact H0].
    pose proof (closing_grows on this c q p T _
                  (grows_setStyle (cover obj) "opacity" "1") x0 H0) as H1.
    cbn [setStyle modify fst] in *.
    apply closing_resolve; [exact H1|].
    intros Hon. destruct (Hcb Hon) as [Hne Hq]. split; [exact Hq|done].
  - apply closing_resolve; [exact H0|].
    intros Hon. destruct (Hcb Hon) as [Hne Hq]. split; [exact Hq|done].
Qed.

Lemma node_parent_detach k ns : node_parent (detach k ns) k = None.
Proof.
  unfold detach. destruct (node_parent ns k) as [pa|] eqn:Hpa; [|done].
  apply node_parent_set. rewrite length_alter.
  by apply (node_parent_lt ns k pa).
Qed.

Lemma closing_job job rest x :
  microtasks x = job :: rest → K x →
  K (run_job job (upd_microtasks (λ _, rest) x)).1.
Proof.
  intros Hjs (Hwf & (Hat & Haj & Har) & Hp).
  set (x0 := upd_microtasks (λ _, rest) x).
  rewrite Hjs in Haj. apply Forall_cons in Haj as [_ Haj].
  assert (H0 : K x0).
  { split; [exact Hwf|]. split; [by split_and!|].
    intros Hon.
    destruct (Hp Hon) as (Hobj & Hq & Hpp & Hqp & Ht & Hj & Hr & Hf).
    unfold pending_close. cbn. split_and!; try done.
    rewrite Hjs in Hj. by apply Forall_cons in Hj as [_ Hj]. }
  destruct job as [[m] d]. unfold run_job, run_reaction. cbn [fst snd].
  unfold mbind, M_bind, deref.
  destruct (modal_heap x0 !! m) as [obj|] eqn:Hobj; [|exact H0].
  assert (H1 : K (remove (cover obj) x0).1).
  { apply (closing_extends on this c q p T x0); [exact H0|..].
    - eapply wf_from_remove_cover; [exact Hobj|by apply wf_from_refl].
    - by apply extends_same. }
  cbn [remove modify fst] in *.
  apply closing_resolve; [exact H1|].
  intros Hon.
  destruct (Hp Hon) as ((obj' & Hobj' & Hc) & _ & _ & _ & _ & Hj & _).
  rewrite Hjs in Hj. apply Forall_cons in Hj as [[Hne Heq] _].
  cbn in Hne, Heq. split; [done|]. intros Hd.
  destruct (Heq Hd) as [[= ->] Hnow]. split; [exact Hnow|].
  cbn. cbn in Hobj. rewrite Hobj' in Hobj. injection Hobj as <-.
  rewrite Hc. apply node_parent_detach.
Qed.

Lemma closing_step parse x x' : step parse x x' → K x → K x'.
Proof.
  intros Hstep H. destruct Hstep.
  - by apply (closing_grows on this c q p T _ (grows_Modal_new _ _ _)).
  - by apply closing_ModalImage_new.
  - by apply (closing_grows on this c q p T _ (grows_close _)).
  - by apply closing_click.
  - by apply closing_tick.
  - by eapply closing_timer.
  - by eapply closing_job.
Qed.

Lemma closing_steps parse x x' : rtc (step parse) x x' → K x → K x'.
Proof.
  induction 1 as [|x y z Hstep _ IH]; [done|].
  intros H. apply IH. by eapply closing_step.
Qed.

End Closing.

Lemma async_ok_page tags : async_ok (page tags).
Proof. split_and!; [constructor|constructor|]. intros i pr Hi. done. Qed.

Lemma reachable_async_ok parse s : reachable parse s → wf s ∧ async_ok s.
Proof.
  intros [tags Hsteps].
  destruct (closing_steps false 0 0 0 0 0%Z parse _ _ Hsteps) as (? & ? & _);
    [|done].
  split; [apply wf_page|]. split; [apply async_ok_page|done].
Qed.

(** ** After [close()] *)

Lemma timer_delay_nonneg d : (0 ≤ timer_delay d)%Z.
Proof. apply Z.le_max_l. Qed.

Lemma timer_delay_small d :
  (0 ≤ d)%Z → (d < 2 ^ 31)%Z → timer_delay d = d.
Proof.
  intros H0 H31. unfold timer_delay, to_int32, to_number, overflows.
  assert (Hbig : (2 ^ 31 < 2 ^ 1024 - 2 ^ 970)%Z) by by vm_compute.
  assert (H32 : (2 ^ 31 < 2 ^ 32)%Z) by by vm_compute.
  rewrite (proj2 (Z.leb_gt _ _)) by lia.
  assert (Hr : round_to_double (Z.abs d) = d).
  { unfold round_to_double. rewrite Z.abs_eq by done.
    destruct (decide (d = 0%Z)) as [->|Hne]; [done|].
    assert (Z.log2 d < 31)%Z by (apply Z.log2_lt_pow2; lia).
    rewrite (proj2 (Z.leb_le _ _)) by lia. done. }
  rewrite Hr.
  assert (Hs : (Z.sgn d * d)%Z = d).
  { destruct (decide (d = 0%Z)) as [->|Hne]; [done|].
    rewrite Z.sgn_pos by lia. lia. }
  rewrite Hs. cbv zeta.
  rewrite Z.mod_small by lia.
  rewrite (proj2 (Z.ltb_lt _ _)) by done. lia.
Qed.

Lemma same_tree_closed this obj s : same_tree (dom s) (dom (closed this obj s)).
Proof.
  unfold closed. cbn. destruct (animated _); [|apply same_tree_refl].
  apply same_tree_alter, cosmetic_style.
Qed.

Lemma modals_same_tree s s' r :
  same_tree (dom s) (dom s') → region_heap s' = region_heap s →
  ModalRegion_modals s' r = ModalRegion_modals s r.
Proof.
  intros [_ Hn] Hr. unfold ModalRegion_modals. rewrite Hr.
  destruct (region_heap s !! r) as [rg|]; [|done]. cbn. f_equal.
  destruct (Hn (element rg)) as (_ & -> & _).
  apply list_fmap_ext. intros _ k _. by destruct (Hn k) as (_ & _ & ? & _).
Qed.

(** A modal whose cover is detached is not in the list of the getter. *)
Lemma modals_query_absent s this obj r l :
  wf s → modal_heap s !! this = Some obj →
  node_parent (dom s) (cover obj) = None →
  ModalRegion_modals s r = Some l → Some this ∉ l.
Proof.
  intros Hwf Hobj Hpar Hl Hin.
  pose proof Hwf as (_ & _ & _ & _ & Hreg).
  destruct (window_modalRegion s) as [r0|].
  2:{ destruct Hreg as [_ Hnil]. by rewrite Hnil in Hobj. }
  destruct Hreg as (_ & e & He & _ & _ & _ & _ & Hmod & Hkids).
  unfold ModalRegion_modals in Hl. rewrite He in Hl.
  destruct r as [|r]; [|by destruct r]. cbn in Hl. injection Hl as <-.
  rewrite Hkids in Hin.
  change (λ child, dom s !! child ≫= modal) with (node_modal (dom s)) in Hin.
  rewrite modals_query_list in Hin.
  2:{ intros m x Hm. by destruct (Hmod m x Hm) as (_&_&_&_&?&_). }
  apply list_elem_of_fmap in Hin as (m & [= <-] & Hm).
  apply list_elem_of_filter in Hm as [Hm _].
  rewrite Hobj in Hm. cbn in Hm. congruence.
Qed.

Lemma closing_closed this obj s :
  wf s → async_ok s → modal_heap s !! this = Some obj →
  closing true this (cover obj) (length (promise_heap s))
    (S (length (promise_heap s))) (close_due obj s) (closed this obj s).
Proof.
  intros Hwf Ha Hobj.
  assert (Hwf' : wf (closed this obj s)).
  { by destruct (wf_from_closed s this obj s (wf_from_refl s Hwf)). }
  assert (Ha' : async_ok (closed this obj s)).
  { eapply async_ok_extends; [exact Ha|].
    pose proof (close_extends this s) as He.
    by rewrite (close_spec this obj s Hobj) in He. }
  split; [exact Hwf'|]. split; [exact Ha'|]. intros _.
  destruct Ha as (Hat & Haj & Har).
  unfold pending_close, close_due.
  cbn [closed modal_heap promise_heap timers microtasks now dom].
  rewrite length_app. cbn [length].
  split_and!; try lia.
  - by exists obj.
  - apply Forall_app. split.
    + eapply Forall_impl; [exact Hat|]. cbn. intros; lia.
    + destruct (animated _); repeat constructor; cbn; lia.
  - apply Forall_app. split.
    + eapply Forall_impl; [exact Haj|]. cbn. intros; lia.
    + destruct (animated _); repeat constructor; cbn; lia.
  - intros i pr Hi. rewrite lookup_tail3 in Hi.
    repeat case_decide.
    + eapply Forall_impl; [exact (Har i pr Hi)|]. cbn. intros; lia.
    + injection Hi as <-. destruct (animated _); repeat constructor; cbn; lia.
    + injection Hi as <-. constructor.
    + by rewrite lookup_nil in Hi.
  - unfold is_fulfilled. cbn [closed promise_heap].
    by rewrite lookup_at_S.
Qed.

Lemma run_removal this obj d x :
  modal_heap x !! this = Some obj →
  run_job (RemoveCover this, d) x
  = ((resolve d (emit (EvRemove (cover obj))
                   (upd_dom (detach (cover obj)) x))).1, Ok tt).
Proof.
  intros Hobj. unfold run_job, run_reaction, deref, remove, resolve.
  cbv [mbind M_bind modify fst snd]. by rewrite Hobj.
Qed.

Lemma resolve_fulfils d x :
  d < length (promise_heap x) → is_fulfilled (resolve d x).1 d = true.
Proof.
  intros Hd. unfold resolve, modify, is_fulfilled. cbn [fst].
  destruct (lookup_lt_is_Some_2 _ _ Hd) as [pr Hpr]. rewrite Hpr.
  destruct (fulfilled pr) eqn:Hf.
  - by rewrite Hpr; cbn.
  - cbn. by rewrite list_lookup_insert_eq.
Qed.

Lemma resolve_frame d x :
  dom (resolve d x).1 = dom x ∧ region_heap (resolve d x).1 = region_heap x
  ∧ modal_heap (resolve d x).1 = modal_heap x
  ∧ now (resolve d x).1 = now x ∧ timers (resolve d x).1 = timers x
  ∧ length (promise_heap (resolve d x).1) = length (promise_heap x).
Proof.
  unfold resolve, modify. cbn [fst].
  destruct (promise_heap x !! d) as [pr|]; [|done].
  destruct (fulfilled pr); [done|]. cbn. by rewrite length_insert.
Qed.

Lemma resolve_pending d x rs :
  promise_heap x !! d = Some (mkPromise false rs) →
  resolve d x
  = (upd_microtasks (λ q, q ++ rs)
       (upd_promise_heap (<[d := mkPromise true []]>) x), Ok tt).
Proof. intros H. unfold resolve, modify. by rewrite H. Qed.

Lemma animated_pos a : animated a = true → (0 < default 0%Z a)%Z.
Proof. destruct a as [t|]; cbn; [|done]. intros H. by apply Z.ltb_lt. Qed.

Lemma close_completes parse this obj s :
  modal_heap s !! this = Some obj → microtasks s = [] →
  ∃ s3, rtc (step parse) (closed this obj s) s3
        ∧ is_fulfilled s3 (S (length (promise_heap s))) = true
        ∧ now s3 = close_due obj s
        ∧ dom s3 = detach (cover obj) (dom (closed this obj s))
        ∧ region_heap s3 = region_heap s.
Proof.
  intros Hobj Hmt. unfold close_due.
  destruct s as [ns w rh mh ph tm mt nw tr]. cbn in Hobj, Hmt. subst mt.
  unfold closed. cbn [dom window_modalRegion region_heap modal_heap
                      promise_heap timers microtasks now trace].
  destruct (animated (animationTime obj)) eqn:Han.
  - set (d := timer_delay (default 0%Z (animationTime obj))) in *.
    pose proof (timer_delay_nonneg (default 0%Z (animationTime obj))) as Hd.
    fold d in Hd.
    eexists. split.
    { eapply rtc_l; [apply (step_tick parse d); lia|].
      eapply rtc_l.
      { eapply (step_timer parse tm _ (DisappearDone (length ph)) []);
          [reflexivity|reflexivity|cbn; lia]. }
      cbn [run_timer].
      erewrite resolve_pending by (cbn; apply lookup_at).
      eapply rtc_l; [|apply rtc_refl].
      eapply (step_job parse (RemoveCover this, S (length ph)) []).
      reflexivity. }
    rewrite (run_removal this obj) by exact Hobj. cbn [fst].
    split.
    { apply resolve_fulfils. cbn. rewrite length_insert, length_app. cbn. lia. }
    match goal with |- context [resolve ?k ?x] =>
      destruct (resolve_frame k x) as (-> & -> & _ & -> & _) end.
    cbn. split_and!; try done.
  - eexists. split.
    { eapply rtc_l; [|apply rtc_refl].
      eapply (step_job parse (RemoveCover this, S (length ph)) []).
      reflexivity. }
    rewrite (run_removal this obj) by exact Hobj. cbn [fst].
    split; [apply resolve_fulfils; cbn; rewrite length_app; cbn; lia|].
    match goal with |- context [resolve ?k ?x] =>
      destruct (resolve_frame k x) as (-> & -> & _ & -> & _) end.
    cbn. split_and!; try done. lia.
Qed.

(** C7 as stated does not hold: the timer of [disappear()] waits for the
    32-bit conversion of the animation time, not for the time itself.  With
    the animation time 2^31 the timer is due at once, and the promise of
    [close()] is fulfilled while the clock still shows the time of the
    call. *)
Lemma close_resolves_before_duration :
  ¬ (∀ parse s this obj t,
       reachable parse s →
       modal_heap s !! this = Some obj →
       animationTime obj = Some t → (0 < t)%Z →
       ∀ s2, rtc (step parse) (closed this obj s) s2 →
             is_fulfilled s2 (S (length (promise_heap s))) = true →
             (now s + t ≤ now s2)%Z).
Proof.
  intros H.
  set (options := Some (mkModalOptions None None None (Some 2147483648%Z)
                          {["fadeTime"]})).
  set (s := (Modal_new parse_demo ClassModal options (page ["p"])).1).
  set (obj := mkModal 0 3 4 (Some 2147483648%Z)).
  set (s1 := (run_timer (DisappearDone 1)
                (upd_timers (λ _, [(0%Z, AppearTick 0 0)] ++ [])
                   (closed 0 obj s))).1).
  set (s2 := (run_job (RemoveCover 0, 2) (upd_microtasks (λ _, []) s1)).1).
  assert (Hr : reachable parse_demo s).
  { exists ["p"]. apply rtc_once. apply step_Modal. }
  assert (Hobj : modal_heap s !! 0 = Some obj) by by vm_compute.
  assert (Hsteps : rtc (step parse_demo) (closed 0 obj s) s2).
  { eapply rtc_l.
    { apply (step_timer parse_demo [(0%Z, AppearTick 0 0)] 0%Z
               (DisappearDone 1) []); by vm_compute. }
    apply rtc_once.
    apply (step_job parse_demo (RemoveCover 0, 2) []). by vm_compute. }
  assert (Hful : is_fulfilled s2 (S (length (promise_heap s))) = true)
    by by vm_compute.
  specialize (H parse_demo s 0 obj 2147483648%Z Hr Hobj eq_refl eq_refl
                s2 Hsteps Hful).
  assert (Hn : now s = 0%Z) by by vm_compute.
  assert (Hn2 : now s2 = 0%Z) by by vm_compute.
  rewrite Hn, Hn2 in H. lia.
Qed.

(** C7, amended.  For a modal with a positive animation time [t],
    [close()] returns a promise that is pending at return; in every later
    state of the page in which that promise is fulfilled the clock has
    advanced since the call by at least the delay of the timer of
    [disappear()], which is [t] converted to a 32-bit integer and not less
    than 0, so by at least [t] itself when [t] is below 2^31; in such a
    state the cover is detached and the modal is not in the list of the
    region's [modals] getter; and on a page with no promise job waiting the
    promise is fulfilled once that delay has elapsed. *)
Theorem close_resolves_after_duration parse s this obj t :
  reachable parse s →
  modal_heap s !! this = Some obj →
  animationTime obj = Some t → (0 < t)%Z →
  let p := S (length (promise_heap s)) in
  close this s = (closed this obj s, Ok p)
  ∧ is_fulfilled (closed this obj s) p = false
  ∧ (∀ s2, rtc (step parse) (closed this obj s) s2 →
       is_fulfilled s2 p = true →
       (now s + timer_delay t ≤ now s2)%Z
       ∧ ((t < 2 ^ 31)%Z → (now s + t ≤ now s2)%Z)
       ∧ node_parent (dom s2) (cover obj) = None
       ∧ ∀ r l, ModalRegion_modals s2 r = Some l → Some this ∉ l)
  ∧ (microtasks s = [] →
     ∃ s3, rtc (step parse) (closed this obj s) s3
           ∧ is_fulfilled s3 p = true
           ∧ now s3 = (now s + timer_delay t)%Z).
Proof.
  intros Hreach Hobj Ht Hpos p.
  destruct (reachable_async_ok parse s Hreach) as [Hwf Ha].
  assert (Hdue : close_due obj s = (now s + timer_delay t)%Z).
  { unfold close_due. rewrite Ht. cbn [animated default].
    by rewrite (proj2 (Z.ltb_lt _ _)) by done. }
  split; [by apply close_spec|]. split.
  { unfold is_fulfilled, closed, p. cbn [promise_heap]. by rewrite lookup_at_S. }
  split.
  - intros s2 Hsteps Hful.
    pose proof (closing_closed this obj s Hwf Ha Hobj) as H0.
    destruct (closing_steps _ _ _ _ _ _ parse _ _ Hsteps H0) as (Hwf2 & _ & Hp).
    destruct (Hp eq_refl) as ((obj' & Hobj' & Hc) & _ & _ & _ & _ & _ & _ & Hf).
    destruct (Hf Hful) as [Hnow Hpar]. rewrite Hdue in Hnow.
    split; [exact Hnow|].
    split; [intros H31; rewrite timer_delay_small in Hnow by lia; exact Hnow|].
    split; [exact Hpar|].
    intros r l Hl. rewrite <- Hc in Hpar.
    by apply (modals_query_absent s2 this obj' r l).
  - intros Hmt.
    destruct (close_completes parse this obj s Hobj Hmt)
      as (s3 & Hsteps & Hful & Hnow & _).
    exists s3. by rewrite <- Hdue.
Qed.

Lemma close_resolves_after_duration_witness :
  let s := (Modal_new parse_demo ClassModal None (page ["p"])).1 in
  let obj := mkModal 0 3 4 (Some 250%Z) in
  reachable parse_demo s ∧ modal_heap s !! 0 = Some obj
  ∧ close 0 s = (closed 0 obj s, Ok 2)
  ∧ is_fulfilled (closed 0 obj s) 2 = false
  ∧ ∃ s3, rtc (step parse_demo) (closed 0 obj s) s3
          ∧ is_fulfilled s3 2 = true ∧ now s3 = 250%Z.
Proof.
  intros s obj.
  assert (Hr : reachable parse_demo s).
  { exists ["p"]. apply rtc_once. apply step_Modal. }
  assert (Hobj : modal_heap s !! 0 = Some obj) by by vm_compute.
  assert (Hmt : microtasks s = []) by by vm_compute.
  destruct (close_resolves_after_duration parse_demo s 0 obj 250%Z Hr Hobj
              eq_refl eq_refl) as (Hc & Hf & _ & Hlive).
  split; [exact Hr|]. split; [exact Hobj|].
  split; [exact Hc|]. split; [exact Hf|].
  exact (Hlive Hmt).
Defined.

(** ** Closing twice *)

(** C10. For a modal whose cover is already detached, [close()] returns a
    promise without raising; at return the children of every node, and so
    the list of the region's [modals] getter, are as before the call; in
    every later state the cover is still detached, and the job that removes
    the cover completes without error, leaves the tree and the getter's list
    as they are and fulfils the promise; on a page with no promise job
    waiting the promise does get fulfilled, with the children of every node
    and the getter's list as before the call. *)
Theorem double_close parse s this obj :
  reachable parse s →
  modal_heap s !! this = Some obj →
  node_parent (dom s) (cover obj) = None →
  let p := S (length (promise_heap s)) in
  let s1 := closed this obj s in
  close this s = (s1, Ok p)
  ∧ (∀ e, node_children (dom s1) e = node_children (dom s) e)
  ∧ (∀ r, ModalRegion_modals s1 r = ModalRegion_modals s r)
  ∧ (∀ s2, rtc (step parse) s1 s2 →
       node_parent (dom s2) (cover obj) = None
       ∧ ∃ s3, run_job (RemoveCover this, p) s2 = (s3, Ok tt)
               ∧ dom s3 = dom s2
               ∧ (∀ r, ModalRegion_modals s3 r = ModalRegion_modals s2 r)
               ∧ is_fulfilled s3 p = true)
  ∧ (microtasks s = [] →
     ∃ s3, rtc (step parse) s1 s3 ∧ is_fulfilled s3 p = true
           ∧ (∀ e, node_children (dom s3) e = node_children (dom s) e)
           ∧ ∀ r, ModalRegion_modals s3 r = ModalRegion_modals s r).
Proof.
  intros Hreach Hobj Hpar p s1.
  destruct (reachable_async_ok parse s Hreach) as [Hwf Ha].
  pose proof (same_tree_closed this obj s) as Hsame. fold s1 in Hsame.
  assert (Hpar1 : node_parent (dom s1) (cover obj) = None).
  { destruct Hsame as [_ Hn]. destruct (Hn (cover obj)) as (-> & _). done. }
  pose proof (closing_closed this obj s Hwf Ha Hobj) as H0. fold s1 in H0.
  split; [by apply close_spec|].
  split; [intros e; by destruct Hsame as [_ Hn]; destruct (Hn e) as (_ & ? & _)|].
  split; [intros r; by apply modals_same_tree|].
  split.
  - intros s2 Hsteps.
    destruct (closing_steps _ _ _ _ _ _ parse _ _ Hsteps H0) as (Hwf2 & _ & Hp).
    destruct (Hp eq_refl) as (_ & _ & Hlt & _).
    destruct H0 as (Hwf1 & _).
    destruct (steps_wf_from parse s1 s2 Hsteps Hwf1)
      as [_ (_ & Hnodes & Hheap & _)].
    assert (Hobj2 : modal_heap s2 !! this = Some obj) by by apply Hheap.
    assert (Hpar2 : node_parent (dom s2) (cover obj) = None).
    { pose proof (cover_in_store s1 this obj Hwf1 Hobj) as Hc.
      destruct (Hnodes _ Hc) as (_ & _ & [-> | ->]); done. }
    split; [exact Hpar2|]. eexists. split; [by apply run_removal|].
    match goal with |- context [resolve ?k ?x] =>
      pose proof (resolve_fulfils k x) as Hful;
      destruct (resolve_frame k x) as (Hd & Hr & _) end.
    assert (Hd' : dom (resolve p (emit (EvRemove (cover obj))
                    (upd_dom (detach (cover obj)) s2))).1 = dom s2).
    { rewrite Hd. cbn. by apply detach_parentless. }
    split; [exact Hd'|]. split.
    + intros r. apply modals_same_tree; [|by rewrite Hr].
      rewrite Hd'. apply same_tree_refl.
    + apply Hful. exact Hlt.
  - intros Hmt.
    destruct (close_completes parse this obj s Hobj Hmt)
      as (s3 & Hsteps & Hful & _ & Hd & Hr).
    fold s1 in Hsteps, Hd. rewrite (detach_parentless _ _ Hpar1) in Hd.
    exists s3. split; [exact Hsteps|]. split; [exact Hful|].
    rewrite <- Hd in Hsame. split.
    + intros e. by destruct Hsame as [_ Hn]; destruct (Hn e) as (_ & ? & _).
    + intros r. by apply modals_same_tree.
Qed.

Lemma double_close_witness :
  let options := Some (mkModalOptions None None None (Some 0%Z) {["fadeTime"]}) in
  let s0 := (Modal_new parse_demo ClassModal options (page ["p"])).1 in
  let sa := (close 0 s0).1 in
  let s := (run_job (RemoveCover 0, 2) (upd_microtasks (λ _, []) sa)).1 in
  let obj := mkModal 0 3 4 (Some 0%Z) in
  reachable parse_demo s ∧ modal_heap s !! 0 = Some obj
  ∧ node_parent (dom s) (cover obj) = None
  ∧ close 0 s = (closed 0 obj s, Ok (S (length (promise_heap s))))
  ∧ (∀ r, ModalRegion_modals (closed 0 obj s) r = ModalRegion_modals s r)
  ∧ ∃ s3, rtc (step parse_demo) (closed 0 obj s) s3
          ∧ is_fulfilled s3 (S (length (promise_heap s))) = true
          ∧ ∀ r, ModalRegion_modals s3 r = ModalRegion_modals s r.
Proof.
  intros options s0 sa s obj.
  assert (Hr : reachable parse_demo s).
  { exists ["p"].
    eapply rtc_l; [apply (step_Modal parse_demo ClassModal options)|].
    eapply rtc_l; [apply (step_close parse_demo 0); by vm_compute|].
    eapply rtc_l; [|apply rtc_refl].
    apply (step_job parse_demo (RemoveCover 0, 2) []). by vm_compute. }
  assert (Hobj : modal_heap s !! 0 = Some obj) by by vm_compute.
  assert (Hpar : node_parent (dom s) (cover obj) = None) by by vm_compute.
  assert (Hmt : microtasks s = []) by by vm_compute.
  destruct (double_close parse_demo s 0 obj Hr Hobj Hpar)
    as (Hc & _ & Hm & _ & Hlive).
  split; [exact Hr|]. split; [exact Hobj|]. split; [exact Hpar|].
  split; [exact Hc|]. split; [exact Hm|].
  destruct (Hlive Hmt) as (s3 & Hsteps & Hful & _ & Hm3).
  exists s3. by split_and!.
Defined.

(** * Further properties of the library *)

(** ** dom/isNested *)

Lemma proper_ancestor_trans ns a b d :
  proper_ancestor ns a b → proper_ancestor ns b d → proper_ancestor ns a d.
Proof.
  intros Hab. induction 1 as [d Hp|d p Hp _ IH].
  - by eapply ancestor_up.
  - by eapply ancestor_up.
Qed.

Lemma isNested_true s d a :
  wf s → d < length (dom s) →
  isNested d a s = (s, Ok true) ↔ proper_ancestor (dom s) a d.
Proof.
  intros Hwf Hd. destruct (isNested_spec s d a Hwf Hd) as (b & -> & Hb).
  rewrite <- Hb. split; [by intros [= ->]|by intros ->].
Qed.

Lemma isNested_false s d a :
  wf s → d < length (dom s) →
  isNested d a s = (s, Ok false) ↔ ¬ proper_ancestor (dom s) a d.
Proof.
  intros Hwf Hd. destruct (isNested_spec s d a Hwf Hd) as (b & -> & Hb).
  rewrite <- Hb. destruct b; split; done.
Qed.

(** X1. On every page the library can produce, [isNested(descendant,
    ancestor)] returns, without touching the page, and its result is [true]
    exactly when [ancestor] is reached from [descendant] by following
    [parentNode] one or more times. *)
Theorem isNested_decides_ancestry parse s d a :
  reachable parse s → d < length (dom s) →
  ∃ b, isNested d a s = (s, Ok b)
       ∧ (b = true ↔ proper_ancestor (dom s) a d).
Proof.
  intros Hr Hd. pose proof (reachable_wf parse s Hr) as (_ & _ & Ht & _).
  destruct (isNested_loop_spec (dom s) a Ht (length (dom s)) d Hd)
    as (b & Hb & Hspec).
  exists b. split; [|exact Hspec]. unfold isNested. by rewrite Hb.
Qed.

Lemma isNested_decides_ancestry_witness :
  let options := Some (mkModalOptions None (Some "<b><i>x</i></b>")
                         None None ∅) in
  let s := (Modal_new parse_demo ClassModal options (page ["p"])).1 in
  reachable parse_demo s ∧ 6 < length (dom s)
  ∧ isNested 6 3 s = (s, Ok true) ∧ isNested 6 1 s = (s, Ok false).
Proof.
  intros options s.
  assert (Hr : reachable parse_demo s).
  { exists ["p"]. apply rtc_once. apply step_Modal. }
  assert (Hd : 6 < length (dom s)) by by vm_compute.
  split; [exact Hr|]. split; [exact Hd|].
  destruct (isNested_decides_ancestry parse_demo s 6 3 Hr Hd) as (b & Hb & _).
  destruct (isNested_decides_ancestry parse_demo s 6 1 Hr Hd) as (b' & Hb' & _).
  assert (H3 : (isNested 6 3 s).2 = Ok true) by by vm_compute.
  assert (H1 : (isNested 6 1 s).2 = Ok false) by by vm_compute.
  rewrite Hb in H3. rewrite Hb' in H1. cbn in H3, H1.
  injection H3 as ->. injection H1 as ->. by split.
Defined.

(** X2. On every page the library can produce, [isNested] is a strict
    order on the nodes: no node is nested under itself (which is why the
    click listener tests [event.target === this.content] separately), the
    relation is transitive, and two nodes are never nested under each
    other. *)
Theorem isNested_strict_order parse s x y z :
  reachable parse s → x < length (dom s) → y < length (dom s) →
  isNested x x s = (s, Ok false)
  ∧ (isNested x y s = (s, Ok true) → isNested y z s = (s, Ok true) →
     isNested x z s = (s, Ok true))
  ∧ (isNested x y s = (s, Ok true) → isNested y x s = (s, Ok false)).
Proof.
  intros Hr Hx Hy. pose proof (reachable_wf parse s Hr) as Hwf.
  pose proof Hwf as (_ & _ & Ht & _).
  split_and!.
  - apply isNested_false; [done..|]. intros H.
    apply (proper_ancestor_lt _ _ _ Ht) in H. lia.
  - intros Hxy Hyz. apply isNested_true in Hxy, Hyz; try done.
    apply isNested_true; try done.
    exact (proper_ancestor_trans _ _ _ _ Hyz Hxy).
  - intros Hxy. apply isNested_true in Hxy; try done.
    apply isNested_false; try done. intros Hyx.
    apply (proper_ancestor_lt _ _ _ Ht) in Hxy, Hyx. lia.
Qed.

Lemma isNested_strict_order_witness :
  let options := Some (mkModalOptions None (Some "<b><i>x</i></b>")
                         None None ∅) in
  let s := (Modal_new parse_demo ClassModal options (page ["p"])).1 in
  reachable parse_demo s ∧ isNested 4 4 s = (s, Ok false)
  ∧ (isNested 6 5 s = (s, Ok true) → isNested 5 4 s = (s, Ok true) →
     isNested 6 4 s = (s, Ok true)).
Proof.
  intros options s.
  assert (Hr : reachable parse_demo s).
  { exists ["p"]. apply rtc_once. apply step_Modal. }
  assert (H4 : 4 < length (dom s)) by (vm_compute; lia).
  assert (H5 : 5 < length (dom s)) by (vm_compute; lia).
  assert (H6 : 6 < length (dom s)) by by vm_compute.
  split; [exact Hr|].
  split; [exact (proj1 (isNested_strict_order parse_demo s 4 4 4 Hr H4 H4))|].
  exact (proj1 (proj2 (isNested_strict_order parse_demo s 6 5 4 Hr H6 H5))).
Defined.

(** ** dom/makeElement *)





(** ** modalRegion *)

(** X4. On a page with a body, [new ModalRegion()] creates the container
    (a [div] with the attribute [data-modal-region]), makes it the first
    child of the body in front of the children the body already has, whose
    order is kept, and publishes the new region on [window], replacing any
    region published before; no other node changes and the getter of the new
    region lists no modal. *)
Theorem ModalRegion_new_first_child s :
  0 < length (dom s) →
  let e := length (dom s) in
  let r := length (region_heap s) in
  ∃ s', ModalRegion_new s = (s', Ok r)
        ∧ dom s' = alter (set_children (cons e)) document_body (dom s)
                     ++ [region_node]
        ∧ node_children (dom s') document_body
          = e :: node_children (dom s) document_body
        ∧ (∀ i, 0 < i → i < length (dom s) → dom s' !! i = dom s !! i)
        ∧ window_modalRegion s' = Some r
        ∧ region_heap s' = region_heap s ++ [mkModalRegion e]
        ∧ ModalRegion_modals s' r = Some []
        ∧ modal_heap s' = modal_heap s.
Proof.
  intros Hlen e r. destruct s as [ns w rh mh ph tm mt nw tr].
  cbn [dom region_heap] in *. subst e r.
  destruct (lookup_lt_is_Some_2 ns 0 Hlen) as [b Hb].
  assert (Hkids : node_children ns 0 = children b)
    by (unfold node_children; by rewrite Hb).
  assert (Hres : ∃ ev, ModalRegion_new (mkState ns w rh mh ph tm mt nw tr)
    = (mkState (alter (set_children (cons (length ns))) document_body ns
                  ++ [region_node])
         (Some (length rh)) (rh ++ [mkModalRegion (length ns)]) mh ph tm mt nw
         (tr ++ [EvCreateElement "div" (length ns);
                 EvSetAttribute (length ns) "data-modal-region" ""; ev]),
       Ok (length rh))).
  { unfold ModalRegion_new. mrun. unfold insertBefore, document_body in *.
    rewrite alter_at. unfold firstChild. rewrite !node_children_app by done.
    rewrite Hkids.
    destruct (children b) as [|k ks] eqn:Hks; cbn [head]; mrun;
      rewrite ?node_children_app, ?Hkids, ?decide_True by (done || left);
      unfold attach_last;
      rewrite detach_parentless by (unfold node_parent; by rewrite lookup_at);
      rewrite alter_at, alter_below by done;
      rewrite (list_alter_ext _ (set_children (cons (length ns))) ns ns 0);
      [| intros x Hx; simplify_eq; unfold set_children; rewrite Hks; simpl;
         by rewrite ?decide_True | done
       | | intros x Hx; simplify_eq; unfold set_children; rewrite Hks; simpl;
         by rewrite ?decide_True | done ];
      eexists; rewrite <- !app_assoc; reflexivity. }
  destruct Hres as [ev Hres]. eexists. split; [exact Hres|].
  cbn [dom window_modalRegion region_heap modal_heap].
  split; [done|]. split.
  { rewrite node_children_app by by rewrite length_alter.
    unfold document_body. rewrite node_children_alter_eq by done.
    done. }
  split.
  { intros i Hi Hlt. rewrite lookup_app_l by by rewrite length_alter.
    apply list_lookup_alter_ne. unfold document_body. lia. }
  split; [done|]. split; [done|]. split; [|done].
  unfold ModalRegion_modals. cbn [region_heap dom].
  rewrite lookup_at. cbn [mbind option_bind element]. f_equal.
  unfold node_children.
  by rewrite (lookup_at_len _ _ _ (length ns)) by apply length_alter.
Qed.

Lemma ModalRegion_new_first_child_witness :
  ∃ s', ModalRegion_new (page ["p"; "q"]) = (s', Ok 0)
        ∧ node_children (dom s') document_body = [3; 1; 2].
Proof.
  destruct (ModalRegion_new_first_child (page ["p"; "q"]))
    as (s' & Hnew & _ & Hkids & _); [cbn; lia|].
  exists s'. split; [exact Hnew|exact Hkids].
Defined.

(** ** Modal: construction *)

Lemma modals_query_attached s e :
  wf s → region_heap s = [mkModalRegion e] →
  ModalRegion_modals s 0 = Some (Some <$> attached_modals s e).
Proof.
  intros Hwf Hr. unfold ModalRegion_modals. rewrite Hr. cbn. f_equal.
  destruct Hwf as (_ & _ & _ & _ & Hreg).
  destruct (window_modalRegion s) as [r0|].
  2:{ destruct Hreg as [Hnil _]. by rewrite Hnil in Hr. }
  destruct Hreg as (_ & e' & He & _ & _ & _ & _ & Hmod & Hkids).
  rewrite He in Hr. injection Hr as ->. rewrite Hkids.
  apply modals_query_list. intros m obj Hm.
  by destruct (Hmod m obj Hm) as (_&_&_&_&?&_).
Qed.

Lemma attached_modals_constructed cls o s1 e con sub :
  wf s1 → region_heap s1 = [mkModalRegion e] →
  attached_modals (constructed cls o s1 e con sub) e
  = attached_modals s1 e ++ [length (modal_heap s1)].
Proof.
  intros Hwf Hr. unfold attached_modals.
  cbn [constructed modal_heap]. rewrite length_app, seq_app, filter_app.
  cbn [length seq Nat.add]. f_equal.
  - apply filter_ext_in. intros m Hm. apply elem_of_seq in Hm.
    unfold cover_parent. cbn [constructed modal_heap dom].
    rewrite lookup_app_l by lia.
    destruct (modal_heap s1 !! m) as [obj|] eqn:Hobj; [|done]. cbn.
    pose proof (cover_in_store s1 m obj Hwf Hobj) as Hc.
    rewrite node_parent_app by by rewrite length_alter.
    by rewrite node_parent_alter.
  - rewrite filter_cons, filter_nil, decide_True; [done|].
    unfold cover_parent. rewrite constructed_modal.
    cbn [mbind option_bind cover].
    unfold node_parent. by rewrite constructed_cover.
Qed.

(** X5. A successful construction puts the new modal last in the list of
    the region's [modals] getter, after the modals that were listed before
    and in their order (on a page without a region the list before is
    empty); the new modal is the next object of its class. *)
Theorem Modal_new_stacks_last parse cls options s s' this :
  reachable parse s →
  Modal_new parse cls options s = (s', Ok this) →
  this = length (modal_heap s)
  ∧ ModalRegion_modals s' 0
    = Some (default [] (ModalRegion_modals s 0) ++ [Some this]).
Proof.
  intros Hreach Hnew. pose proof (reachable_wf parse s Hreach) as Hwf.
  destruct (Modal_new_spec parse cls options s Hwf)
    as (s1 & e & revs & _ & Hwf1 & Hw & Hr & Hm & _ & _ & _ & _ & _ & Hcase & Hres).
  case_decide; [by rewrite Hres in Hnew|].
  destruct Hres as (con & sub & Hres & Hfill).
  rewrite Hres in Hnew. injection Hnew as <- <-.
  split; [by rewrite Hm|].
  rewrite (modals_query_attached _ e);
    [|by apply wf_constructed|done].
  rewrite attached_modals_constructed, fmap_app by done. cbn [fmap list_fmap].
  f_equal. f_equal.
  destruct Hcase as [(_ & -> & _)|(Hnone & _)].
  - by rewrite (modals_query_attached s e).
  - pose proof Hwf as (_ & _ & _ & _ & Hx). rewrite Hnone in Hx.
    destruct Hx as [Hrh Hmh]. unfold ModalRegion_modals, attached_modals.
    by rewrite Hrh, Hm, Hmh.
Qed.

Lemma Modal_new_stacks_last_witness :
  let s := (Modal_new parse_demo ClassModal None (page ["p"])).1 in
  let s' := (Modal_new parse_demo ClassModalImage None s).1 in
  reachable parse_demo s
  ∧ Modal_new parse_demo ClassModalImage None s = (s', Ok 1)
  ∧ ModalRegion_modals s' 0
    = Some (default [] (ModalRegion_modals s 0) ++ [Some 1]).
Proof.
  intros s s'.
  assert (Hr : reachable parse_demo s).
  { exists ["p"]. apply rtc_once. apply step_Modal. }
  assert (Hnew : Modal_new parse_demo ClassModalImage None s = (s', Ok 1)).
  { assert (H2 : (Modal_new parse_demo ClassModalImage None s).2 = Ok 1)
      by by vm_compute.
    unfold s'. destruct (Modal_new _ _ _ s) as [x r]. cbn in *. by subst. }
  split; [exact Hr|]. split; [exact Hnew|].
  exact (proj2 (Modal_new_stacks_last parse_demo ClassModalImage None s s' 1
                  Hr Hnew)).
Defined.

Lemma Modal_new_parser_free parse parse' cls o s :
  opt_innerHTML o = None ∨ opt_innerHTML o = Some "" →
  Modal_new parse' cls (Some o) s = Modal_new parse cls (Some o) s.
Proof.
  intros H. unfold Modal_new. cbv zeta. cbn [default]. unfold id.
  destruct H as [-> | ->]; reflexivity.
Qed.

(** X6. With the [textContent] option alone the text is stored as it is:
    the construction succeeds, the content element gets the text as its
    [innerText] and [textContent] properties and has no child element, two
    nodes are added to the page (three when the region had to be created),
    and the HTML parser is not involved, whatever the text looks like. *)
Theorem text_content_verbatim parse parse' cls o t s :
  reachable parse s →
  opt_textContent o = Some t → opt_innerHTML o = None →
  ∃ s' this obj nd,
    Modal_new parse cls (Some o) s = (s', Ok this)
    ∧ Modal_new parse' cls (Some o) s = (s', Ok this)
    ∧ modal_heap s' !! this = Some obj
    ∧ dom s' !! content obj = Some nd
    ∧ properties nd = <["textContent" := t]> (<["innerText" := t]> ∅)
    ∧ children nd = []
    ∧ length (dom s')
      = length (dom s)
        + match window_modalRegion s with Some _ => 2 | None => 3 end.
Proof.
  intros Hreach Ht Hh. pose proof (reachable_wf parse s Hreach) as Hwf.
  destruct (Modal_new_spec parse cls (Some o) s Hwf)
    as (s1 & e & revs & _ & _ & _ & _ & _ & _ & _ & _ & _ & _ & Hcase & Hres).
  change (default no_options (Some o)) with o in Hres.
  rewrite decide_False in Hres by (intros [? _]; done).
  destruct Hres as (con & sub & Hres & [Hcon _]).
  unfold has_markup in Hcon. rewrite Hh in Hcon. destruct Hcon as [-> ->].
  eexists _, _, _, _. split; [exact Hres|].
  split; [rewrite <- Hres; apply Modal_new_parser_free; by left|].
  split; [apply constructed_modal|].
  split; [apply constructed_content|].
  unfold text_content. rewrite Ht.
  split; [by destruct cls|]. split; [done|].
  cbn [constructed dom]. rewrite length_app, length_alter. cbn [length].
  destruct Hcase as [(-> & -> & _)|(-> & _ & -> & _)].
  - lia.
  - rewrite length_app, length_alter. cbn. lia.
Qed.

Lemma text_content_verbatim_witness :
  let o := mkModalOptions (Some "<b><i>x</i></b>") None None None ∅ in
  reachable parse_demo (page ["p"])
  ∧ ∃ s' this obj nd,
      Modal_new parse_demo ClassModal (Some o) (page ["p"]) = (s', Ok this)
      ∧ modal_heap s' !! this = Some obj
      ∧ dom s' !! content obj = Some nd
      ∧ children nd = [] ∧ length (dom s') = 5.
Proof.
  intros o.
  assert (Hr : reachable parse_demo (page ["p"])) by by exists ["p"].
  split; [exact Hr|].
  destruct (text_content_verbatim parse_demo parse_demo ClassModal o
              "<b><i>x</i></b>" (page ["p"]) Hr eq_refl eq_refl)
    as (s' & this & obj & nd & H1 & _ & H2 & H3 & _ & H4 & H5).
  exists s', this, obj, nd. by split_and!.
Defined.

Lemma acquire_keeps_nodes s s1 e revs i :
  ((window_modalRegion s = Some 0 ∧ s1 = s ∧ revs = [])
   ∨ (window_modalRegion s = None ∧ e = length (dom s) ∧
      dom s1 = alter (set_children (cons e)) document_body (dom s)
                 ++ [region_node] ∧
      ∃ ev, revs = [EvCreateElement "div" e;
                    EvSetAttribute e "data-modal-region" ""; ev] ∧
            (ev = EvAppendChild document_body e
             ∨ ∃ r, ev = EvInsertBefore document_body e (Some r)))) →
  0 < i → i < length (dom s) →
  dom s1 !! i = dom s !! i ∧ i < length (dom s1).
Proof.
  intros [(_ & -> & _)|(_ & _ & -> & _)] H0 Hi; [done|].
  rewrite length_app, length_alter. split; [|lia].
  rewrite lookup_app_l by by rewrite length_alter.
  apply list_lookup_alter_ne. unfold document_body. lia.
Qed.

(** X7. Constructing a modal, whether it succeeds or fails with the
    configuration error, leaves every node the page already has as it is,
    apart from the body and the region's container, and leaves every modal
    object as it is: the elements of other modals keep their attributes,
    styles, listeners, parents and children. *)
Theorem Modal_new_leaves_nodes parse cls options s :
  reachable parse s →
  let s' := (Modal_new parse cls options s).1 in
  (∀ i, 0 < i → i < length (dom s) →
        (∀ rg, rg ∈ region_heap s → i ≠ element rg) →
        dom s' !! i = dom s !! i)
  ∧ (∀ m obj, modal_heap s !! m = Some obj → modal_heap s' !! m = Some obj).
Proof.
  intros Hreach s'. pose proof (reachable_wf parse s Hreach) as Hwf.
  split.
  2:{ by destruct (Modal_new_ext parse cls options s Hwf) as (_ & _ & ? & _). }
  intros i H0 Hi Hne. unfold s'.
  destruct (Modal_new_spec parse cls options s Hwf)
    as (s1 & e & revs & _ & _ & _ & Hr & _ & _ & _ & _ & _ & _ & Hcase & Hres).
  destruct (acquire_keeps_nodes s s1 e revs i Hcase H0 Hi) as [<- Hi1].
  case_decide.
  - rewrite Hres. cbn [fst building dom]. by rewrite lookup_app_l.
  - destruct Hres as (con & sub & -> & _). cbn [fst constructed dom].
    rewrite lookup_app_l by by rewrite length_alter.
    apply list_lookup_alter_ne.
    destruct Hcase as [(_ & -> & _)|(_ & -> & _)]; [|lia].
    intros ->. apply (Hne (mkModalRegion i)); [|done].
    rewrite Hr. by left.
Qed.

Lemma Modal_new_leaves_nodes_witness :
  let s := (Modal_new parse_demo ClassModal None (page ["p"])).1 in
  let s' := (Modal_new parse_demo ClassModalImage None s).1 in
  reachable parse_demo s ∧ dom s' !! 3 = dom s !! 3 ∧ dom s' !! 1 = dom s !! 1.
Proof.
  intros s s'.
  assert (Hr : reachable parse_demo s).
  { exists ["p"]. apply rtc_once. apply step_Modal. }
  assert (H3 : 3 < length (dom s)) by (vm_compute; lia).
  assert (H1 : 1 < length (dom s)) by (vm_compute; lia).
  assert (Hne : ∀ i, i ≠ 2 → ∀ rg, rg ∈ region_heap s → i ≠ element rg).
  { intros i Hi rg Hrg.
    assert (Hh : region_heap s = [mkModalRegion 2]) by by vm_compute.
    rewrite Hh in Hrg. apply list_elem_of_singleton in Hrg as ->. exact Hi. }
  destruct (Modal_new_leaves_nodes parse_demo ClassModalImage None s Hr)
    as [Hnodes _].
  split; [exact Hr|]. split.
  - apply Hnodes; [lia|exact H3|apply Hne; lia].
  - apply Hnodes; [lia|exact H1|apply Hne; lia].
Defined.

(** ** ModalImage *)

Lemma content_filled_img o n con sub :
  content_filled ClassModalImage o n con sub →
  tagName con = "img"
  ∧ attributes con = <["class" := "modal-content modal-image"]> ∅.
Proof.
  intros [Hcon _]. unfold text_content in Hcon.
  destruct (has_markup o).
  - destruct Hcon as (-> & -> & _). by destruct (opt_textContent o).
  - destruct Hcon as [-> _]. by destruct (opt_textContent o).
Qed.

(** X8. [new ModalImage(options)] runs the constructor of [Modal] and then
    sets the image source.  With conflicting content options it fails exactly
    as [Modal] does, and no source is assigned.  Otherwise it returns, the
    content element is an [img] with the class [modal-content modal-image],
    placed in the cover, its [src] is the given source, or the empty string
    when none is given, and its [alt] is empty. *)
Theorem ModalImage_new_content parse options s :
  reachable parse s →
  let o := opt_base options in
  (conflicting o →
     ModalImage_new parse options s
     = ((Modal_new parse ClassModalImage (Some o) s).1,
        Throw configuration_error))
  ∧ (¬ conflicting o →
     ∃ s' this obj nd,
       ModalImage_new parse options s = (s', Ok this)
       ∧ this = length (modal_heap s)
       ∧ modal_heap s' !! this = Some obj
       ∧ dom s' !! content obj = Some nd
       ∧ tagName nd = "img"
       ∧ attributes nd = <["class" := "modal-content modal-image"]> ∅
       ∧ properties nd !! "src" = Some (default "" (opt_src options))
       ∧ properties nd !! "alt" = Some ""
       ∧ parentNode nd = Some (cover obj)).
Proof.
  intros Hreach o. pose proof (reachable_wf parse s Hreach) as Hwf.
  destruct (Modal_new_spec parse ClassModalImage (Some o) s Hwf)
    as (s1 & e & revs & _ & _ & _ & _ & Hm & _ & _ & _ & _ & _ & _ & Hres).
  change (default no_options (Some o)) with o in Hres.
  unfold ModalImage_new. fold o. split; intros Hc.
  - rewrite decide_True in Hres by done.
    unfold mbind, M_bind. by rewrite Hres.
  - rewrite decide_False in Hres by done.
    destruct Hres as (con & sub & Hres & Hfill).
    destruct (content_filled_img _ _ _ _ Hfill) as [Htag Hattr].
    rewrite (bind_ok _ _ _ _ _ Hres).
    erewrite bind_ok by (unfold deref; by rewrite constructed_modal).
    cbn [content].
    eexists _, _, _, _. split; [reflexivity|].
    split; [by rewrite Hm|].
    split; [apply constructed_modal|].
    cbn [content fst emit upd_dom dom].
    split.
    { rewrite !list_lookup_alter_eq, constructed_content. reflexivity. }
    cbn [set_properties set_parentNode tagName attributes properties
         parentNode cover].
    split_and!; try done.
    + rewrite lookup_insert_ne by done. by rewrite lookup_insert_eq.
    + by rewrite lookup_insert_eq.
Qed.

Lemma ModalImage_new_content_witness :
  let options := mkModalImageOptions no_options (Some "cat.png") in
  reachable parse_demo (page ["p"])
  ∧ ∃ s' this obj nd,
      ModalImage_new parse_demo options (page ["p"]) = (s', Ok this)
      ∧ modal_heap s' !! this = Some obj
      ∧ dom s' !! content obj = Some nd
      ∧ tagName nd = "img"
      ∧ properties nd !! "src" = Some "cat.png".
Proof.
  intros options.
  assert (Hr : reachable parse_demo (page ["p"])) by by exists ["p"].
  split; [exact Hr|].
  destruct (ModalImage_new_content parse_demo options (page ["p"]) Hr)
    as [_ Hok].
  destruct Hok as (s' & this & obj & nd & H1 & _ & H2 & H3 & H4 & _ & H5 & _).
  { by intros [? _]. }
  exists s', this, obj, nd. by split_and!.
Defined.

(** ** Modal: appearing *)

Lemma reachable_steps parse s s' :
  reachable parse s → rtc (step parse) s s' → reachable parse s'.
Proof. intros [tags H] Hs. exists tags. by etrans. Qed.

Lemma reachable_Modal_new parse cls options s s' r :
  reachable parse s → Modal_new parse cls options s = (s', r) →
  reachable parse s'.
Proof.
  intros Hr Hnew. eapply reachable_steps; [exact Hr|]. apply rtc_once.
  replace s' with (Modal_new parse cls options s).1 by by rewrite Hnew.
  apply step_Modal.
Qed.

(** X9. A modal constructed with a positive animation time [t] fades in:
    the constructor has set the opacity of the cover to 0 and has assigned
    its transition the string [opacity t ms ease] with [t] printed as the
    number it is, so that for [t] up to 2^53 the cover has the transition
    with [t] in decimal digits; at return the appear promise is pending and
    one timer with delay 0 is queued for it.  Whenever that timer fires, in any later state of the
    page, it completes without error, sets the opacity of the cover to 1,
    fulfils the promise and changes nothing in the tree. *)
Theorem fade_in_completes parse cls options s s1 this t :
  reachable parse s →
  Modal_new parse cls options s = (s1, Ok this) →
  chosen_animationTime (default no_options options) = Some t → (0 < t)%Z →
  let p := length (promise_heap s) in
  ∃ obj nd,
    modal_heap s1 !! this = Some obj ∧ animationTime obj = Some t
    ∧ dom s1 !! cover obj = Some nd
    ∧ style nd !! "opacity" = Some "0"
    ∧ EvSetStyle (cover obj) "transition"
        ("opacity " +:+ Number_toString t +:+ "ms ease") ∈ trace s1
    ∧ ((t ≤ 2 ^ 53)%Z →
       style nd !! "transition"
       = Some ("opacity " +:+ pretty t +:+ "ms ease"))
    ∧ timers s1 = timers s ++ [((now s + 0)%Z, AppearTick this p)]
    ∧ is_fulfilled s1 p = false
    ∧ ∀ s2 ts1 due ts2,
        rtc (step parse) s1 s2 →
        timers s2 = ts1 ++ (due, AppearTick this p) :: ts2 →
        ∃ s3 nd',
          run_timer (AppearTick this p) (upd_timers (λ _, ts1 ++ ts2) s2)
          = (s3, Ok tt)
          ∧ dom s3 !! cover obj = Some nd'
          ∧ style nd' !! "opacity" = Some "1"
          ∧ is_fulfilled s3 p = true
          ∧ same_tree (dom s2) (dom s3).
Proof.
  intros Hreach Hnew Ha Hpos p.
  pose proof (reachable_wf parse s Hreach) as Hwf.
  pose proof (reachable_Modal_new _ _ _ _ _ _ Hreach Hnew) as Hreach1.
  pose proof (reachable_wf parse s1 Hreach1) as Hwf1.
  destruct (Modal_new_spec parse cls options s Hwf)
    as (x & e & revs & _ & _ & _ & _ & Hm & Hph & Htm & _ & Hnow & _ & _ & Hres).
  case_decide; [by rewrite Hres in Hnew|].
  destruct Hres as (con & sub & Hres & _).
  rewrite Hres in Hnew. injection Hnew as <- <-.
  assert (Han : animated (chosen_animationTime (default no_options options))
                = true).
  { rewrite Ha. cbn. by apply Z.ltb_lt. }
  eexists _, _. split; [apply constructed_modal|].
  split; [exact Ha|]. cbn [cover].
  split; [apply constructed_cover|].
  unfold appear_cover. rewrite Han.
  cbn [set_parentNode set_style style].
  split; [rewrite lookup_insert_ne by done; by rewrite lookup_insert_eq|].
  split.
  { cbn [constructed trace].
    unfold body_events, appear_events, transition_of. rewrite Han, Ha.
    cbn [default]. unfold id.
    rewrite !elem_of_app, !elem_of_cons. naive_solver. }
  split.
  { intros H53. rewrite lookup_insert_eq. unfold transition_of. rewrite Ha.
    cbn [default]. unfold id, Number_toString. rewrite Z.abs_eq by lia.
    by rewrite (proj2 (Z.leb_le _ _)) by done. }
  cbn [constructed timers]. unfold appear_timers. rewrite Han, Htm, Hnow, Hph.
  split; [done|].
  split.
  { unfold is_fulfilled, p. cbn [constructed promise_heap].
    rewrite <- Hph, lookup_at, Han. done. }
  intros s2 ts1 due ts2 Hsteps Hts.
  pose proof (reachable_steps _ _ _ Hreach1 Hsteps) as Hreach2.
  destruct (reachable_async_ok parse s2 Hreach2) as [Hwf2 (Hat & _)].
  destruct (steps_wf_from parse _ s2 Hsteps Hwf1)
    as [_ (Hlen & _ & Hheap & _)].
  specialize (Hheap _ _ (constructed_modal _ _ _ _ _ _)).
  assert (Hp : p < length (promise_heap s2)).
  { rewrite Hts in Hat. apply Forall_app in Hat as [_ Hat].
    by apply Forall_cons in Hat as [Hat _]. }
  assert (Hc : length (dom x) < length (dom s2)).
  { eapply Nat.lt_le_trans; [|exact Hlen].
    cbn [constructed dom]. rewrite length_app, length_alter. cbn. lia. }
  destruct (lookup_lt_is_Some_2 _ _ Hc) as [nd0 Hnd0].
  unfold run_timer.
  erewrite bind_ok by (unfold deref; cbn [upd_timers modal_heap];
                       by rewrite Hheap).
  cbn [cover]. unfold setStyle. cbv [mbind M_bind modify].
  match goal with |- context [resolve ?k ?y] =>
    pose proof (resolve_fulfils k y) as Hful;
    destruct (resolve_frame k y) as (Hd & _) end.
  eexists _, _. split.
  { unfold resolve, modify. reflexivity. }
  cbn [fst] in *. unfold resolve, modify in Hd, Hful. cbn [fst] in Hd, Hful.
  rewrite Hd. cbn [emit upd_dom upd_timers dom].
  split; [rewrite list_lookup_alter_eq, Hnd0; reflexivity|].
  split; [cbn; by rewrite lookup_insert_eq|].
  split; [apply Hful; exact Hp|].
  apply same_tree_alter, cosmetic_style.
Qed.

Lemma fade_in_completes_witness :
  let s1 := (Modal_new parse_demo ClassModal None (page ["p"])).1 in
  reachable parse_demo (page ["p"])
  ∧ Modal_new parse_demo ClassModal None (page ["p"]) = (s1, Ok 0)
  ∧ ∃ s3 nd,
      run_timer (AppearTick 0 0) (upd_timers (λ _, [] ++ []) s1) = (s3, Ok tt)
      ∧ dom s3 !! 3 = Some nd
      ∧ style nd !! "opacity" = Some "1"
      ∧ is_fulfilled s3 0 = true.
Proof.
  intros s1.
  assert (Hr : reachable parse_demo (page ["p"])) by by exists ["p"].
  assert (Hnew : Modal_new parse_demo ClassModal None (page ["p"])
                 = (s1, Ok 0)).
  { assert (H2 : (Modal_new parse_demo ClassModal None (page ["p"])).2
                 = Ok 0) by by vm_compute.
    unfold s1. destruct (Modal_new _ _ _ _) as [x r]. cbn in *. by subst. }
  assert (Ha : chosen_animationTime (default no_options None) = Some 250%Z)
    by by vm_compute.
  assert (Hts : timers s1 = [] ++ (0%Z, AppearTick 0 0) :: [])
    by by vm_compute.
  destruct (fade_in_completes parse_demo ClassModal None (page ["p"]) s1 0
              250%Z Hr Hnew Ha eq_refl)
    as (obj & nd & Hobj & _ & _ & _ & _ & _ & _ & _ & Hfire).
  assert (Hobj' : modal_heap s1 !! 0 = Some (mkModal 0 3 4 (Some 250%Z)))
    by by vm_compute.
  rewrite Hobj' in Hobj. injection Hobj as <-.
  destruct (Hfire s1 [] 0%Z [] (rtc_refl _ _) Hts)
    as (s3 & nd' & H1 & H2 & H3 & H4 & _).
  split; [exact Hr|]. split; [exact Hnew|].
  exists s3, nd'. by split_and!.
Defined.

(** ** Modal: closing *)

Lemma not_animated a :
  (∀ t, a = Some t → (t ≤ 0)%Z) → animated a = false.
Proof.
  intros H. destruct a as [t|]; [|done]. cbn.
  apply Z.ltb_ge. by apply H.
Qed.

(** X10. For a modal whose animation time is not positive (zero, negative
    or undefined), [close()] writes no style and starts no timer: it returns
    a pending promise and queues the removal as a promise job.  On a page
    with no other job waiting, that job is the next step of the page; it
    detaches the cover and fulfils the promise with the clock where it was,
    and the modal is no longer in the list of the [modals] getter. *)
Theorem instant_close parse s this obj :
  reachable parse s →
  modal_heap s !! this = Some obj →
  (∀ t, animationTime obj = Some t → (t ≤ 0)%Z) →
  let p := S (length (promise_heap s)) in
  let s1 := closed this obj s in
  close this s = (s1, Ok p)
  ∧ dom s1 = dom s ∧ timers s1 = timers s
  ∧ microtasks s1 = microtasks s ++ [(RemoveCover this, p)]
  ∧ is_fulfilled s1 p = false
  ∧ (microtasks s = [] →
     let s3 := (run_job (RemoveCover this, p)
                  (upd_microtasks (λ _, []) s1)).1 in
     step parse s1 s3
     ∧ is_fulfilled s3 p = true ∧ now s3 = now s
     ∧ node_parent (dom s3) (cover obj) = None
     ∧ ∀ r l, ModalRegion_modals s3 r = Some l → Some this ∉ l).
Proof.
  intros Hreach Hobj Ht p s1. apply not_animated in Ht.
  split; [by apply close_spec|].
  assert (Hreach1 : reachable parse s1).
  { eapply reachable_steps; [exact Hreach|]. apply rtc_once.
    replace s1 with (close this s).1 by by rewrite (close_spec this obj s).
    apply step_close. by eapply lookup_lt_Some. }
  split; [unfold s1, closed; cbn [dom]; by rewrite Ht|].
  split; [unfold s1, closed; cbn [timers]; by rewrite Ht, app_nil_r|].
  split; [unfold s1, closed; cbn [microtasks]; by rewrite Ht|].
  split.
  { unfold is_fulfilled, s1, closed, p. cbn [promise_heap].
    by rewrite lookup_at_S. }
  intros Hmt s3.
  assert (Hstep : step parse s1 s3).
  { apply (step_job parse (RemoveCover this, p) []).
    unfold s1, closed. cbn [microtasks]. by rewrite Ht, Hmt. }
  assert (Hwf3 : wf s3).
  { eapply reachable_wf, reachable_steps; [exact Hreach1|].
    by apply rtc_once. }
  split; [exact Hstep|].
  assert (Heq : s3 = (resolve p (emit (EvRemove (cover obj))
                   (upd_dom (detach (cover obj))
                      (upd_microtasks (λ _, []) s1)))).1).
  { unfold s3. by rewrite (run_removal this obj). }
  match type of Heq with _ = (resolve ?k ?y).1 =>
    pose proof (resolve_fulfils k y) as Hful;
    destruct (resolve_frame k y) as (Hd & _ & Hmh & Hnow & _) end.
  rewrite <- Heq in Hd, Hmh, Hnow, Hful.
  cbn [emit upd_dom upd_microtasks dom modal_heap now promise_heap] in *.
  split.
  { apply Hful. unfold s1, closed, p. cbn [promise_heap].
    rewrite length_app. cbn. lia. }
  split; [by rewrite Hnow|].
  assert (Hpar : node_parent (dom s3) (cover obj) = None).
  { rewrite Hd. apply node_parent_detach. }
  split; [exact Hpar|].
  intros r l Hl. apply (modals_query_absent s3 this obj r l); try done.
  rewrite Hmh. exact Hobj.
Qed.

Lemma instant_close_witness :
  let options := Some (mkModalOptions None None None (Some 0%Z) {["fadeTime"]}) in
  let s := (Modal_new parse_demo ClassModal options (page ["p"])).1 in
  let obj := mkModal 0 3 4 (Some 0%Z) in
  let s3 := (run_job (RemoveCover 0, S (length (promise_heap s)))
               (upd_microtasks (λ _, []) (closed 0 obj s))).1 in
  reachable parse_demo s ∧ modal_heap s !! 0 = Some obj
  ∧ close 0 s = (closed 0 obj s, Ok (S (length (promise_heap s))))
  ∧ step parse_demo (closed 0 obj s) s3
  ∧ is_fulfilled s3 (S (length (promise_heap s))) = true
  ∧ now s3 = now s.
Proof.
  intros options s obj s3.
  assert (Hr : reachable parse_demo s).
  { exists ["p"]. apply rtc_once. apply step_Modal. }
  assert (Hobj : modal_heap s !! 0 = Some obj) by by vm_compute.
  assert (Ht : ∀ t, animationTime obj = Some t → (t ≤ 0)%Z).
  { intros t [= <-]. lia. }
  assert (Hmt : microtasks s = []) by by vm_compute.
  destruct (instant_close parse_demo s 0 obj Hr Hobj Ht)
    as (Hc & _ & _ & _ & _ & Hjob).
  destruct (Hjob Hmt) as (Hstep & Hful & Hnow & _).
  split; [exact Hr|]. split; [exact Hobj|]. split; [exact Hc|].
  split; [exact Hstep|]. split; [exact Hful|exact Hnow].
Defined.

Lemma node_parent_detach_ne k i ns :
  i ≠ k → node_parent (detach k ns) i = node_parent ns i.
Proof.
  intros Hne. unfold detach. destruct (node_parent ns k) as [pa|]; [|done].
  rewrite node_parent_alter_ne by done. by rewrite node_parent_alter.
Qed.

(** X11. Whenever the removal job of a modal runs, it completes without
    error and takes exactly that modal out of the list of the [modals]
    getter: the other modals stay listed, in the same order, and if the
    modal was not listed any more the list is unchanged. *)
Theorem removal_keeps_others parse s this obj q :
  reachable parse s →
  modal_heap s !! this = Some obj →
  ∃ s', run_job (RemoveCover this, q) s = (s', Ok tt)
        ∧ node_parent (dom s') (cover obj) = None
        ∧ ∀ l, ModalRegion_modals s 0 = Some l →
               ModalRegion_modals s' 0
               = Some (filter (λ x, x ≠ Some this) l).
Proof.
  intros Hreach Hobj. pose proof (reachable_wf parse s Hreach) as Hwf.
  pose proof (wf_from_run_job s (RemoveCover this, q) s (wf_from_refl s Hwf))
    as [Hwf' _].
  rewrite (run_removal this obj) in Hwf' |- * by exact Hobj.
  eexists. split; [reflexivity|].
  match goal with |- context [resolve ?k ?y] =>
    destruct (resolve_frame k y) as (Hd & Hr & Hmh & _);
    set (s' := (resolve k y).1) in * end.
  cbn [emit upd_dom dom region_heap modal_heap] in Hd, Hr, Hmh.
  split; [rewrite Hd; apply node_parent_detach|].
  destruct (modal_region s this obj Hwf Hobj) as (e & Hrh & _ & _ & _ & Hmod).
  intros l Hl. rewrite (modals_query_attached s e Hwf Hrh) in Hl.
  injection Hl as <-.
  rewrite (modals_query_attached s' e Hwf') by by rewrite Hr.
  f_equal. rewrite filter_fmap_comm. f_equal.
  unfold attached_modals. rewrite Hmh, list_filter_filter.
  apply filter_ext_in. intros m Hm. apply elem_of_seq in Hm.
  unfold cover_parent. rewrite Hmh, Hd.
  destruct (modal_heap s !! m) as [x|] eqn:Hx.
  2:{ apply lookup_ge_None in Hx. lia. }
  cbn [mbind option_bind].
  destruct (decide (m = this)) as [->|Hne].
  - rewrite Hobj in Hx. injection Hx as <-. rewrite node_parent_detach.
    split; [done|]. intros [Hthis _]. by destruct Hthis.
  - assert (Hcov : cover x ≠ cover obj).
    { intros E.
      destruct (Hmod m x Hx) as (_&_&_&_&Hb&_).
      destruct (Hmod this obj Hobj) as (_&_&_&_&Hb'&_).
      rewrite E in Hb. congruence. }
    rewrite node_parent_detach_ne by done. split.
    + intros H. split; [|done]. congruence.
    + by intros [_ H].
Qed.

Lemma removal_keeps_others_witness :
  let s0 := (Modal_new parse_demo ClassModal None (page ["p"])).1 in
  let s := (Modal_new parse_demo ClassModal None s0).1 in
  reachable parse_demo s
  ∧ ModalRegion_modals s 0 = Some [Some 0; Some 1]
  ∧ ∃ s', run_job (RemoveCover 0, 9) s = (s', Ok tt)
          ∧ ModalRegion_modals s' 0 = Some [Some 1].
Proof.
  intros s0 s.
  assert (Hr : reachable parse_demo s).
  { exists ["p"].
    eapply rtc_l; [apply (step_Modal parse_demo ClassModal None)|].
    apply rtc_once. apply step_Modal. }
  assert (Hobj : modal_heap s !! 0 = Some (mkModal 0 3 4 (Some 250%Z)))
    by by vm_compute.
  assert (Hl : ModalRegion_modals s 0 = Some [Some 0; Some 1])
    by by vm_compute.
  destruct (removal_keeps_others parse_demo s 0 _ 9 Hr Hobj)
    as (s' & Hrun & _ & Hq).
  split; [exact Hr|]. split; [exact Hl|].
  exists s'. split; [exact Hrun|]. exact (Hq _ Hl).
Defined.

(** X12. [close()] itself never changes the tree: at its return every node
    has the parent and the children it had, the [modals] getter returns the
    list it returned before the call, so a modal that is fading out is still
    listed, and the only node that can differ at all is the cover of the
    closed modal (in its style).  This holds for any page and any modal
    reference. *)
Theorem close_keeps_listed s this :
  let s1 := (close this s).1 in
  same_tree (dom s) (dom s1)
  ∧ (∀ r, ModalRegion_modals s1 r = ModalRegion_modals s r)
  ∧ modal_heap s1 = modal_heap s
  ∧ ∀ i, (∀ obj, modal_heap s !! this = Some obj → i ≠ cover obj) →
         dom s1 !! i = dom s !! i.
Proof.
  intros s1. unfold s1.
  destruct (modal_heap s !! this) as [obj|] eqn:Hobj.
  - rewrite (close_spec this obj s Hobj). cbn [fst].
    pose proof (same_tree_closed this obj s) as Hsame.
    split; [exact Hsame|]. split; [intros r; by apply modals_same_tree|].
    split; [done|]. intros i Hi. specialize (Hi obj eq_refl).
    unfold closed. cbn [dom]. destruct (animated _); [|done].
    by apply list_lookup_alter_ne.
  - unfold close, disappear, deref.
    cbv [mbind M_bind modify]. cbn [modal_heap emit]. rewrite Hobj.
    cbn [fst]. split; [apply same_tree_refl|]. by split_and!.
Qed.

Lemma close_keeps_listed_witness :
  let s := (Modal_new parse_demo ClassModal None (page ["p"])).1 in
  ModalRegion_modals (close 0 s).1 0 = ModalRegion_modals s 0
  ∧ dom (close 0 s).1 !! 4 = dom s !! 4.
Proof.
  intros s. destruct (close_keeps_listed s 0) as (_ & Hm & _ & Hn).
  split; [apply Hm|]. apply Hn. intros obj Hobj.
  assert (Hobj' : modal_heap s !! 0 = Some (mkModal 0 3 4 (Some 250%Z)))
    by by vm_compute.
  rewrite Hobj' in Hobj. injection Hobj as <-. cbn. lia.
Defined.

(** ** Clicks *)

Lemma click_path s target :
  wf s → target < length (dom s) →
  ∃ l, (click target s
        = forM (target :: l) (λ n,
            listener ← gets (λ s, dom s !! n ≫= onclick);
            match listener with
            | Some this => cover_onclick this target
            | None => mret tt
            end) s)
       ∧ ∀ n, n ∈ l ↔ proper_ancestor (dom s) n target.
Proof.
  intros (_ & _ & Ht & _) Hlt.
  destruct (event_path_spec (dom s) Ht (length (dom s)) target Hlt)
    as (l & Hpath & Hl).
  exists l. split; [|done]. unfold click. by rewrite Hpath.
Qed.

(** X13. A click outside the modals does nothing: when the target is not
    the cover of a modal and is not below one (the body, the container, the
    elements of the page itself), the page after the click is the page
    before it and no listener of the library runs. *)
Theorem click_outside_modals parse s target :
  reachable parse s → target < length (dom s) →
  (∀ m obj, modal_heap s !! m = Some obj →
     target ≠ cover obj ∧ ¬ proper_ancestor (dom s) (cover obj) target) →
  click target s = (s, Ok tt).
Proof.
  intros Hreach Hlt Hout. pose proof (reachable_wf parse s Hreach) as Hwf.
  destruct (click_path s target Hwf Hlt) as (l & -> & Hl).
  apply forM_noop. intros n Hn. rewrite listener_step.
  destruct (dom s !! n ≫= onclick) as [k|] eqn:Hk; [|done].
  pose proof Hwf as (_ & _ & _ & Hc & _).
  destruct (Hc n k Hk) as (x & Hx & Hcov).
  destruct (Hout k x Hx) as [Hne Hanc]. rewrite Hcov in Hne, Hanc.
  apply elem_of_cons in Hn as [->|Hn]; [done|].
  by apply Hl in Hn.
Qed.

Lemma click_outside_modals_witness :
  let s := (Modal_new parse_demo ClassModal None (page ["p"])).1 in
  reachable parse_demo s ∧ click 1 s = (s, Ok tt).
Proof.
  intros s.
  assert (Hr : reachable parse_demo s).
  { exists ["p"]. apply rtc_once. apply step_Modal. }
  split; [exact Hr|].
  apply (click_outside_modals parse_demo s 1 Hr); [vm_compute; lia|].
  intros m obj Hobj.
  assert (Hh : modal_heap s = [mkModal 0 3 4 (Some 250%Z)]) by by vm_compute.
  rewrite Hh in Hobj. destruct m as [|m]; [|by destruct m].
  injection Hobj as <-. cbn [cover]. split; [lia|].
  intros Hanc. apply proper_ancestor_inv in Hanc as (pa & Hpa & Hup).
  assert (H1 : node_parent (dom s) 1 = Some 0) by by vm_compute.
  rewrite H1 in Hpa. injection Hpa as <-.
  destruct Hup as [?|Hup]; [lia|].
  apply proper_ancestor_inv in Hup as (pa & Hpa & _).
  assert (H0 : node_parent (dom s) 0 = None) by by vm_compute.
  by rewrite H0 in Hpa.
Defined.








(** ** The region and its modals *)

(** X15. In every state the library can produce, the list of the [modals]
    getter and the children of the container correspond position by
    position: the i-th child is the cover of the i-th listed modal, that
    modal is an existing object whose back-reference on the cover points to
    it, and no entry of the list is undefined. *)
Theorem modals_match_children parse s r rg l :
  reachable parse s →
  region_heap s !! r = Some rg →
  ModalRegion_modals s r = Some l →
  length l = length (node_children (dom s) (element rg))
  ∧ ∀ i c, node_children (dom s) (element rg) !! i = Some c →
      ∃ m obj, l !! i = Some (Some m)
               ∧ modal_heap s !! m = Some obj ∧ cover obj = c
               ∧ node_parent (dom s) c = Some (element rg).
Proof.
  intros Hreach Hr Hl. pose proof (reachable_wf parse s Hreach) as Hwf.
  unfold ModalRegion_modals in Hl. rewrite Hr in Hl. cbn in Hl.
  injection Hl as <-. split; [by rewrite length_fmap|].
  intros i c Hi. rewrite list_lookup_fmap, Hi. cbn.
  destruct Hwf as (_ & _ & _ & _ & Hreg).
  destruct (window_modalRegion s) as [r0|].
  2:{ destruct Hreg as [Hnil _]. by rewrite Hnil in Hr. }
  destruct Hreg as (_ & e & He & _ & _ & _ & _ & Hmod & Hkids).
  rewrite He in Hr. destruct r as [|r]; [|by destruct r].
  injection Hr as <-. cbn [element] in *.
  rewrite Hkids in Hi. apply list_lookup_fmap_Some in Hi as (obj & -> & Hobj).
  apply list_elem_of_lookup_2, list_elem_of_filter in Hobj as [Hatt Hobj].
  apply list_elem_of_lookup in Hobj as [m Hm].
  destruct (Hmod m obj Hm) as (_&_&_&_&Hback&_).
  exists m, obj. split; [|done].
  change (dom s !! cover obj ≫= modal) with (node_modal (dom s) (cover obj)).
  by rewrite Hback.
Qed.

Lemma modals_match_children_witness :
  let s0 := (Modal_new parse_demo ClassModal None (page ["p"])).1 in
  let s := (Modal_new parse_demo ClassModalImage None s0).1 in
  reachable parse_demo s
  ∧ ModalRegion_modals s 0 = Some [Some 0; Some 1]
  ∧ ∃ m obj, [Some 0; Some 1] !! 1 = Some (Some m)
             ∧ modal_heap s !! m = Some obj ∧ cover obj = 5.
Proof.
  intros s0 s.
  assert (Hr : reachable parse_demo s).
  { exists ["p"].
    eapply rtc_l; [apply (step_Modal parse_demo ClassModal None)|].
    apply rtc_once. apply step_Modal. }
  assert (Hg : region_heap s !! 0 = Some (mkModalRegion 2)) by by vm_compute.
  assert (Hl : ModalRegion_modals s 0 = Some [Some 0; Some 1])
    by by vm_compute.
  assert (Hk : node_children (dom s) 2 !! 1 = Some 5) by by vm_compute.
  destruct (modals_match_children parse_demo s 0 _ _ Hr Hg Hl) as [_ H].
  destruct (H 1 5 Hk) as (m & obj & H1 & H2 & H3 & _).
  split; [exact Hr|]. split; [exact Hl|]. by exists m, obj.
Defined.

Lemma filter_all {A} (P : A → Prop) `{∀ x, Decision (P x)} (l : list A) :
  Forall P l → filter P l = l.
Proof.
  induction 1 as [|a l Ha _ IH]; [done|].
  by rewrite filter_cons, decide_True, IH.
Qed.

Lemma attached_modals_detach s this obj e :
  wf s → region_heap s = [mkModalRegion e] →
  modal_heap s !! this = Some obj →
  attached_modals (upd_dom (detach (cover obj)) s) e
  = filter (λ m, m ≠ this) (attached_modals s e).
Proof.
  intros Hwf Hrh Hobj.
  destruct (modal_region s this obj Hwf Hobj) as (e' & Hrh' & _ & _ & _ & Hmod).
  unfold attached_modals. cbn [upd_dom modal_heap]. rewrite list_filter_filter.
  apply filter_ext_in. intros m Hm. apply elem_of_seq in Hm.
  unfold cover_parent. cbn [upd_dom modal_heap dom].
  destruct (modal_heap s !! m) as [x|] eqn:Hx.
  2:{ apply lookup_ge_None in Hx. lia. }
  cbn [mbind option_bind].
  destruct (decide (m = this)) as [->|Hne].
  - rewrite Hobj in Hx. injection Hx as <-. rewrite node_parent_detach.
    split; [done|]. intros [Hthis _]. by destruct Hthis.
  - assert (Hcov : cover x ≠ cover obj).
    { intros E.
      destruct (Hmod m x Hx) as (_&_&_&_&Hb&_).
      destruct (Hmod this obj Hobj) as (_&_&_&_&Hb'&_).
      rewrite E in Hb. congruence. }
    rewrite node_parent_detach_ne by done. split.
    + intros H. split; [|done]. congruence.
    + by intros [_ H].
Qed.

Lemma attached_modals_closed this obj s e :
  attached_modals (closed this obj s) e = attached_modals s e.
Proof.
  unfold attached_modals.
  change (modal_heap (closed this obj s)) with (modal_heap s).
  apply filter_ext_in. intros m _. unfold cover_parent.
  change (modal_heap (closed this obj s)) with (modal_heap s).
  destruct (modal_heap s !! m) as [x|]; [|done]. cbn [mbind option_bind].
  destruct (same_tree_closed this obj s) as [_ Hn].
  destruct (Hn (cover x)) as (Hp & _). by rewrite Hp.
Qed.

Lemma modals_dom_eq a b r :
  dom a = dom b → region_heap a = region_heap b →
  ModalRegion_modals a r = ModalRegion_modals b r.
Proof. intros Hd Hr. unfold ModalRegion_modals. by rewrite Hd, Hr. Qed.

(** X16. Opening a modal and closing it again gives the list of modals
    back: on a page with no promise job waiting, after [new Modal(...)] has
    returned and [close()] has been called on the new modal, the page
    reaches a state in which the promise of [close()] is fulfilled and the
    [modals] getter returns the list it returned before the construction
    (the empty list when there was no region yet). *)
Theorem open_close_round_trip parse cls options s s1 this :
  reachable parse s → microtasks s = [] →
  Modal_new parse cls options s = (s1, Ok this) →
  ∃ p s2 s3,
    close this s1 = (s2, Ok p)
    ∧ rtc (step parse) s2 s3
    ∧ is_fulfilled s3 p = true
    ∧ ModalRegion_modals s3 0 = Some (default [] (ModalRegion_modals s 0)).
Proof.
  intros Hreach Hmt Hnew. pose proof (reachable_wf parse s Hreach) as Hwf.
  pose proof (reachable_wf parse s1
                (reachable_Modal_new _ _ _ _ _ _ Hreach Hnew)) as Hwf1.
  destruct (Modal_new_spec parse cls options s Hwf)
    as (x & e & revs & _ & Hwfx & _ & Hr & Hm & _ & _ & Hmx & _ & _ & Hcase
        & Hres).
  case_decide; [by rewrite Hres in Hnew|].
  destruct Hres as (con & sub & Hres & _).
  rewrite Hres in Hnew. injection Hnew as <- <-.
  set (s1 := constructed cls (default no_options options) x e con sub) in *.
  set (obj := mkModal 0 (length (dom x)) (S (length (dom x)))
                (chosen_animationTime (default no_options options))).
  assert (Hobj : modal_heap s1 !! length (modal_heap x) = Some obj)
    by apply constructed_modal.
  assert (Hmt1 : microtasks s1 = []) by (cbn; by rewrite Hmx).
  assert (Hr1 : region_heap s1 = [mkModalRegion e]) by done.
  destruct (close_completes parse _ obj s1 Hobj Hmt1)
    as (s3 & Hsteps & Hful & _ & Hd & Hr3).
  eexists _, _, s3. split; [by apply close_spec|].
  split; [exact Hsteps|]. split; [exact Hful|].
  set (s2 := closed (length (modal_heap x)) obj s1) in *.
  assert (Hwf2 : wf s2).
  { by destruct (wf_from_closed s1 (length (modal_heap x)) obj s1
                   (wf_from_refl s1 Hwf1)). }
  rewrite (modals_dom_eq s3 (upd_dom (detach (cover obj)) s2));
    [|exact Hd|by rewrite Hr3].
  rewrite (modals_query_attached _ e);
    [|by eapply wf_detach_cover|done].
  f_equal.
  rewrite (attached_modals_detach s2 (length (modal_heap x)) obj e)
    by done.
  unfold s2. rewrite attached_modals_closed.
  unfold s1. rewrite attached_modals_constructed by done.
  rewrite filter_app, filter_cons, filter_nil, decide_False, app_nil_r
    by (intros Hne; by apply Hne).
  rewrite filter_all.
  2:{ apply Forall_forall. intros m Hin. unfold attached_modals in Hin.
      apply list_elem_of_filter in Hin as [_ Hin].
      apply elem_of_seq in Hin. lia. }
  destruct Hcase as [(_ & -> & _)|(Hnone & _)].
  - by rewrite (modals_query_attached s e).
  - pose proof Hwf as (_ & _ & _ & _ & Hx). rewrite Hnone in Hx.
    destruct Hx as [Hrh Hmh]. unfold ModalRegion_modals, attached_modals.
    by rewrite Hrh, Hm, Hmh.
Qed.

Lemma open_close_round_trip_witness :
  let s := (Modal_new parse_demo ClassModal None (page ["p"])).1 in
  let s1 := (Modal_new parse_demo ClassModalImage None s).1 in
  reachable parse_demo s
  ∧ Modal_new parse_demo ClassModalImage None s = (s1, Ok 1)
  ∧ ∃ p s2 s3,
      close 1 s1 = (s2, Ok p) ∧ rtc (step parse_demo) s2 s3
      ∧ is_fulfilled s3 p = true
      ∧ ModalRegion_modals s3 0 = Some [Some 0].
Proof.
  intros s s1.
  assert (Hr : reachable parse_demo s).
  { exists ["p"]. apply rtc_once. apply step_Modal. }
  assert (Hmt : microtasks s = []) by by vm_compute.
  assert (Hnew : Modal_new parse_demo ClassModalImage None s = (s1, Ok 1)).
  { assert (H2 : (Modal_new parse_demo ClassModalImage None s).2 = Ok 1)
      by by vm_compute.
    unfold s1. destruct (Modal_new _ _ _ s) as [x r]. cbn in *. by subst. }
  assert (Hl : ModalRegion_modals s 0 = Some [Some 0]) by by vm_compute.
  destruct (open_close_round_trip parse_demo ClassModalImage None s s1 1
              Hr Hmt Hnew) as (p & s2 & s3 & H1 & H2 & H3 & H4).
  rewrite Hl in H4.
  split; [exact Hr|]. split; [exact Hnew|].
  exists p, s2, s3. by split_and!.
Defined.

(** ** modal.global: the loader *)

Section LoaderFacts.
Variable throws : Handler → bool.

Lemma register_before_load hs g :
  window_Modal g = false →
  register_all throws hs g
  = mkGlobal false (window_ModalImage g) (handlers g ++ hs) (calls g).
Proof.
  unfold register_all. revert g. induction hs as [|h hs IH]; intros g Hg.
  - cbn. rewrite app_nil_r. destruct g. cbn in Hg. by subst.
  - cbn [foldl].
    assert (Hstep : (onModalReady throws h g).1
              = mkGlobal false (window_ModalImage g) (handlers g ++ [h])
                  (calls g)).
    { unfold onModalReady. by rewrite Hg. }
    rewrite Hstep, IH by done. cbn. by rewrite <- app_assoc.
Qed.

Lemma register_after_load hs g :
  window_Modal g = true →
  register_all throws hs g
  = mkGlobal true (window_ModalImage g) (handlers g)
      (calls g ++ ((λ h, (h, false)) <$> hs)).
Proof.
  unfold register_all. revert g. induction hs as [|h hs IH]; intros g Hg.
  - cbn. rewrite app_nil_r. destruct g. cbn in Hg. by subst.
  - cbn [foldl].
    assert (Hstep : (onModalReady throws h g).1
              = mkGlobal true (window_ModalImage g) (handlers g)
                  (calls g ++ [(h, false)])).
    { unfold onModalReady, call_handler. by rewrite Hg. }
    rewrite Hstep, IH by done. cbn. by rewrite <- app_assoc.
Qed.

Lemma forEach_all_return hs g :
  (∀ h, h ∈ hs → throws h = false) →
  forEach_handler throws hs g
  = (mkGlobal (window_Modal g) (window_ModalImage g) (handlers g)
       (calls g ++ ((λ h, (h, true)) <$> hs)), true).
Proof.
  revert g. induction hs as [|h hs IH]; intros g Hok.
  - cbn. rewrite app_nil_r. by destruct g.
  - cbn [forEach_handler call_handler]. rewrite (Hok h) by left. cbn [negb].
    rewrite IH by (intros; apply Hok; by right). cbn.
    by rewrite <- app_assoc.
Qed.

Lemma forEach_throw a h b g :
  (∀ x, x ∈ a → throws x = false) → throws h = true →
  forEach_handler throws (a ++ h :: b) g
  = (mkGlobal (window_Modal g) (window_ModalImage g) (handlers g)
       (calls g ++ ((λ h, (h, true)) <$> (a ++ [h]))), false).
Proof.
  revert g. induction a as [|x a IH]; intros g Hok Hh.
  - cbn [app forEach_handler call_handler]. by rewrite Hh.
  - cbn [app forEach_handler call_handler]. rewrite (Hok x) by left.
    cbn [negb]. rewrite IH by (try done; intros; apply Hok; by right). cbn.
    by rewrite <- app_assoc.
Qed.

(** X17. When no handler throws, every handler given to [onModalReady] is
    called exactly once, in the order of registration: none is called before
    the modules are loaded; at the load the waiting handlers are called in
    order with the Modal class as argument and the waiting list is emptied;
    a handler registered after the load is called at once, without argument,
    and is not kept. *)
Theorem handlers_called_once hs1 hs2 :
  (∀ h, h ∈ hs1 → throws h = false) →
  let g1 := register_all throws hs1 loader_start in
  let g2 := (modules_loaded throws g1).1 in
  let g3 := register_all throws hs2 g2 in
  calls g1 = [] ∧ handlers g1 = hs1
  ∧ (modules_loaded throws g1).2 = true
  ∧ window_Modal g2 = true ∧ window_ModalImage g2 = true
  ∧ calls g2 = (λ h, (h, true)) <$> hs1 ∧ handlers g2 = []
  ∧ calls g3 = ((λ h, (h, true)) <$> hs1) ++ ((λ h, (h, false)) <$> hs2)
  ∧ handlers g3 = [].
Proof.
  intros Hok g1 g2 g3.
  assert (H1 : g1 = mkGlobal false false hs1 []).
  { unfold g1. by rewrite register_before_load. }
  assert (H2 : modules_loaded throws g1
               = (mkGlobal true true [] ((λ h, (h, true)) <$> hs1), true)).
  { rewrite H1. unfold modules_loaded. cbn [handlers calls].
    by rewrite forEach_all_return. }
  assert (H3 : g3 = mkGlobal true true []
                      (((λ h, (h, true)) <$> hs1)
                       ++ ((λ h, (h, false)) <$> hs2))).
  { unfold g3, g2. rewrite H2. cbn [fst]. by rewrite register_after_load. }
  unfold g2. rewrite H1, H3. rewrite H1 in H2. rewrite H2. by split_and!.
Qed.

(** X18. A waiting handler that throws at the load ends the notification:
    the handlers registered before it have been called, those registered
    after it are not called, then or ever, since the class is now set and
    the waiting list is never read again; the list is not emptied either.
    Handlers registered later are still called at once. *)
Theorem throwing_handler_starves a h b hs2 :
  (∀ x, x ∈ a → throws x = false) → throws h = true →
  let g1 := register_all throws (a ++ h :: b) loader_start in
  let g2 := (modules_loaded throws g1).1 in
  let g3 := register_all throws hs2 g2 in
  (modules_loaded throws g1).2 = false
  ∧ window_Modal g2 = true
  ∧ calls g2 = (λ h, (h, true)) <$> (a ++ [h])
  ∧ handlers g2 = a ++ h :: b
  ∧ calls g3 = calls g2 ++ ((λ h, (h, false)) <$> hs2)
  ∧ handlers g3 = a ++ h :: b
  ∧ ∀ x, x ∈ b → x ∉ a → x ≠ h → x ∉ hs2 → x ∉ (calls g3).*1.
Proof.
  intros Hok Hh g1 g2 g3.
  assert (H1 : g1 = mkGlobal false false (a ++ h :: b) []).
  { unfold g1. by rewrite register_before_load. }
  assert (H2 : modules_loaded throws g1
               = (mkGlobal true true (a ++ h :: b)
                    ((λ h, (h, true)) <$> (a ++ [h])), false)).
  { rewrite H1. unfold modules_loaded. cbn [handlers calls].
    by rewrite forEach_throw. }
  assert (H3 : g3 = mkGlobal true true (a ++ h :: b)
                      (((λ h, (h, true)) <$> (a ++ [h]))
                       ++ ((λ h, (h, false)) <$> hs2))).
  { unfold g3, g2. rewrite H2. cbn [fst]. by rewrite register_after_load. }
  unfold g2. rewrite H3, H2. cbn [fst snd window_Modal calls handlers].
  split_and!; try done.
  intros x _ Ha Hne H2'. rewrite fmap_app, <- !list_fmap_compose.
  intros Hin. apply elem_of_app in Hin as [Hin|Hin];
    apply list_elem_of_fmap in Hin as (y & -> & Hy); cbn in *.
  - apply elem_of_app in Hy as [Hy|Hy]; [done|].
    apply list_elem_of_singleton in Hy. done.
  - done.
Qed.

End LoaderFacts.

Lemma handlers_called_once_witness :
  let g := register_all (λ _, false) [9]
             (modules_loaded (λ _, false)
                (register_all (λ _, false) [7; 8] loader_start)).1 in
  calls g = [(7, true); (8, true); (9, false)] ∧ handlers g = [].
Proof.
  intros g.
  destruct (handlers_called_once (λ _, false) [7; 8] [9])
    as (_ & _ & _ & _ & _ & _ & _ & Hc & Hh); [done|].
  split; [exact Hc|exact Hh].
Defined.

Lemma throwing_handler_starves_witness :
  let throws := λ h : Handler, bool_decide (h = 8) in
  let g := register_all throws [10]
             (modules_loaded throws
                (register_all throws [7; 8; 9] loader_start)).1 in
  calls g = [(7, true); (8, true); (10, false)] ∧ handlers g = [7; 8; 9].
Proof.
  intros throws g.
  destruct (throwing_handler_starves throws [7] 8 [9] [10])
    as (_ & _ & Hc2 & _ & Hc & Hh & _).
  { intros x Hx. apply list_elem_of_singleton in Hx as ->. done. }
  { done. }
  split; [|exact Hh]. etrans; [exact Hc|]. rewrite Hc2. reflexivity.
Defined.

(** ** Modal: markup content *)

Lemma lookup_sub {A} (l : list A) x y l' k :
  (l ++ x :: y :: l') !! (S (S (length l)) + k) = l' !! k.
Proof.
  rewrite lookup_tail3, !decide_False by lia. f_equal. lia.
Qed.

Lemma sub_inside ns cov con sub :
  sub_ok (length ns) sub →
  ∀ k nd, sub !! k = Some nd →
    proper_ancestor (ns ++ cov :: con :: sub) (S (length ns))
      (S (S (length ns)) + k).
Proof.
  intros Hsub k. induction k as [k IH] using lt_wf_ind. intros nd Hk.
  destruct (Hsub k nd Hk) as (_ & _ & pa & Hpa & Hlo & Hhi).
  assert (Hp : node_parent (ns ++ cov :: con :: sub)
                 (S (S (length ns)) + k) = Some pa).
  { unfold node_parent. by rewrite lookup_sub, Hk. }
  destruct (decide (pa = S (length ns))) as [->|Hne].
  - by apply ancestor_parent.
  - apply (ancestor_up _ _ _ pa); [done|].
    replace pa with (S (S (length ns)) + (pa - S (S (length ns)))) by lia.
    assert (Hj : pa - S (S (length ns)) < k) by lia.
    destruct (lookup_lt_is_Some_2 sub (pa - S (S (length ns)))) as [nd' Hnd'].
    { apply lookup_lt_Some in Hk. lia. }
    by apply (IH _ Hj nd').
Qed.

(** X19. With the [innerHTML] option alone, and not empty, the construction
    succeeds, the markup is assigned, as it is, to the [innerHTML] of the
    content element, the content element is placed in the cover, and every
    element created for the markup lies below the content element. *)
Theorem markup_inside_content parse cls o h s :
  reachable parse s →
  opt_innerHTML o = Some h → h ≠ "" → opt_textContent o = None →
  ∃ s' this obj nd,
    Modal_new parse cls (Some o) s = (s', Ok this)
    ∧ modal_heap s' !! this = Some obj
    ∧ dom s' !! content obj = Some nd
    ∧ parentNode nd = Some (cover obj)
    ∧ EvSetProperty (content obj) "innerHTML" h ∈ trace s'
    ∧ ∀ i, content obj < i → i < length (dom s') →
        proper_ancestor (dom s') (content obj) i.
Proof.
  intros Hreach Hh Hne Ht. pose proof (reachable_wf parse s Hreach) as Hwf.
  destruct (Modal_new_spec parse cls (Some o) s Hwf)
    as (x & e & revs & _ & _ & _ & _ & _ & _ & _ & _ & _ & _ & _ & Hres).
  change (default no_options (Some o)) with o in Hres.
  rewrite decide_False in Hres by (intros [_ ?]; done).
  destruct Hres as (con & sub & Hres & [_ Hsub]).
  eexists _, _, _, _. split; [exact Hres|].
  split; [apply constructed_modal|].
  split; [apply constructed_content|].
  cbn [content cover set_parentNode parentNode].
  split; [done|].
  split.
  { cbn [constructed trace]. unfold body_events, html_events, has_markup.
    rewrite Hh, bool_decide_eq_true_2 by done.
    rewrite !elem_of_app. right. right. right. left. by left. }
  intros i Hlo Hhi. cbn [constructed dom] in *.
  set (ns := alter (set_children (λ ks, ks ++ [length (dom x)])) e (dom x))
    in *.
  assert (Hlen : length ns = length (dom x)) by apply length_alter.
  rewrite <- Hlen in *.
  rewrite length_app in Hhi. cbn [length] in Hhi.
  replace i with (S (S (length ns)) + (i - S (S (length ns)))) by lia.
  destruct (lookup_lt_is_Some_2 sub (i - S (S (length ns)))) as [nd Hnd];
    [lia|].
  by eapply sub_inside.
Qed.

Lemma markup_inside_content_witness :
  let o := mkModalOptions None (Some "<b><i>x</i></b>") None None ∅ in
  reachable parse_demo (page ["p"])
  ∧ ∃ s' this obj,
      Modal_new parse_demo ClassModal (Some o) (page ["p"]) = (s', Ok this)
      ∧ modal_heap s' !! this = Some obj
      ∧ proper_ancestor (dom s') (content obj) 6.
Proof.
  intros o.
  assert (Hr : reachable parse_demo (page ["p"])) by by exists ["p"].
  split; [exact Hr|].
  destruct (markup_inside_content parse_demo ClassModal o "<b><i>x</i></b>"
              (page ["p"]) Hr eq_refl)
    as (s' & this & obj & nd & Hnew & Hobj & _ & _ & _ & Hin); [done..|].
  exists s', this, obj. split; [exact Hnew|]. split; [exact Hobj|].
  assert (Heq : (Modal_new parse_demo ClassModal (Some o) (page ["p"])).1 = s')
    by by rewrite Hnew.
  assert (Hobj' :
    modal_heap (Modal_new parse_demo ClassModal (Some o) (page ["p"])).1 !! 0
    = Some (mkModal 0 3 4 (Some 250%Z))) by by vm_compute.
  assert (Hthis : (Modal_new parse_demo ClassModal (Some o) (page ["p"])).2
                  = Ok 0) by by vm_compute.
  assert (Hlen :
    length (dom (Modal_new parse_demo ClassModal (Some o) (page ["p"])).1) = 7)
    by by vm_compute.
  rewrite Hnew in Hthis. cbn in Hthis. injection Hthis as ->.
  rewrite Heq in Hobj', Hlen. rewrite Hobj' in Hobj. injection Hobj as <-.
  apply Hin; cbn [content]; lia.
Defined.
